(** * The evaluation-response parser of [src/app/problems/[id]/page.tsx]

    [parseEvaluationResponse] (lines 88-210) turns the free text of a model
    evaluation into a record: a score, three item lists, a follow-up question
    and an ideal response.  It is written with JavaScript regular expressions
    and string methods; this development embeds

    - JavaScript strings as lists of UTF-16 code units,
    - the regular expressions of the source as terms of a small syntax,
      run by a backtracking matcher that follows the ECMAScript semantics
      (ordered alternatives, greedy and lazy quantifiers, look-around,
      the [i], [m] and [g] flags),
    - [match], [replace], [test], [trim], [split] and [includes] as functions
      on those lists,
    - the body of [parseEvaluationResponse] statement by statement.

    The parser is embedded a second time with the two accesses that can
    throw an error written out as steps that can fail (module [Checked]).

    Around the parser it embeds, from the same file, [evaluateAnswer] (lines
    1183-1260) as a function of the outcomes of its two requests, the effect
    that stores the history of problems (lines 391-433) as a function of what
    was saved before, [toggleHintVisibility] (lines 846-860) and
    [getCategoryName] (lines 863-866); and [MarkdownComponents.code], the
    renderer of code that the evaluation is displayed with (lines 461-484 of
    [src/app/api/route.ts] as the sources are laid out).  *)

From Stdlib Require Import String Ascii List NArith Bool Arith Lia QArith.
Import ListNotations.
Local Open Scope string_scope.
Local Open Scope list_scope.
Local Open Scope N_scope.

(** ** Strings *)

(** A UTF-16 code unit. *)
Definition char := N.

(** A JavaScript string value. *)
Definition jsstring := list char.

(** The string value of an ASCII literal of the source. *)
Definition js (s : string) : jsstring :=
  map N_of_ascii (list_ascii_of_string s).


Definition LF : char := 10.
Definition backtick : char := 96.
(** U+2022 BULLET, the second member of the class [[-\u2022*]]. *)
Definition bullet : char := 8226.

(** *** Character classes of ECMAScript *)

(** LineTerminator: LF, CR, LS, PS. *)
Definition is_line_terminator (c : char) : bool :=
  (c =? 10) || (c =? 13) || (c =? 8232) || (c =? 8233).

(** WhiteSpace and LineTerminator, the set of [\s] and of [trim]. *)
Definition is_space (c : char) : bool :=
  ((9 <=? c) && (c <=? 13)) || (c =? 32) || (c =? 160) || (c =? 5760)
  || ((8192 <=? c) && (c <=? 8202)) || (c =? 8232) || (c =? 8233)
  || (c =? 8239) || (c =? 8287) || (c =? 12288) || (c =? 65279).

Definition is_digit (c : char) : bool := (48 <=? c) && (c <=? 57).

(** Canonicalize of a code unit under the [i] flag without [u]: the upper
    case mapping, except that a unit above 127 never maps into ASCII.  Every
    literal of the source's patterns is ASCII, so only the ASCII part of the
    mapping can make a pattern character and an input unit equal. *)
Definition canonicalize (c : char) : char :=
  if (97 <=? c) && (c <=? 122) then c - 32 else c.

Inductive charset : Type :=
| CAny                       (* [\s\S] *)
| CDot                       (* .      *)
| CSpace                     (* \s     *)
| CDigit                     (* \d     *)
| COne (c : char)            (* a literal character *)
| COneOf (l : list char).    (* [...]  *)

(** The classes of the source hold no letters, so the [i] flag does not
    change what they match. *)
Definition charset_mem (cs : charset) (c : char) : bool :=
  match cs with
  | CAny => true
  | CDot => negb (is_line_terminator c)
  | CSpace => is_space c
  | CDigit => is_digit c
  | COne x => c =? x
  | COneOf l => existsb (N.eqb c) l
  end.

(** ** Regular expressions *)

Inductive regex : Type :=
| Eps
| Lit (s : jsstring)                       (* a run of literal characters *)
| Cls (cs : charset)                       (* one character of a class *)
| Seq (a b : regex)
| Alt (a b : regex)                        (* a|b, left first *)
| Rep (greedy : bool) (lo : nat) (hi : option nat) (cs : charset)
                                           (* cs{lo,hi} and cs{lo,hi}? *)
| Opt (a : regex)                          (* (?:a)? *)
| Grp (a : regex)                          (* the capture group ( a ) *)
| Ahead (a : regex)                        (* (?=a) *)
| NotAhead (a : regex)                     (* (?!a) *)
| NotBehind (cs : charset)                 (* (?<!c) *)
| Bol                                      (* ^ *)
| Eol.                                     (* $ *)

Record flags : Type := { ignoreCase : bool; multiline : bool }.

Record RegExp : Type := { pattern : regex; reflags : flags }.

(** The state of a match attempt: the input before the current position
    (nearest character first), the input from it, and capture 1. *)
Record mstate : Type := {
  pre : list char;
  post : list char;
  cap : option jsstring
}.

Definition cont : Type := mstate -> option mstate.

(** The pattern character [x] against the input character [c]. *)
Definition lit_eq (fl : flags) (x c : char) : bool :=
  if ignoreCase fl then canonicalize c =? canonicalize x else c =? x.

Fixpoint match_lit (fl : flags) (s : jsstring) (st : mstate) (k : cont)
  : option mstate :=
  match s with
  | [] => k st
  | x :: s' =>
      match post st with
      | c :: t =>
          if lit_eq fl x c
          then match_lit fl s' {| pre := c :: pre st; post := t; cap := cap st |} k
          else None
      | [] => None
      end
  end.

Definition below (hi : option nat) : bool :=
  match hi with Some 0%nat => false | _ => true end.

Definition dec (hi : option nat) : option nat :=
  match hi with Some n => Some (Nat.pred n) | None => None end.

(** One quantified character class.  [c] is the capture carried along. *)
Fixpoint match_rep (greedy : bool) (cs : charset) (lo : nat) (hi : option nat)
  (c : option jsstring) (k : cont) (p q : list char) {struct q}
  : option mstate :=
  let here := {| pre := p; post := q; cap := c |} in
  match lo with
  | S lo' =>
      match q with
      | x :: t =>
          if charset_mem cs x && below hi
          then match_rep greedy cs lo' (dec hi) c k (x :: p) t
          else None
      | [] => None
      end
  | O =>
      match q with
      | x :: t =>
          if charset_mem cs x && below hi then
            if greedy then
              match match_rep greedy cs O (dec hi) c k (x :: p) t with
              | Some r => Some r
              | None => k here
              end
            else
              match k here with
              | Some r => Some r
              | None => match_rep greedy cs O (dec hi) c k (x :: p) t
              end
          else k here
      | [] => k here
      end
  end.

(** The text between two positions of one attempt. *)
Definition consumed (from to : mstate) : jsstring :=
  firstn (length (post from) - length (post to)) (post from).

Fixpoint rmatch (fl : flags) (r : regex) (st : mstate) (k : cont) {struct r}
  : option mstate :=
  match r with
  | Eps => k st
  | Lit s => match_lit fl s st k
  | Cls cs =>
      match post st with
      | c :: t =>
          if charset_mem cs c
          then k {| pre := c :: pre st; post := t; cap := cap st |}
          else None
      | [] => None
      end
  | Seq a b => rmatch fl a st (fun st' => rmatch fl b st' k)
  | Alt a b =>
      match rmatch fl a st k with
      | Some r => Some r
      | None => rmatch fl b st k
      end
  | Rep greedy lo hi cs => match_rep greedy cs lo hi (cap st) k (pre st) (post st)
  | Opt a =>
      match rmatch fl a st k with
      | Some r => Some r
      | None => k st
      end
  | Grp a =>
      rmatch fl a st
        (fun st' => k {| pre := pre st'; post := post st';
                         cap := Some (consumed st st') |})
  | Ahead a =>
      match rmatch fl a st Some with
      | Some _ => k st
      | None => None
      end
  | NotAhead a =>
      match rmatch fl a st Some with
      | Some _ => None
      | None => k st
      end
  | NotBehind cs =>
      match pre st with
      | c :: _ => if charset_mem cs c then None else k st
      | [] => k st
      end
  | Bol =>
      match pre st with
      | [] => k st
      | c :: _ => if multiline fl && is_line_terminator c then k st else None
      end
  | Eol =>
      match post st with
      | [] => k st
      | c :: _ => if multiline fl && is_line_terminator c then k st else None
      end
  end.

(** An attempt at one position: the matched text and capture 1. *)
Definition match_here (re : RegExp) (p q : list char)
  : option (jsstring * option jsstring) :=
  let st := {| pre := p; post := q; cap := None |} in
  match rmatch (reflags re) (pattern re) st Some with
  | Some e => Some (consumed st e, cap e)
  | None => None
  end.

(** The result of a successful search. *)
Record found : Type := {
  f_before : jsstring;          (* the input before the match *)
  f_text : jsstring;            (* [match[0]] *)
  f_group : option jsstring;    (* [match[1]] *)
  f_after : jsstring            (* the input after the match *)
}.

(** The leftmost position with a match; [p] is the input already passed. *)
Fixpoint search (re : RegExp) (p q : list char) {struct q} : option found :=
  match match_here re p q with
  | Some (m, g) =>
      Some {| f_before := rev p; f_text := m; f_group := g;
              f_after := skipn (length m) q |}
  | None =>
      match q with
      | [] => None
      | c :: t => search re (c :: p) t
      end
  end.

(** [RegExp.prototype.exec] from index 0. *)
Definition exec (re : RegExp) (s : jsstring) : option found := search re [] s.

(** [re.test(s)]. *)
Definition test (re : RegExp) (s : jsstring) : bool :=
  match exec re s with Some _ => true | None => false end.

(** [s.replace(re, by)] for a pattern without the [g] flag and a replacement
    text without [$]. *)
Definition replace (re : RegExp) (by_ : jsstring) (s : jsstring) : jsstring :=
  match exec re s with
  | Some f => f_before f ++ by_ ++ f_after f
  | None => s
  end.

(** The scan of a pattern with the [g] flag.  [skip] counts the characters of
    the last match still to be passed; after an empty match the scan moves on
    by one character. *)
Fixpoint scan_matches (re : RegExp) (p : list char) (skip : nat) (q : list char)
  {struct q} : list jsstring :=
  match skip with
  | S n =>
      match q with
      | [] => []
      | c :: t => scan_matches re (c :: p) n t
      end
  | O =>
      match match_here re p q with
      | Some (m, _) =>
          m :: match q with
               | [] => []
               | c :: t => scan_matches re (c :: p) (Nat.pred (length m)) t
               end
      | None =>
          match q with
          | [] => []
          | c :: t => scan_matches re (c :: p) 0 t
          end
      end
  end.

(** [s.match(re)] for a pattern with the [g] flag: every match, or [null]. *)
Definition match_all (re : RegExp) (s : jsstring) : option (list jsstring) :=
  match scan_matches re [] 0 s with
  | [] => None
  | l => Some l
  end.

(** [s.replace(re, by)] for a pattern with the [g] flag. *)
Fixpoint scan_replace (re : RegExp) (by_ : jsstring) (p : list char) (skip : nat)
  (q : list char) {struct q} : jsstring :=
  match skip with
  | S n =>
      match q with
      | [] => []
      | c :: t => scan_replace re by_ (c :: p) n t
      end
  | O =>
      match match_here re p q with
      | Some (m, _) =>
          by_ ++ match q with
                 | [] => []
                 | c :: t =>
                     match m with
                     | [] => c :: scan_replace re by_ (c :: p) 0 t
                     | _ :: m' => scan_replace re by_ (c :: p) (length m') t
                     end
                 end
      | None =>
          match q with
          | [] => []
          | c :: t => c :: scan_replace re by_ (c :: p) 0 t
          end
      end
  end.

Definition replace_all (re : RegExp) (by_ : jsstring) (s : jsstring) : jsstring :=
  scan_replace re by_ [] 0 s.

(** *** String methods *)

Fixpoint trim_start (s : jsstring) : jsstring :=
  match s with
  | c :: t => if is_space c then trim_start t else s
  | [] => []
  end.

Definition trim_end (s : jsstring) : jsstring := rev (trim_start (rev s)).

(** [s.trim()]. *)
Definition trim (s : jsstring) : jsstring := trim_end (trim_start s).

(** [s.split(sep)] for a one-character separator. *)
Fixpoint split (sep : char) (s : jsstring) : list jsstring :=
  match s with
  | [] => [[]]
  | c :: t =>
      if c =? sep then [] :: split sep t
      else match split sep t with
           | l :: ls => (c :: l) :: ls
           | [] => [[c]]
           end
  end.

(** [s.includes(c)] for a one-character argument. *)
Definition includes (c : char) (s : jsstring) : bool := existsb (N.eqb c) s.

(** ** Numbers *)

(** A JavaScript number.  [parseFloat] is only ever applied to capture 1 of a
    score pattern, a text of the shape [\d+(\.\d+)?]; its value is kept as the
    exact rational the decimal denotes, in lowest terms.  (The source rounds
    it to the nearest binary64; 0, 3, 4 and 4.5 are binary64 values.) *)
Inductive number : Type :=
| NaN
| Num (q : Q).

Definition digit_value (c : char) : N := c - 48.

(** The digits at the head of [s], read in base ten from [acc], their count
    and the rest of [s]. *)
Fixpoint read_digits (acc : N) (s : jsstring) : N * nat * jsstring :=
  match s with
  | c :: t =>
      if is_digit c then
        let '(v, n, r) := read_digits (10 * acc + digit_value c) t in
        (v, S n, r)
      else (acc, O, s)
  | [] => (acc, O, [])
  end.

Definition dot : char := 46.

Fixpoint pow10 (n : nat) : positive :=
  match n with
  | O => 1%positive
  | S n' => (10 * pow10 n')%positive
  end.

(** [parseFloat(s)] on texts that start with an unsigned decimal without
    exponent; [NaN] when [s] does not start with a digit. *)
Definition parseFloat (s : jsstring) : number :=
  match read_digits 0 s with
  | (_, O, _) => NaN
  | (ip, S _, r) =>
      match r with
      | c :: r' =>
          if c =? dot then
            let '(v, n, _) := read_digits ip r' in
            Num (Qred (Z.of_N v # pow10 n))
          else Num (Z.of_N ip # 1)
      | [] => Num (Z.of_N ip # 1)
      end
  end.

(** ** The patterns of the source *)

Definition star (cs : charset) : regex := Rep true 0 None cs.        (* cs*  *)
Definition plus (cs : charset) : regex := Rep true 1 None cs.        (* cs+  *)
Definition lazy_star (cs : charset) : regex := Rep false 0 None cs.  (* cs*? *)
Definition lazy_plus (cs : charset) : regex := Rep false 1 None cs.  (* cs+? *)
Definition maybe (c : char) : regex := Rep true 0 (Some 1%nat) (COne c). (* c? *)

(** A sequence of parts. *)
Fixpoint seq (l : list regex) : regex :=
  match l with
  | [] => Eps
  | [a] => a
  | a :: l' => Seq a (seq l')
  end.

(** Alternatives, tried from the left. *)
Fixpoint alts (l : list regex) : regex :=
  match l with
  | [] => Eps
  | [a] => a
  | a :: l' => Alt a (alts l')
  end.

Definition no_flags : flags := {| ignoreCase := false; multiline := false |}.
Definition flag_i : flags := {| ignoreCase := true; multiline := false |}.
Definition flag_m : flags := {| ignoreCase := false; multiline := true |}.

Definition colon : char := 58.
Definition asterisk : char := 42.
Definition hyphen : char := 45.

(** The class [[-\u2022*]]. *)
Definition bullets : charset := COneOf [hyphen; bullet; asterisk].

(** [\d+(?:\.\d+)?] *)
Definition decimal : regex := Seq (plus CDigit) (Opt (Seq (Lit [dot]) (plus CDigit))).

(** Line 107: [/Score:?\s*(\d+(?:\.\d+)?)/i]. *)
Definition re_score_label : RegExp :=
  {| pattern := seq [Lit (js "Score"); maybe colon; star CSpace; Grp decimal];
     reflags := flag_i |}.

(** Line 108: [/(\d+(?:\.\d+)?)\s*\/\s*5/i]. *)
Definition re_score_of_five : RegExp :=
  {| pattern := seq [Grp decimal; star CSpace; Lit (js "/"); star CSpace; Lit (js "5")];
     reflags := flag_i |}.

(** The section keys, in the order of the object literal [sections]. *)
Inductive key : Type :=
| strengths_key
| improvements_key
| missedPoints_key
| followUp_key
| idealResponse_key.

(** The shape shared by the five section patterns:
    [/(?:heading)colon\s*([\s\S]*?)(?=stop1|...|$)/i]. *)
Definition section_re (heading : regex) (stops : list string) : RegExp :=
  {| pattern :=
       seq [heading; star CSpace; Grp (lazy_star CAny);
            Ahead (alts (map (fun s => Lit (js s)) stops ++ [Eol]))];
     reflags := flag_i |}.

(** [(?:w1|w2|...)] *)
Definition words (l : list string) : regex := alts (map (fun s => Lit (js s)) l).


(** Line 115. *)
Definition strengths_re : RegExp :=
  section_re (words ["Strengths"; "Strengths:"])
    ["Areas for Improvement"; "Improvements"; "Areas of Improvement";
     "Key Points Missed"; "Missed Points"; "Follow-up"; "Ideal Response"].

(** Line 116. *)
Definition improvements_re : RegExp :=
  section_re
    (Seq (words ["Areas for Improvement"; "Improvements"; "Areas of Improvement"])
         (maybe colon))
    ["Key Points Missed"; "Missed Points"; "Follow-up"; "Ideal Response"].

(** Line 117. *)
Definition missedPoints_re : RegExp :=
  section_re
    (Seq (words ["Key Points Missed"; "Missed Points"; "Missed Opportunities";
                 "Key Points"])
         (maybe colon))
    ["Follow-up"; "Ideal Response"].

(** Line 118. *)
Definition followUp_re : RegExp :=
  section_re (Seq (words ["Follow-up Question"; "Follow-up"]) (maybe colon))
    ["Ideal Response"].

(** Line 119. *)
Definition idealResponse_re : RegExp :=
  section_re
    (Seq (words ["Ideal Response"; "Example Answer"; "Model Answer"]) (maybe colon))
    [].

(** Lines 114-120, the object [sections], in insertion order. *)
Definition sections : list (key * RegExp) :=
  [ (strengths_key, strengths_re);
    (improvements_key, improvements_re);
    (missedPoints_key, missedPoints_re);
    (followUp_key, followUp_re);
    (idealResponse_key, idealResponse_re) ].

(** Line 133: [/^\s*[-\u2022*]\s*/]. *)
Definition re_leading_artifact : RegExp :=
  {| pattern := seq [Bol; star CSpace; Cls bullets; star CSpace]; reflags := no_flags |}.

(** The look-ahead shared by lines 140 and 141:
    [(?=(?:\n[-\u2022*]|\n\d+\.|\n\n|$))]. *)
Definition item_end : regex :=
  Ahead (alts [Seq (Lit [LF]) (Cls bullets);
               seq [Lit [LF]; plus CDigit; Lit [dot]];
               Lit [LF; LF];
               Eol]).

(** Line 140: [/(?:^|\n)[-\u2022*]\s+(.+?)(?=...)/g]. *)
Definition re_bullet_item : RegExp :=
  {| pattern := seq [Alt Bol (Lit [LF]); Cls bullets; plus CSpace;
                     Grp (lazy_plus CDot); item_end];
     reflags := no_flags |}.

(** Line 141: [/(?:^|\n)\d+\.\s+(.+?)(?=...)/g]. *)
Definition re_numbered_item : RegExp :=
  {| pattern := seq [Alt Bol (Lit [LF]); plus CDigit; Lit [dot]; plus CSpace;
                     Grp (lazy_plus CDot); item_end];
     reflags := no_flags |}.

(** Lines 147, 157 and 174: [/^[-\u2022*]\s+/]. *)
Definition re_bullet_marker : RegExp :=
  {| pattern := seq [Bol; Cls bullets; plus CSpace]; reflags := no_flags |}.

(** Lines 148 and 157: [/^\d+\.\s+/]. *)
Definition re_number_marker : RegExp :=
  {| pattern := seq [Bol; plus CDigit; Lit [dot]; plus CSpace]; reflags := no_flags |}.

(** Line 149: [/^\n+/]. *)
Definition re_leading_newlines : RegExp :=
  {| pattern := seq [Bol; plus (COne LF)]; reflags := no_flags |}.

(** Line 168: [/^[-\u2022*]$/]. *)
Definition re_lone_bullet : RegExp :=
  {| pattern := seq [Bol; Cls bullets; Eol]; reflags := no_flags |}.

(** Line 179: [/^\s*\*+\s*/]. *)
Definition re_leading_asterisks : RegExp :=
  {| pattern := seq [Bol; star CSpace; plus (COne asterisk); star CSpace];
     reflags := no_flags |}.

(** Line 180: [/\s*\*+\s*$/]. *)
Definition re_trailing_asterisks : RegExp :=
  {| pattern := seq [star CSpace; plus (COne asterisk); star CSpace; Eol];
     reflags := no_flags |}.

(** Line 184: [/^###\s+/]. *)
Definition re_h3 : RegExp :=
  {| pattern := seq [Bol; Lit (js "###"); plus CSpace]; reflags := no_flags |}.

Definition fence : jsstring := [backtick; backtick; backtick].

(** Line 193: [/```\s*\n/g]. *)
Definition re_bare_fence : RegExp :=
  {| pattern := seq [Lit fence; star CSpace; Lit [LF]]; reflags := no_flags |}.

(** Line 197: [/^```\s*$/gm]. *)
Definition re_lone_fence : RegExp :=
  {| pattern := seq [Bol; Lit fence; star CSpace; Eol]; reflags := flag_m |}.

(** Line 198: [/^`{1,2}(?!`)/gm]. *)
Definition re_stray_backticks : RegExp :=
  {| pattern := seq [Bol; Rep true 1 (Some 2%nat) (COne backtick);
                     NotAhead (Lit [backtick])];
     reflags := flag_m |}.

(** Line 199: [/(?<!\n)```/g]. *)
Definition re_fence_not_on_own_line : RegExp :=
  {| pattern := seq [NotBehind (COne LF); Lit fence]; reflags := no_flags |}.

(** ** [parseEvaluationResponse] *)

Record ParsedEvaluation : Type := {
  score : number;
  strengths : list jsstring;
  improvements : list jsstring;
  missedPoints : list jsstring;
  followUp : jsstring;
  idealResponse : jsstring
}.

(** Lines 97-104, the initial [result]. *)
Definition initial_result : ParsedEvaluation :=
  {| score := Num 0; strengths := []; improvements := []; missedPoints := [];
     followUp := []; idealResponse := [] |}.

Definition set_score (v : number) (r : ParsedEvaluation) : ParsedEvaluation :=
  {| score := v; strengths := strengths r; improvements := improvements r;
     missedPoints := missedPoints r; followUp := followUp r;
     idealResponse := idealResponse r |}.

(** [result[key] = v] for a list value; the three list keys are the only
    ones assigned a list. *)
Definition set_list (k : key) (v : list jsstring) (r : ParsedEvaluation)
  : ParsedEvaluation :=
  match k with
  | strengths_key =>
      {| score := score r; strengths := v; improvements := improvements r;
         missedPoints := missedPoints r; followUp := followUp r;
         idealResponse := idealResponse r |}
  | improvements_key =>
      {| score := score r; strengths := strengths r; improvements := v;
         missedPoints := missedPoints r; followUp := followUp r;
         idealResponse := idealResponse r |}
  | missedPoints_key =>
      {| score := score r; strengths := strengths r; improvements := improvements r;
         missedPoints := v; followUp := followUp r;
         idealResponse := idealResponse r |}
  | _ => r
  end.

(** [result[key] = v] for a string value. *)
Definition set_text (k : key) (v : jsstring) (r : ParsedEvaluation)
  : ParsedEvaluation :=
  match k with
  | followUp_key =>
      {| score := score r; strengths := strengths r; improvements := improvements r;
         missedPoints := missedPoints r; followUp := v;
         idealResponse := idealResponse r |}
  | idealResponse_key =>
      {| score := score r; strengths := strengths r; improvements := improvements r;
         missedPoints := missedPoints r; followUp := followUp r;
         idealResponse := v |}
  | _ => r
  end.

(** Lines 107-111. *)
Definition scoreMatch (evaluation : jsstring) : option found :=
  match exec re_score_label evaluation with
  | Some m => Some m
  | None => exec re_score_of_five evaluation
  end.

Definition extract_score (evaluation : jsstring) (r : ParsedEvaluation)
  : ParsedEvaluation :=
  match scoreMatch evaluation with
  | Some m =>
      match f_group m with
      | Some g => set_score (parseFloat g) r
      | None => set_score NaN r
      end
  | None => r
  end.

(** *** The list sections, lines 129-175 *)

(** Lines 131-134. *)
Definition cleanedContent (content : jsstring) : jsstring :=
  trim (replace re_leading_artifact [] content).

(** Lines 140 and 141. *)
Definition bulletMatch (cleaned : jsstring) : option (list jsstring) :=
  match_all re_bullet_item cleaned.

Definition numberedMatch (cleaned : jsstring) : option (list jsstring) :=
  match_all re_numbered_item cleaned.

(** [x || []] *)
Definition or_empty (x : option (list jsstring)) : list jsstring :=
  match x with Some l => l | None => [] end.

(** Lines 146-150, the function mapped over the matches. *)
Definition clean_match (point : jsstring) : jsstring :=
  trim (replace re_leading_newlines []
          (replace re_number_marker []
             (replace re_bullet_marker [] point))).

(** Line 157, the function mapped over the lines. *)
Definition clean_line (point : jsstring) : jsstring :=
  replace re_number_marker [] (replace re_bullet_marker [] (trim point)).

Definition is_some {A : Type} (x : option A) : bool :=
  match x with Some _ => true | None => false end.

(** Lines 137-163, [points] before the filter. *)
Definition split_points (cleaned : jsstring) : list jsstring :=
  if is_some (bulletMatch cleaned) || is_some (numberedMatch cleaned) then
    map clean_match (or_empty (bulletMatch cleaned) ++ or_empty (numberedMatch cleaned))
  else if includes LF cleaned then
    filter (fun point => (0 <? length point)%nat) (map clean_line (split LF cleaned))
  else [cleaned].

(** Lines 166-168. *)
Definition post_filter (points : list jsstring) : list jsstring :=
  filter (fun point => negb (test re_lone_bullet point))
    (filter (fun point => (1 <? length point)%nat) points).

(** Lines 131-175: the value assigned to a list section whose trimmed capture
    is [content]. *)
Definition list_items (content : jsstring) : list jsstring :=
  let cleaned := cleanedContent content in
  let points := post_filter (split_points cleaned) in
  if (0 <? length points)%nat then points
  else [replace re_bullet_marker [] cleaned].

(** *** The text sections, lines 176-201 *)

(** Lines 178-184. *)
Definition clean_followUp (content : jsstring) : jsstring :=
  let followUpText :=
    trim (replace re_trailing_asterisks []
            (replace re_leading_asterisks [] content)) in
  replace re_h3 [] followUpText.

Definition python_fence : jsstring := fence ++ js "python" ++ [LF].

(** Line 193. *)
Definition tag_fences (s : jsstring) : jsstring :=
  replace_all re_bare_fence python_fence s.

(** Line 197. *)
Definition normalize_lone_fences (s : jsstring) : jsstring :=
  replace_all re_lone_fence fence s.

(** Line 198. *)
Definition remove_stray_backticks (s : jsstring) : jsstring :=
  replace_all re_stray_backticks [] s.

(** Line 199. *)
Definition fences_on_own_line (s : jsstring) : jsstring :=
  replace_all re_fence_not_on_own_line (LF :: fence) s.

(** Lines 190-199. *)
Definition clean_idealResponse (content : jsstring) : jsstring :=
  fences_on_own_line
    (remove_stray_backticks
       (normalize_lone_fences
          (tag_fences content))).

Definition is_list_key (k : key) : bool :=
  match k with
  | strengths_key | improvements_key | missedPoints_key => true
  | _ => false
  end.

Definition nonempty (s : jsstring) : bool :=
  match s with [] => false | _ => true end.

(** [match[1]] of a section pattern, when the guard of line 125 passes:
    the group is a non-empty text that is not blank. *)
Definition section_content (regex : RegExp) (evaluation : jsstring)
  : option jsstring :=
  match exec regex evaluation with
  | Some m =>
      match f_group m with
      | Some g => if nonempty g && nonempty (trim g) then Some (trim g) else None
      | None => None
      end
  | None => None
  end.

(** Lines 123-207, the body of the [forEach] callback. *)
Definition extract_section (evaluation : jsstring) (result : ParsedEvaluation)
  (entry : key * RegExp) : ParsedEvaluation :=
  let (k, regex) := entry in
  match section_content regex evaluation with
  | Some content =>
      if is_list_key k then set_list k (list_items content) result
      else match k with
           | followUp_key => set_text k (clean_followUp content) result
           | idealResponse_key => set_text k (clean_idealResponse content) result
           | _ => set_text k content result
           end
  | None => result
  end.

(** Lines 88-210. *)
Definition parseEvaluationResponse (evaluation : jsstring) : ParsedEvaluation :=
  fold_left (extract_section evaluation) sections
    (extract_score evaluation initial_result).

(** Lines of text joined by line feeds. *)
Fixpoint unlines (l : list string) : jsstring :=
  match l with
  | [] => []
  | [a] => js a
  | a :: l' => js a ++ LF :: unlines l'
  end.

(** The end-to-end scenario of the specification. *)
Definition sample : jsstring := unlines
  ["Score: 4/5";
   "Strengths: - Clear explanation - Good example";
   "Areas for Improvement: Could mention edge cases";
   "Follow-up: **What about concurrent writes?**"].


(** The list assigned to a list key. *)
Definition list_field (k : key) (r : ParsedEvaluation) : list jsstring :=
  match k with
  | strengths_key => strengths r
  | improvements_key => improvements r
  | missedPoints_key => missedPoints r
  | _ => []
  end.

(** [s] ends with [t]. *)
Definition ends_with (t s : jsstring) : Prop := exists p, s = p ++ t.

(** [s] occurs in [t]. *)
Definition occurs_in (s t : jsstring) : Prop := exists p q, t = p ++ s ++ q.

(** ** Texts and functions used in the statements and proofs *)

Definition three_bullets : jsstring := unlines ["- a"; "- b"; "- c"].

Definition fenced_then_text : jsstring := unlines ["```"; "code"; "```"; "Done."].

Definition strengths_then_model_answer : jsstring :=
  unlines ["Strengths: good"; "Model Answer: x"].

Definition only_asterisk : jsstring := js "Improvements: *".

Definition bullet_then_number : jsstring := unlines ["- - A"; "1. Bee"].

Definition number_then_bullet : jsstring :=
  unlines ["Notes"; "1. first"; "- second"].

(** No attempt of [re] succeeds at a position inside [before], in the text
    [before ++ rest] read after [p]. *)
Fixpoint attempts_fail (re : RegExp) (p : list char) (before rest : jsstring)
  : bool :=
  match before with
  | [] => true
  | c :: t =>
      match match_here re p (before ++ rest) with
      | None => attempts_fail re (c :: p) t rest
      | Some _ => false
      end
  end.

Definition starts_with_digit (s : jsstring) : bool :=
  match s with c :: _ => is_digit c | [] => false end.

Definition starts_with_space (s : jsstring) : bool :=
  match s with c :: _ => is_space c | [] => false end.

(** The position is at the start of a line: [^] under the [m] flag. *)
Definition bol (p : list char) : bool :=
  match p with
  | [] => true
  | c :: _ => is_line_terminator c
  end.

Definition is_backtick (c : char) : bool := c =? backtick.

Definition starts_with_backtick (s : jsstring) : bool :=
  match s with c :: _ => is_backtick c | [] => false end.

(** The length of the match of [`{1,2}(?!`)] at the head of [q]: a run of
    exactly one or two backticks. *)
Definition stray_run (q : jsstring) : option nat :=
  match q with
  | c :: t =>
      if is_backtick c then
        match t with
        | d :: t' =>
            if is_backtick d then
              if starts_with_backtick t' then None else Some 2%nat
            else Some 1%nat
        | [] => Some 1%nat
        end
      else None
  | [] => None
  end.

(** Line 198 as a function of the text alone; [b] tells whether the position
    is at the start of a line. *)
Fixpoint strip_stray (b : bool) (q : jsstring) {struct q} : jsstring :=
  match q with
  | [] => []
  | c :: t =>
      if b && is_backtick c then
        match t with
        | [] => []
        | d :: t' =>
            if is_backtick d then
              match t' with
              | [] => []
              | e :: _ =>
                  if is_backtick e then c :: strip_stray false t
                  else strip_stray false t'
              end
            else strip_stray false t
        end
      else c :: strip_stray (is_line_terminator c) t
  end.

(** The length of the match of [\s*\n] at the head of [x]: the white space up
    to the last line feed of the leading run of white space. *)
Fixpoint spaces_to_lf (x : jsstring) : option nat :=
  match x with
  | c :: t =>
      if is_space c then
        match spaces_to_lf t with
        | Some n => Some (S n)
        | None => if c =? LF then Some 1%nat else None
        end
      else None
  | [] => None
  end.

(** The length of the match of line 193 at the head of [q]. *)
Definition bare_fence_len (q : jsstring) : option nat :=
  match q with
  | c :: d :: e :: x =>
      if is_backtick c && is_backtick d && is_backtick e then
        match spaces_to_lf x with
        | Some n => Some (3 + n)%nat
        | None => None
        end
      else None
  | _ => None
  end.

(** The length of the match of [\s*$] under the [m] flag at the head of [x]:
    the longest run of white space that ends the text or stops in front of
    a line terminator. *)
Fixpoint spaces_to_eol (x : jsstring) : option nat :=
  match x with
  | [] => Some 0%nat
  | c :: t =>
      if is_space c then
        match spaces_to_eol t with
        | Some n => Some (S n)
        | None => if is_line_terminator c then Some 0%nat else None
        end
      else None
  end.

(** The length of the match of [```\s*$] at the head of [q]. *)
Definition lone_fence_len (q : jsstring) : option nat :=
  match q with
  | c :: d :: e :: x =>
      if is_backtick c && is_backtick d && is_backtick e then
        match spaces_to_eol x with
        | Some n => Some (3 + n)%nat
        | None => None
        end
      else None
  | _ => None
  end.

(** ** Asking for an evaluation *)

(** The fields of an [ApiQuestionResponse] that [evaluateAnswer] reads. *)
Record ApiQuestionResponse : Type := {
  response : option jsstring;
  error : option jsstring
}.

(** What [fetch] followed by [json()] comes to. *)
Inductive fetched : Type :=
| Failed                                         (* one of the two throws *)
| Answer (ok : bool) (data : ApiQuestionResponse).

(** An optional text in a condition: absent and empty are falsy. *)
Definition truthy (s : option jsstring) : bool :=
  match s with Some (_ :: _) => true | _ => false end.

(** [n > 0] for the number that [parseFloat] returns: the binary64 value
    nearest to the decimal [q], ties to even.  It is 0 when [q] is at most
    2^-1075, half the least positive binary64, and positive or infinite
    above that. *)
Definition greater_than_zero (n : number) : bool :=
  match n with
  | NaN => false
  | Num q => negb (Qle_bool q (1 # 2 ^ 1075))
  end.

(** Line 1247, the text put before the ideal response. *)
Definition ideal_heading : jsstring :=
  LF :: LF :: js "### Ideal Response" ++ [LF].

(** Lines 1183-1260.  [evaluation] is the outcome of the first request and
    [ideal] the outcome of the second, which is read only when the request
    is made; [None] is [null]. *)
Definition evaluateAnswer (evaluation ideal : fetched) : option jsstring :=
  match evaluation with
  | Failed => None
  | Answer ok data =>
      if negb ok then None
      else if truthy (error data) then None
      else
        match response data with
        | Some (c :: t) =>
            let text := c :: t in
            let parsedEval := parseEvaluationResponse text in
            if negb (nonempty (idealResponse parsedEval))
               && greater_than_zero (score parsedEval)
            then
              match ideal with
              | Answer _ idealResponse_ =>
                  match response idealResponse_ with
                  | Some (c' :: t') => Some (text ++ ideal_heading ++ c' :: t')
                  | _ => Some text
                  end
              | Failed => Some text
              end
            else Some text
        | _ => None
        end
  end.

(** ** The history of problems *)

(** [l[i] = x] at an index within [l]. *)
Fixpoint set_at {A : Type} (i : nat) (x : A) (l : list A) : list A :=
  match l, i with
  | [], _ => []
  | _ :: t, O => x :: t
  | a :: t, S i' => a :: set_at i' x t
  end.

(** A category of questions, [{ id, name }]. *)
Record Category : Type := { id : jsstring; name : jsstring }.

Definition category_of (i n : string) : Category := {| id := js i; name := js n |}.

(** Lines 28-56, the categories of the two sections. *)
Definition CATEGORY_SECTIONS : list (list Category) :=
  [ [ category_of "algorithms" "Algorithms & Data Structures";
      category_of "system_design" "System Design";
      category_of "networking" "Networking";
      category_of "os" "Operating Systems";
      category_of "concurrency" "Concurrency";
      category_of "databases" "Databases";
      category_of "web" "Web Development";
      category_of "devops" "DevOps";
      category_of "security" "Security" ];
    [ category_of "python" "Python";
      category_of "javascript" "JavaScript";
      category_of "typescript" "TypeScript";
      category_of "cpp" "C++";
      category_of "csharp" "C#";
      category_of "go" "Go" ] ].

(** Line 59. *)
Definition FLATTENED_CATEGORIES : list Category :=
  flat_map (fun section => section) CATEGORY_SECTIONS.

Definition jsstring_eqb (a b : jsstring) : bool :=
  if list_eq_dec N.eq_dec a b then true else false.

(** Lines 863-866. *)
Definition getCategoryName (categoryId : jsstring) : jsstring :=
  match find (fun c => jsstring_eqb (id c) categoryId) FLATTENED_CATEGORIES with
  | Some category => name category     (* [name || ''] is [name] *)
  | None => []
  end.

Inductive Role : Type := user | assistant.

Record Message : Type := { role : Role; content : jsstring }.

Record Hint : Type := { text : jsstring; visible : bool }.

(** The fields of the state that the functions modelled here read. *)
Record InterviewState : Type := {
  category : option jsstring;
  isActive : bool;
  messages : list Message;
  currentQuestion : jsstring;
  hints : list Hint
}.

(** A value that [JSON.parse] returns.  A number is finite, or one of the
    two infinities, which a literal too large for binary64 such as [1e400]
    is read as. *)
#[local] Unset Elimination Schemes.
Inductive json : Type :=
| JNull
| JBool (b : bool)
| JNumber (n : Q)
| JInfinity (negative : bool)
| JString (s : jsstring)
| JArray (items : list json)
| JObject (fields : list (jsstring * json)).
#[local] Set Elimination Schemes.

(** [JSON.parse(JSON.stringify(v))], what is read back of a value that was
    written: [JSON.stringify] writes an infinity as [null]. *)
Fixpoint written (v : json) : json :=
  match v with
  | JInfinity _ => JNull
  | JArray items => JArray (map written items)
  | JObject fields =>
      JObject (map (fun field => match field with
                                 | (k, x) => (k, written x)
                                 end) fields)
  | _ => v
  end.

(** An infinity, which [JSON.stringify] writes as [null]. *)
Definition is_infinity (v : json) : bool :=
  match v with JInfinity _ => true | _ => false end.

(** The property [k] of an object, which holds a key once. *)
Fixpoint property (k : jsstring) (fields : list (jsstring * json)) : option json :=
  match fields with
  | [] => None
  | (k', v) :: rest => if jsstring_eqb k' k then Some v else property k rest
  end.

(** [item.id === id] for an item that is not [null]: of the values that
    [JSON.parse] returns only an object has a property [id]. *)
Definition has_id (id_ : jsstring) (item : json) : bool :=
  match item with
  | JObject fields =>
      match property (js "id") fields with
      | Some (JString s) => jsstring_eqb s id_
      | _ => false
      end
  | _ => false
  end.

(** Line 412, [history.findIndex(item => item.id === id)] from index [i]:
    [None] when reading [item.id] throws, which it does on [null];
    [Some None] is -1. *)
Fixpoint findIndex (id_ : jsstring) (history : list json) (i : nat)
  : option (option nat) :=
  match history with
  | [] => Some None
  | JNull :: _ => None
  | item :: rest =>
      if has_id id_ item then Some (Some i) else findIndex id_ rest (S i)
  end.

(** Line 398. *)
Definition title (currentQuestion : jsstring) : jsstring :=
  firstn 50 currentQuestion
  ++ (if (50 <? length currentQuestion)%nat then js "..." else []).

(** Lines 396-402; [date] is [new Date().toLocaleDateString()]. *)
Definition historyItem (id_ date : jsstring) (state : InterviewState) : json :=
  JObject
    [ (js "id", JString id_);
      (js "title", JString (title (currentQuestion state)));
      (js "category",
       JString
         match category state with
         | Some c =>
             match find (fun x => jsstring_eqb (id x) c) FLATTENED_CATEGORIES with
             | Some x => match name x with [] => js "Unknown" | n => n end
             | None => js "Unknown"
             end
         | None => js "Unknown"
         end);
      (js "date", JString date);
      (js "status",
       JString (if (1 <? length (messages state))%nat
                then js "completed" else js "in-progress")) ].

(** What [localStorage.getItem('problemHistory')] and [JSON.parse] come to. *)
Inductive saved : Type :=
| Missing                (* no item, or an empty text *)
| Unreadable             (* [JSON.parse] throws *)
| Parsed (v : json).

(** Lines 404-429: the history that is stored, given the saved one.  A parsed
    value that is not an array has no [findIndex], and the call throws. *)
Definition stored_history (savedHistory : saved) (id_ : jsstring) (item : json)
  : list json :=
  let history :=
    match savedHistory with
    | Parsed (JArray history) =>
        match findIndex id_ history 0 with
        | Some (Some existingIndex) => set_at existingIndex item history
        | Some None => item :: history
        | None => [item]
        end
    | _ => [item]
    end in
  if (50 <? length history)%nat then firstn 50 history else history.

(** The [id] of an entry of the history, when it has one that is a text. *)
Definition entry_id (item : json) : option jsstring :=
  match item with
  | JObject fields =>
      match property (js "id") fields with
      | Some (JString s) => Some s
      | _ => None
      end
  | _ => None
  end.

(** The ids of a history, in order. *)
Fixpoint ids (history : list json) : list jsstring :=
  match history with
  | [] => []
  | item :: rest =>
      match entry_id item with
      | Some s => s :: ids rest
      | None => ids rest
      end
  end.

(** Lines 846-860. *)
Definition toggleHintVisibility (index : nat) (hints_ : list Hint) : list Hint :=
  match nth_error hints_ index with
  | Some hint =>
      set_at index {| text := text hint; visible := negb (visible hint) |} hints_
  | None => hints_
  end.

(** ** Code in Markdown *)

(** The class [\w]. *)
Definition word : charset :=
  COneOf (js "ABCDEFGHIJKLMNOPQRSTUVWXYZabcdefghijklmnopqrstuvwxyz0123456789_").

(** [/language-(\w+)/]. *)
Definition re_language : RegExp :=
  {| pattern := Seq (Lit (js "language-")) (Grp (plus word)); reflags := no_flags |}.

(** [/\n$/]. *)
Definition re_final_newline : RegExp :=
  {| pattern := Seq (Lit [LF]) Eol; reflags := no_flags |}.

(** What [MarkdownComponents.code] renders: a [code] element of the class
    [inline-code], or a [pre] element around a [code] element, with the class
    of each. *)
Inductive element : Type :=
| inline_code (content : jsstring)
| code_block (preClass codeClass children : jsstring).

(** [MarkdownComponents.code]; [children] is [String(children)]. *)
Definition code (inline : bool) (className : option jsstring) (children : jsstring)
  : element :=
  let className_ := match className with Some c => c | None => [] end in
  let match_ := exec re_language className_ in
  let language :=
    match match_ with
    | Some m => match f_group m with Some g => g | None => [] end
    | None => []
    end in
  let content := replace re_final_newline [] children in
  if inline || negb (is_some match_)
  then inline_code content
  else code_block
         (className_ ++ js " overflow-auto rounded-md p-3 bg-gray-100 dark:bg-gray-800")
         (if nonempty language then js "language-" ++ language else [])
         children.

(** ** Notions used in the further properties *)

(** The position [st'] lies [x] further in the same text than [st]. *)
Definition reaches (st st' : mstate) (x : jsstring) : Prop :=
  post st = x ++ post st' /\ pre st' = rev x ++ pre st.

(** The pattern holds no capture group. *)
Fixpoint groupless (r : regex) : bool :=
  match r with
  | Grp _ => false
  | Seq a b | Alt a b => groupless a && groupless b
  | Opt a => groupless a
  | _ => true
  end.

(** [s] neither starts nor ends with white space. *)
Definition no_edge_space (s : jsstring) : Prop :=
  starts_with_space s = false /\ starts_with_space (rev s) = false.

(** The start-of-line status of the position after [a], when the text read
    before [a] ended in status [b]. *)
Definition bol_after (b : bool) (a : jsstring) : bool :=
  match rev a with
  | [] => b
  | c :: _ => is_line_terminator c
  end.

(** [c] is not a line feed. *)
Definition not_lf (c : char) : bool := negb (c =? LF).

(** [s] starts with [w], the case of letters apart. *)
Fixpoint starts_with_ci (w s : jsstring) : bool :=
  match w, s with
  | [], _ => true
  | x :: w', c :: s' => (canonicalize c =? canonicalize x) && starts_with_ci w' s'
  | _ :: _, [] => false
  end.

(** [w] occurs in [s], the case of letters apart. *)
Fixpoint mentions (w s : jsstring) : bool :=
  starts_with_ci w s
  || match s with
     | [] => false
     | _ :: t => mentions w t
     end.

(** The headings that line 119 accepts. *)
Definition ideal_headings : list string :=
  ["Ideal Response"; "Example Answer"; "Model Answer"].

(** ** The parser with the errors of JavaScript written out

    [parseEvaluationResponse] once more, with the two accesses that throw a
    [TypeError] on [null] or [undefined] as steps that can fail: the element
    [m[1]] of the result of a match, which is [null] when there is no match,
    and the method [trim] of that element, which is [undefined] when the
    group took no part in the match.  Every other method of lines 88-210 is
    called on a string, and is total. *)

(** How a statement completes: normally, with a value, or with an error
    thrown. *)
Inductive completion (A : Type) : Type :=
| Normal (a : A)
| Throw.

Arguments Normal {A} a.
Arguments Throw {A}.

Definition bind {A B : Type} (c : completion A) (f : A -> completion B)
  : completion B :=
  match c with
  | Normal a => f a
  | Throw => Throw
  end.

(** [m[1]] *)
Definition index1 (m : option found) : completion (option jsstring) :=
  match m with
  | Some f => Normal (f_group f)
  | None => Throw
  end.

(** [v.trim()] *)
Definition trim_of (v : option jsstring) : completion jsstring :=
  match v with
  | Some s => Normal (trim s)
  | None => Throw
  end.

Module Checked.

(** Lines 107-111; [parseFloat(undefined)] is [NaN]. *)
Definition extract_score (evaluation : jsstring) (result : ParsedEvaluation)
  : completion ParsedEvaluation :=
  let scoreMatch_ := scoreMatch evaluation in
  if is_some scoreMatch_ then
    bind (index1 scoreMatch_) (fun g =>
    Normal (set_score match g with
                      | Some s => parseFloat s
                      | None => NaN
                      end result))
  else Normal result.

(** Line 125, the condition [match && match[1] && match[1].trim()]: a part
    is evaluated only when the parts before it are truthy. *)
Definition guard (match_ : option found) : completion bool :=
  if is_some match_ then
    bind (index1 match_) (fun g =>
    if truthy g then
      bind (index1 match_) (fun g' =>
      bind (trim_of g') (fun t => Normal (nonempty t)))
    else Normal false)
  else Normal false.

(** Lines 123-207, the body of the [forEach] callback; an error thrown by
    one call ends the loop. *)
Definition extract_section (evaluation : jsstring)
  (before : completion ParsedEvaluation) (entry : key * RegExp)
  : completion ParsedEvaluation :=
  bind before (fun result =>
  let (k, regex) := entry in
  let match_ := exec regex evaluation in
  bind (guard match_) (fun passes =>
  if passes then
    bind (index1 match_) (fun g =>
    bind (trim_of g) (fun content =>
    Normal
      (if is_list_key k then set_list k (list_items content) result
       else match k with
            | followUp_key => set_text k (clean_followUp content) result
            | idealResponse_key =>
                set_text k (clean_idealResponse content) result
            | _ => set_text k content result
            end)))
  else Normal result)).

(** Lines 88-210. *)
Definition parseEvaluationResponse (evaluation : jsstring)
  : completion ParsedEvaluation :=
  fold_left (extract_section evaluation) sections
    (extract_score evaluation initial_result).

End Checked.

(** The headings that the patterns of lines 115-119 accept. *)
Definition headings (k : key) : list string :=
  match k with
  | strengths_key => ["Strengths"; "Strengths:"]
  | improvements_key =>
      ["Areas for Improvement"; "Improvements"; "Areas of Improvement"]
  | missedPoints_key =>
      ["Key Points Missed"; "Missed Points"; "Missed Opportunities"; "Key Points"]
  | followUp_key => ["Follow-up Question"; "Follow-up"]
  | idealResponse_key => ideal_headings
  end.

(** No heading of the section occurs in the text, in any case of letters. *)
Definition absent (k : key) (s : jsstring) : bool :=
  negb (existsb (fun w => mentions (js w) s) (headings k)).

(** The field of the section has its initial value. *)
Definition is_default (k : key) (r : ParsedEvaluation) : Prop :=
  match k with
  | strengths_key => strengths r = []
  | improvements_key => improvements r = []
  | missedPoints_key => missedPoints r = []
  | followUp_key => followUp r = []
  | idealResponse_key => idealResponse r = []
  end.

(** [s] is a bullet character, [n] or more characters of white space and
    then [r], which does not start with white space. *)
Definition after_marker (n : nat) (s r : jsstring) : Prop :=
  exists b sp, s = b :: sp ++ r
               /\ charset_mem bullets b = true
               /\ forallb is_space sp = true /\ (n <= length sp)%nat
               /\ starts_with_space r = false.

(** [r] is [s] without the bullet marker it starts with, and [s] itself
    when it starts with none. *)
Definition marker_stripped (n : nat) (s r : jsstring) : Prop :=
  after_marker n s r \/ (r = s /\ forall r', ~ after_marker n s r').

(** * Properties *)

(** ** The end-to-end scenarios *)

(** C1, as stated, fails: on the four-line scenario the strengths are not the
    two items "Clear explanation" and "Good example". *)
Lemma sample_strengths_not_split :
  strengths (parseEvaluationResponse sample)
  <> [js "Clear explanation"; js "Good example"].
Proof. vm_compute. discriminate. Qed.

(** C1 (amended): on the four-line scenario the parser returns score 4,
    improvements ["Could mention edge cases"], no missed points, the
    follow-up "What about concurrent writes?" and an empty ideal response;
    the strengths are one item, which ends with the text
    "Clear explanation - Good example": the two bullets share a line and
    are not split. *)
Theorem sample_parsed :
  let r := parseEvaluationResponse sample in
  score r = Num 4
  /\ (exists item, strengths r = [item]
                   /\ ends_with (js "Clear explanation - Good example") item)
  /\ improvements r = [js "Could mention edge cases"]
  /\ missedPoints r = []
  /\ followUp r = js "What about concurrent writes?"
  /\ idealResponse r = [].
Proof.
  cbv zeta. repeat split; try (vm_compute; reflexivity).
  exists (js ": - Clear explanation - Good example"). split.
  - vm_compute. reflexivity.
  - exists (js ": - "). reflexivity.
Qed.

(** C8: the empty text parses to the all-default record. *)
Theorem parse_empty_string :
  parseEvaluationResponse []
  = {| score := Num 0; strengths := []; improvements := []; missedPoints := [];
       followUp := []; idealResponse := [] |}.
Proof. vm_compute. reflexivity. Qed.

(** ** Section boundaries *)

(** C4: on "Strengths: good" followed by the line "Model Answer: x", the
    body captured for Strengths runs over the heading "Model Answer", which
    line 119 accepts as a heading of the later Ideal Response section but
    which is not among the stop words of line 115; the heading and its text
    then show up both as a strength and as the ideal response. *)
Theorem strengths_body_swallows_model_answer :
  section_content strengths_re strengths_then_model_answer
  = Some (unlines [": good"; "Model Answer: x"])
  /\ occurs_in (js "Model Answer") (unlines [": good"; "Model Answer: x"])
  /\ section_content idealResponse_re strengths_then_model_answer = Some (js "x")
  /\ strengths (parseEvaluationResponse strengths_then_model_answer)
     = [js ": good"; js "Model Answer: x"]
  /\ idealResponse (parseEvaluationResponse strengths_then_model_answer) = js "x".
Proof.
  split; [vm_compute; reflexivity|].
  split; [exists (js ": good" ++ [LF]), (js ": x"); reflexivity|].
  repeat split; vm_compute; reflexivity.
Qed.

(** ** The record, field by field *)

(** The record returned, field by field. *)
Lemma parse_fields (evaluation : jsstring) :
  parseEvaluationResponse evaluation
  = {| score :=
         match scoreMatch evaluation with
         | Some m => match f_group m with Some g => parseFloat g | None => NaN end
         | None => Num 0
         end;
       strengths :=
         match section_content strengths_re evaluation with
         | Some content => list_items content
         | None => []
         end;
       improvements :=
         match section_content improvements_re evaluation with
         | Some content => list_items content
         | None => []
         end;
       missedPoints :=
         match section_content missedPoints_re evaluation with
         | Some content => list_items content
         | None => []
         end;
       followUp :=
         match section_content followUp_re evaluation with
         | Some content => clean_followUp content
         | None => []
         end;
       idealResponse :=
         match section_content idealResponse_re evaluation with
         | Some content => clean_idealResponse content
         | None => []
         end |}.
Proof.
  unfold parseEvaluationResponse, sections, extract_score. cbn [fold_left].
  unfold extract_section.
  destruct (scoreMatch evaluation) as [m|]; [destruct (f_group m)|];
    destruct (section_content strengths_re evaluation);
    destruct (section_content improvements_re evaluation);
    destruct (section_content missedPoints_re evaluation);
    destruct (section_content followUp_re evaluation);
    destruct (section_content idealResponse_re evaluation);
    reflexivity.
Qed.


(** ** The score extractor *)

Lemma search_cons (re : RegExp) (p : list char) (c : char) (t : jsstring) :
  search re p (c :: t)
  = match match_here re p (c :: t) with
    | Some (m, g) =>
        Some {| f_before := rev p; f_text := m; f_group := g;
                f_after := skipn (length m) (c :: t) |}
    | None => search re (c :: p) t
    end.
Proof. reflexivity. Qed.

Lemma search_after_failures (re : RegExp) (before rest : jsstring) :
  forall p, attempts_fail re p before rest = true ->
  search re p (before ++ rest) = search re (rev before ++ p) rest.
Proof.
  induction before as [|c t IH]; intros p H.
  - reflexivity.
  - cbn [attempts_fail] in H.
    destruct (match_here re p ((c :: t) ++ rest)) eqn:E; [discriminate|].
    cbn [app] in *. rewrite search_cons, E, IH by exact H.
    cbn [rev]. now rewrite <- app_assoc.
Qed.

Lemma consumed_prefix (from to : mstate) (a : jsstring) :
  post from = a ++ post to -> consumed from to = a.
Proof.
  intros E. unfold consumed. rewrite E, length_app.
  replace (length a + length (post to) - length (post to))%nat with (length a) by lia.
  rewrite firstn_app, Nat.sub_diag, firstn_all. simpl. apply app_nil_r.
Qed.

Local Arguments is_digit !c /.
Local Arguments is_space !c /.
Local Arguments is_line_terminator !c /.
Local Arguments canonicalize !c /.
Local Arguments consumed : simpl never.

(** The attempt at an occurrence of "Score: 4.5" that no digit follows. *)
Lemma score_label_here (p after : jsstring) :
  starts_with_digit after = false ->
  match_here re_score_label p (js "Score: 4.5" ++ after)
  = Some (js "Score: 4.5", Some (js "4.5")).
Proof.
  intros H. unfold match_here.
  destruct after as [|c t]; cbn in H |- *; [|rewrite H; cbn];
    rewrite (consumed_prefix _ _ (js "Score: 4.5")) by reflexivity;
    rewrite (consumed_prefix _ _ (js "4.5")) by reflexivity; reflexivity.
Qed.

(** The attempt at an occurrence of "3/5". *)
Lemma score_of_five_here (p after : jsstring) :
  match_here re_score_of_five p (js "3/5" ++ after)
  = Some (js "3/5", Some (js "3")).
Proof.
  unfold match_here. cbn.
  rewrite (consumed_prefix _ _ (js "3/5")) by reflexivity.
  rewrite (consumed_prefix _ _ (js "3")) by reflexivity. reflexivity.
Qed.

Lemma search_found_here (re : RegExp) (p q m : jsstring) (g : option jsstring) :
  match_here re p q = Some (m, g) ->
  search re p q
  = Some {| f_before := rev p; f_text := m; f_group := g;
            f_after := skipn (length m) q |}.
Proof. intros E. destruct q; cbn [search]; rewrite E; reflexivity. Qed.

(** Two inputs on which the "in particular" of C3 fails: an earlier score
    label wins over a later "Score: 4.5", and the digits before "3/5" belong
    to the number. *)
Lemma score_not_of_every_occurrence :
  (occurs_in (js "Score: 4.5") (js "Score: 1, then Score: 4.5")
   /\ score (parseEvaluationResponse (js "Score: 1, then Score: 4.5")) = Num 1)
  /\ (occurs_in (js "3/5") (js "13/5")
      /\ exec re_score_label (js "13/5") = None
      /\ score (parseEvaluationResponse (js "13/5")) = Num 13).
Proof.
  split; split.
  - exists (js "Score: 1, then "), []. reflexivity.
  - vm_compute. reflexivity.
  - exists (js "1"), []. reflexivity.
  - split; vm_compute; reflexivity.
Qed.

(** C3 (amended): the score is taken from the leftmost match of the "Score"
    pattern, and from the leftmost match of the number-over-five pattern
    only when the "Score" pattern matches nowhere; both are matched without
    regard to case.  In particular the score is 4.5 for every input whose
    leftmost "Score" match is at an occurrence of "Score: 4.5" that no digit
    follows, and 3 for every input without a "Score" match whose leftmost
    number-over-five match is at an occurrence of "3/5". *)
Theorem score_from_leftmost_match :
  (forall evaluation,
      scoreMatch evaluation
      = match exec re_score_label evaluation with
        | Some m => Some m
        | None => exec re_score_of_five evaluation
        end)
  /\ (forall before after,
         attempts_fail re_score_label [] before (js "Score: 4.5" ++ after) = true ->
         starts_with_digit after = false ->
         score (parseEvaluationResponse (before ++ js "Score: 4.5" ++ after))
         = Num (9 # 2))
  /\ (forall before after,
         exec re_score_label (before ++ js "3/5" ++ after) = None ->
         attempts_fail re_score_of_five [] before (js "3/5" ++ after) = true ->
         score (parseEvaluationResponse (before ++ js "3/5" ++ after)) = Num 3)
  /\ score (parseEvaluationResponse (js "my SCORE 2")) = Num 2.
Proof.
  split; [reflexivity|]. split; [|split].
  - intros before after Hf Hd. rewrite parse_fields. cbn [score].
    unfold scoreMatch, exec.
    rewrite (search_after_failures _ _ _ _ Hf).
    rewrite (search_found_here _ _ _ _ _ (score_label_here _ _ Hd)).
    cbn [f_group]. vm_compute. reflexivity.
  - intros before after Hn Hf. rewrite parse_fields. cbn [score].
    unfold scoreMatch. rewrite Hn. unfold exec.
    rewrite (search_after_failures _ _ _ _ Hf).
    rewrite (search_found_here _ _ _ _ _ (score_of_five_here _ _)).
    cbn [f_group]. vm_compute. reflexivity.
  - vm_compute. reflexivity.
Qed.

Lemma score_from_leftmost_match_witness :
  score (parseEvaluationResponse (js "Overall Score: 4.5 out of 5")) = Num (9 # 2)
  /\ score (parseEvaluationResponse (js "I would give this 3/5.")) = Num 3.
Proof.
  destruct score_from_leftmost_match as (_ & Hlabel & Hfive & _). split.
  - apply (Hlabel (js "Overall ") (js " out of 5")); vm_compute; reflexivity.
  - apply (Hfive (js "I would give this ") (js ".")); vm_compute; reflexivity.
Defined.

(** ** The post-filter and the fallback *)

Lemma post_filter_app (a b : list jsstring) :
  post_filter (a ++ b) = post_filter a ++ post_filter b.
Proof. unfold post_filter. now rewrite !filter_app. Qed.

Lemma lone_bullet_not_at_start (q p : jsstring) :
  p <> [] -> search re_lone_bullet p q = None.
Proof.
  revert p. induction q as [|c t IH]; intros p Hp;
    (destruct p as [|x p]; [congruence|]).
  - reflexivity.
  - rewrite search_cons. cbn [match_here re_lone_bullet]. cbn.
    apply IH. discriminate.
Qed.

(** The test of line 168 holds exactly of a text that is one bullet
    character. *)
Lemma lone_bullet_test (s : jsstring) :
  test re_lone_bullet s = true
  <-> exists c, s = [c] /\ charset_mem bullets c = true.
Proof.
  unfold test, exec. destruct s as [|c t].
  - cbn. split; [discriminate|]. intros (c & E & _). discriminate.
  - rewrite search_cons. unfold match_here. cbn -[charset_mem bullets].
    destruct (charset_mem bullets c) eqn:Hc; cycle 1.
    + rewrite lone_bullet_not_at_start by discriminate.
      split; [discriminate|]. intros (c' & E & Hc'). inversion E; subst. congruence.
    + destruct t as [|d t].
      * cbn. split; [|reflexivity]. intros _. now exists c.
      * cbn. rewrite lone_bullet_not_at_start by discriminate.
        split; [discriminate|]. intros (c' & E & _). discriminate.
Qed.

Lemma list_items_cases (content : jsstring) :
  let kept := post_filter (split_points (cleanedContent content)) in
  list_items content
  = match kept with
    | [] => [replace re_bullet_marker [] (cleanedContent content)]
    | _ :: _ => kept
    end.
Proof.
  unfold list_items. cbv zeta.
  destruct (post_filter (split_points (cleanedContent content))); reflexivity.
Qed.

Lemma list_items_nonempty (content : jsstring) : list_items content <> [].
Proof.
  rewrite list_items_cases. cbv zeta.
  destruct (post_filter (split_points (cleanedContent content))); discriminate.
Qed.

Lemma list_section_field (evaluation : jsstring) (k : key) (re : RegExp)
  (content : jsstring) :
  In (k, re) sections -> is_list_key k = true ->
  section_content re evaluation = Some content ->
  list_field k (parseEvaluationResponse evaluation) = list_items content.
Proof.
  intros Hin Hk Hc. rewrite parse_fields.
  unfold sections in Hin. simpl in Hin.
  destruct Hin as [E|[E|[E|[E|[E|[]]]]]]; inversion E; subst; simpl in *;
    try discriminate; now rewrite Hc.
Qed.


(** ** The list segmenter on three bulleted lines *)

(** C2 fails on its own input, by two defects of the segmenter.  Line 133
    strips the marker of the first line before the items are looked for, so
    the first line is no bullet item for the pattern of line 140 and is
    lost.  And every match starts with its line feed, so the marker rule of
    line 147, applied before the line feeds are removed in line 149, finds
    no marker at the start and removes nothing.  The three bulleted lines
    give ["- b"; "- c"] and not ["a"; "b"; "c"]; longer items fare the same,
    so the filter on the length (line 167) is not the cause.  The three
    lines are the capture of the section in "Improvements:\n- a\n- b\n- c",
    and that is the list returned for it. *)
Theorem three_bullets_first_lost_markers_kept :
  cleanedContent three_bullets = unlines ["a"; "- b"; "- c"]
  /\ bulletMatch (cleanedContent three_bullets)
     = Some [LF :: js "- b"; LF :: js "- c"]
  /\ map clean_match [LF :: js "- b"; LF :: js "- c"] = [js "- b"; js "- c"]
  /\ list_items three_bullets = [js "- b"; js "- c"]
  /\ list_items three_bullets <> [js "a"; js "b"; js "c"]
  /\ list_items (unlines ["- alpha"; "- beta"; "- gamma"])
     = [js "- beta"; js "- gamma"]
  /\ section_content improvements_re (unlines ["Improvements:"; "- a"; "- b"; "- c"])
     = Some three_bullets
  /\ improvements
       (parseEvaluationResponse (unlines ["Improvements:"; "- a"; "- b"; "- c"]))
     = [js "- b"; js "- c"].
Proof.
  split; [vm_compute; reflexivity|]. split; [vm_compute; reflexivity|].
  split; [vm_compute; reflexivity|]. split; [vm_compute; reflexivity|].
  split; [vm_compute; discriminate|]. split; [vm_compute; reflexivity|].
  split; vm_compute; reflexivity.
Qed.

(** ** Mixed bulleted and numbered lists *)

(** C10, as stated, fails: both kinds of items are matched, but the
    one-character bullet item is dropped by the post-filter, so the result
    is not all bullet items followed by all numbered items. *)
Lemma mixed_list_item_dropped :
  bulletMatch (cleanedContent bullet_then_number) = Some [js "- A"]
  /\ numberedMatch (cleanedContent bullet_then_number) = Some [LF :: js "1. Bee"]
  /\ list_items bullet_then_number
     <> map clean_match [js "- A"] ++ map clean_match [LF :: js "1. Bee"].
Proof.
  split; [vm_compute; reflexivity|]. split; [vm_compute; reflexivity|].
  vm_compute. discriminate.
Qed.

(** C10 (amended): when the cleaned content of a list section has both
    bullet-prefixed and number-prefixed items, the result is the
    bullet-matched items that pass the post-filter, in their order of
    appearance, followed by the number-matched items that pass it, in their
    order of appearance (and the single fallback item when none passes); a
    mixed list is therefore not returned in document order. *)
Theorem mixed_list_bullets_first (content : jsstring) (bs ns : list jsstring) :
  bulletMatch (cleanedContent content) = Some bs ->
  numberedMatch (cleanedContent content) = Some ns ->
  list_items content
  = match post_filter (map clean_match bs) ++ post_filter (map clean_match ns) with
    | [] => [replace re_bullet_marker [] (cleanedContent content)]
    | kept => kept
    end.
Proof.
  intros Hb Hn. rewrite list_items_cases. cbv zeta.
  unfold split_points. rewrite Hb, Hn. simpl orb. cbv iota.
  unfold or_empty. rewrite map_app, post_filter_app.
  destruct (post_filter (map clean_match bs) ++ post_filter (map clean_match ns));
    reflexivity.
Qed.

Lemma mixed_list_bullets_first_witness :
  bulletMatch (cleanedContent number_then_bullet) = Some [LF :: js "- second"]
  /\ numberedMatch (cleanedContent number_then_bullet) = Some [LF :: js "1. first"]
  /\ list_items number_then_bullet = [js "- second"; js "1. first"].
Proof.
  assert (Hb : bulletMatch (cleanedContent number_then_bullet)
               = Some [LF :: js "- second"]) by (vm_compute; reflexivity).
  assert (Hn : numberedMatch (cleanedContent number_then_bullet)
               = Some [LF :: js "1. first"]) by (vm_compute; reflexivity).
  split; [exact Hb|]. split; [exact Hn|].
  rewrite (mixed_list_bullets_first number_then_bullet _ _ Hb Hn).
  vm_compute. reflexivity.
Defined.

(** ** Global replacement *)

Lemma scan_replace_skip (re : RegExp) (by_ : jsstring) (k : nat) :
  forall (q p : list char), (k <= length q)%nat ->
  scan_replace re by_ p k q
  = scan_replace re by_ (rev (firstn k q) ++ p) 0 (skipn k q).
Proof.
  induction k as [|k IH]; intros q p Hk.
  - reflexivity.
  - destruct q as [|c t]; [simpl in Hk; lia|].
    cbn [scan_replace firstn skipn rev]. rewrite IH by (simpl in Hk; lia).
    now rewrite <- app_assoc.
Qed.

Lemma scan_replace_match (re : RegExp) (by_ p m rest : jsstring)
  (g : option jsstring) :
  match_here re p (m ++ rest) = Some (m, g) -> m <> [] ->
  scan_replace re by_ p 0 (m ++ rest)
  = by_ ++ scan_replace re by_ (rev m ++ p) 0 rest.
Proof.
  intros E Hm. destruct m as [|c m']; [congruence|].
  cbn [app] in *. cbn [scan_replace]. rewrite E.
  rewrite scan_replace_skip by (rewrite length_app; lia).
  rewrite firstn_app, Nat.sub_diag, firstn_all, skipn_app, Nat.sub_diag, skipn_all.
  cbn [firstn skipn app rev]. now rewrite app_nil_r, <- app_assoc.
Qed.

Lemma scan_replace_no_match (re : RegExp) (by_ p : jsstring) (c : char)
  (t : jsstring) :
  match_here re p (c :: t) = None ->
  scan_replace re by_ p 0 (c :: t) = c :: scan_replace re by_ (c :: p) 0 t.
Proof. intros E. cbn [scan_replace]. now rewrite E. Qed.

Lemma scan_replace_end (re : RegExp) (by_ p : jsstring) :
  match_here re p [] = None -> scan_replace re by_ p 0 [] = [].
Proof. intros E. cbn [scan_replace]. now rewrite E. Qed.

(** *** Stray backticks, line 198 *)

Lemma stray_not_bol (p q : jsstring) :
  bol p = false -> match_here re_stray_backticks p q = None.
Proof.
  intros H. unfold match_here. destruct p as [|c p]; [discriminate|].
  cbn in H |- *. now rewrite H.
Qed.
Local Arguments N.eqb : simpl nomatch.
Local Arguments N.leb : simpl nomatch.

Lemma stray_here (p q : jsstring) :
  match_here re_stray_backticks p q
  = if bol p
    then match stray_run q with
         | Some n => Some (firstn n q, None)
         | None => None
         end
    else None.
Proof.
  destruct (bol p) eqn:Hb; [|now apply stray_not_bol].
  unfold match_here, stray_run, starts_with_backtick, is_backtick.
  destruct p as [|x p]; cbn in Hb; cbn; try rewrite Hb;
    (destruct q as [|c [|d [|e t]]]; cbn; [reflexivity|..];
     repeat match goal with
       | |- context [?a =? backtick] => destruct (a =? backtick) eqn:?; cbn
       end;
     try reflexivity).
  all: try (rewrite (consumed_prefix _ _ [c]) by reflexivity; reflexivity).
  all: try (rewrite (consumed_prefix _ _ [c; d]) by reflexivity; reflexivity).
Qed.

Lemma is_backtick_eq (c : char) : is_backtick c = true -> c = backtick.
Proof. apply N.eqb_eq. Qed.

Lemma scan_strip_stray (n : nat) :
  forall (q p : jsstring), (length q <= n)%nat ->
  scan_replace re_stray_backticks [] p 0 q = strip_stray (bol p) q.
Proof.
  induction n as [|n IH]; intros q p Hn.
  - destruct q; [|simpl in Hn; lia].
    rewrite scan_replace_end; [reflexivity|].
    rewrite stray_here. now destruct (bol p).
  - destruct q as [|c t].
    + rewrite scan_replace_end; [reflexivity|].
      rewrite stray_here. now destruct (bol p).
    + cbn [length] in Hn. cbn [strip_stray].
      destruct (bol p && is_backtick c) eqn:Hbc.
      * apply andb_true_iff in Hbc. destruct Hbc as [Hb Hc].
        apply is_backtick_eq in Hc. subst c.
        destruct t as [|d t'].
        { rewrite (scan_replace_match _ _ _ [backtick] [] None);
            [|rewrite stray_here, Hb; reflexivity|discriminate].
          rewrite scan_replace_end; [reflexivity|]. now apply stray_not_bol. }
        destruct (is_backtick d) eqn:Hd.
        { apply is_backtick_eq in Hd. subst d. destruct t' as [|e t''].
          - rewrite (scan_replace_match _ _ _ [backtick; backtick] [] None);
              [|rewrite stray_here, Hb; reflexivity|discriminate].
            rewrite scan_replace_end; [reflexivity|]. now apply stray_not_bol.
          - destruct (is_backtick e) eqn:He.
            + rewrite scan_replace_no_match.
              * rewrite IH by (cbn [length] in *; lia). reflexivity.
              * rewrite stray_here, Hb. cbn. now rewrite He.
            + rewrite (scan_replace_match _ _ _ [backtick; backtick] (e :: t'') None);
                [|rewrite stray_here, Hb; cbn; rewrite He; reflexivity|discriminate].
              rewrite IH by (cbn [length] in *; lia). reflexivity. }
        rewrite (scan_replace_match _ _ _ [backtick] (d :: t') None);
          [|rewrite stray_here, Hb; cbn; rewrite Hd; reflexivity|discriminate].
        rewrite IH by (cbn [length] in *; lia). reflexivity.
      * rewrite scan_replace_no_match.
        -- rewrite IH by lia. reflexivity.
        -- rewrite stray_here. destruct (bol p); [|reflexivity].
           cbn in Hbc. cbn. now rewrite Hbc.
Qed.

Local Arguments is_backtick !c /.

Lemma strip_stray_idempotent (n : nat) :
  forall (q : jsstring) (b : bool), (length q <= n)%nat ->
  strip_stray b (strip_stray b q) = strip_stray b q.
Proof.
  induction n as [|n IH]; intros q b Hn.
  - destruct q; [reflexivity|simpl in Hn; lia].
  - destruct q as [|c t]; [reflexivity|]. cbn [length] in Hn.
    cbn [strip_stray]. destruct (b && is_backtick c) eqn:Hbc.
    + apply andb_true_iff in Hbc. destruct Hbc as [Hb Hc]. subst b.
      apply is_backtick_eq in Hc. subst c.
      destruct t as [|d t']; [reflexivity|].
      destruct (is_backtick d) eqn:Hd.
      * apply is_backtick_eq in Hd. subst d.
        destruct t' as [|e t'']; [reflexivity|].
        destruct (is_backtick e) eqn:He.
        -- apply is_backtick_eq in He. subst e. cbn.
           do 3 f_equal. apply IH. cbn [length] in Hn. lia.
        -- cbn [strip_stray andb]. rewrite He.
           f_equal. apply IH. cbn [length] in Hn. lia.
      * cbn [strip_stray andb]. rewrite Hd.
        f_equal. apply IH. cbn [length] in Hn. lia.
    + cbn [strip_stray]. rewrite Hbc. f_equal. apply IH. lia.
Qed.

(** *** Fences without a language, line 193 *)

Lemma not_space_not_lf (c : char) : is_space c = false -> (c =? LF) = false.
Proof.
  intros H. destruct (N.eqb_spec c LF) as [E|]; [|reflexivity].
  subst c. discriminate H.
Qed.

Lemma spaces_then_lf (x : jsstring) :
  forall (p : list char) (g : option jsstring),
  match_rep true CSpace 0 None g (fun st' => match_lit no_flags [LF] st' Some) p x
  = match spaces_to_lf x with
    | Some n => Some {| pre := rev (firstn n x) ++ p; post := skipn n x; cap := g |}
    | None => None
    end.
Proof.
  induction x as [|c t IH]; intros p g.
  - reflexivity.
  - cbn [match_rep spaces_to_lf charset_mem below]. rewrite andb_true_r.
    destruct (is_space c) eqn:Hs.
    + cbn [dec]. rewrite IH. destruct (spaces_to_lf t) as [n|].
      * cbn [firstn skipn rev]. now rewrite <- app_assoc.
      * cbn. destruct (c =? LF); reflexivity.
    + cbn. now rewrite (not_space_not_lf _ Hs).
Qed.

Lemma bare_fence_here (p q : jsstring) :
  match_here re_bare_fence p q
  = match bare_fence_len q with
    | Some n => Some (firstn n q, None)
    | None => None
    end.
Proof.
  unfold match_here, bare_fence_len, is_backtick.
  destruct q as [|c [|d [|e x]]]; cbn -[spaces_to_lf];
    repeat match goal with
      | |- context [?a =? backtick] =>
          destruct (a =? backtick) eqn:?; cbn -[spaces_to_lf]
      end; try reflexivity.
  change (match_rep true CSpace 0 None None ?k ?p x)
    with (match_rep true CSpace 0 None None
            (fun st' => match_lit no_flags [LF] st' Some) p x).
  rewrite spaces_then_lf. destruct (spaces_to_lf x) as [n|]; [|reflexivity].
  f_equal. f_equal. apply consumed_prefix. cbn [post].
  symmetry. apply (firstn_skipn (3 + n) (c :: d :: e :: x)).
Qed.

Lemma tag_end (p : jsstring) : scan_replace re_bare_fence python_fence p 0 [] = [].
Proof. apply scan_replace_end. now rewrite bare_fence_here. Qed.

Lemma tag_no_match (p : jsstring) (c : char) (t : jsstring) :
  bare_fence_len (c :: t) = None ->
  scan_replace re_bare_fence python_fence p 0 (c :: t)
  = c :: scan_replace re_bare_fence python_fence (c :: p) 0 t.
Proof.
  intros E. apply scan_replace_no_match. now rewrite bare_fence_here, E.
Qed.

Lemma bare_fence_len_bounds (q : jsstring) (n : nat) :
  bare_fence_len q = Some n -> (3 <= n <= length q)%nat.
Proof.
  unfold bare_fence_len. destruct q as [|c [|d [|e x]]]; try discriminate.
  destruct (is_backtick c && is_backtick d && is_backtick e); [|discriminate].
  destruct (spaces_to_lf x) as [k|] eqn:E; [|discriminate].
  intros H. inversion H; subst. cbn [length].
  enough (k <= length x)%nat by lia.
  clear -E. revert k E. induction x as [|c t IH]; intros k E; [discriminate|].
  cbn in E. destruct (is_space c); [|discriminate].
  destruct (spaces_to_lf t) as [j|].
  - inversion E; subst. specialize (IH j eq_refl). cbn [length]. lia.
  - destruct (c =? LF); inversion E; subst. cbn [length]. lia.
Qed.

Lemma tag_match (p q : jsstring) (n : nat) :
  bare_fence_len q = Some n ->
  scan_replace re_bare_fence python_fence p 0 q
  = python_fence
    ++ scan_replace re_bare_fence python_fence (rev (firstn n q) ++ p) 0 (skipn n q).
Proof.
  intros E. pose proof (bare_fence_len_bounds _ _ E) as Hn.
  rewrite <- (firstn_skipn n q) at 1.
  apply scan_replace_match with (g := None).
  - rewrite firstn_skipn, bare_fence_here, E. reflexivity.
  - intros H. apply (f_equal (@length _)) in H.
    rewrite length_firstn in H. simpl in H. lia.
Qed.

Lemma space_not_backtick (c : char) : is_space c = true -> is_backtick c = false.
Proof.
  intros H. destruct (is_backtick c) eqn:E; [|reflexivity].
  apply is_backtick_eq in E. subst c. discriminate H.
Qed.

Lemma bare_fence_len_head (c : char) (y : jsstring) :
  is_backtick c = false -> bare_fence_len (c :: y) = None.
Proof.
  intros H. unfold bare_fence_len. destruct y as [|d [|e x]]; try reflexivity.
  now rewrite H.
Qed.

Lemma bare_fence_len_second (c d : char) (y : jsstring) :
  is_backtick d = false -> bare_fence_len (c :: d :: y) = None.
Proof.
  intros H. unfold bare_fence_len. destruct y as [|e x]; try reflexivity.
  now rewrite H, andb_false_r.
Qed.

(** No match starts inside the replacement text. *)
Lemma tag_through_python_fence (p y : jsstring) :
  scan_replace re_bare_fence python_fence p 0 (python_fence ++ y)
  = python_fence
    ++ scan_replace re_bare_fence python_fence (rev python_fence ++ p) 0 y.
Proof.
  unfold python_fence, fence. cbn [app js map list_ascii_of_string].
  do 10 (rewrite tag_no_match
           by first [reflexivity | apply bare_fence_len_head; reflexivity]).
  reflexivity.
Qed.

Lemma spaces_to_lf_head (c : char) (y : jsstring) :
  is_space c = false -> spaces_to_lf (c :: y) = None.
Proof. intros H. cbn. now rewrite H. Qed.

(** Rewriting the text after a run of white space does not bring a line feed
    into the run. *)
Lemma spaces_to_lf_tagged (x : jsstring) :
  spaces_to_lf x = None ->
  forall p, spaces_to_lf (scan_replace re_bare_fence python_fence p 0 x) = None.
Proof.
  induction x as [|w x IH]; intros H p.
  - now rewrite tag_end.
  - destruct (is_space w) eqn:Hw.
    + rewrite tag_no_match
        by (apply bare_fence_len_head; now apply space_not_backtick).
      cbn [spaces_to_lf] in H |- *. rewrite Hw in H |- *.
      destruct (spaces_to_lf x); [discriminate|].
      rewrite IH by reflexivity. exact H.
    + destruct (bare_fence_len (w :: x)) as [n|] eqn:E.
      * rewrite (tag_match _ _ _ E). reflexivity.
      * rewrite tag_no_match by exact E. now apply spaces_to_lf_head.
Qed.

(** A position without a match stays without one when the text after it is
    rewritten. *)
Lemma bare_fence_len_tagged (c : char) (t : jsstring) :
  bare_fence_len (c :: t) = None ->
  forall p, bare_fence_len (c :: scan_replace re_bare_fence python_fence p 0 t)
            = None.
Proof.
  intros H p.
  destruct (is_backtick c) eqn:Hc; [|now apply bare_fence_len_head].
  destruct t as [|d t1]; [now rewrite tag_end|].
  destruct (bare_fence_len (d :: t1)) as [n|] eqn:E1.
  { rewrite (tag_match _ _ _ E1). cbn.
    destruct (is_backtick c && true && true); reflexivity. }
  rewrite tag_no_match by exact E1.
  destruct (is_backtick d) eqn:Hd; [|now apply bare_fence_len_second].
  destruct t1 as [|e t2]; [now rewrite tag_end|].
  destruct (bare_fence_len (e :: t2)) as [n|] eqn:E2.
  { rewrite (tag_match _ _ _ E2). cbn.
    destruct (is_backtick c && is_backtick d && true); reflexivity. }
  rewrite tag_no_match by exact E2.
  cbn [bare_fence_len] in H |- *.
  destruct (is_backtick c && is_backtick d && is_backtick e); [|reflexivity].
  destruct (spaces_to_lf t2) eqn:E3; [discriminate|].
  now rewrite spaces_to_lf_tagged.
Qed.

Lemma tag_idempotent (n : nat) :
  forall (q p p' : jsstring), (length q <= n)%nat ->
  scan_replace re_bare_fence python_fence p' 0
    (scan_replace re_bare_fence python_fence p 0 q)
  = scan_replace re_bare_fence python_fence p 0 q.
Proof.
  induction n as [|n IH]; intros q p p' Hn.
  - destruct q; [|simpl in Hn; lia]. now rewrite !tag_end.
  - destruct q as [|c t]; [now rewrite !tag_end|].
    destruct (bare_fence_len (c :: t)) as [k|] eqn:E.
    + pose proof (bare_fence_len_bounds _ _ E) as Hk.
      rewrite (tag_match _ _ _ E), tag_through_python_fence.
      f_equal. apply IH. rewrite length_skipn. cbn [length] in *. lia.
    + rewrite tag_no_match by exact E.
      rewrite tag_no_match by (now apply bare_fence_len_tagged).
      f_equal. apply IH. cbn [length] in Hn. lia.
Qed.

(** *** Lone fences, line 197 *)

Lemma line_terminator_is_space (c : char) :
  is_line_terminator c = true -> is_space c = true.
Proof.
  unfold is_line_terminator, is_space. intros H.
  repeat (apply orb_true_iff in H; destruct H as [H|H]);
    apply N.eqb_eq in H; subst c; reflexivity.
Qed.

Lemma not_space_not_line_terminator (c : char) :
  is_space c = false -> is_line_terminator c = false.
Proof.
  intros H. destruct (is_line_terminator c) eqn:E; [|reflexivity].
  apply line_terminator_is_space in E. congruence.
Qed.

Lemma spaces_then_eol (x : jsstring) :
  forall (p : list char) (g : option jsstring),
  match_rep true CSpace 0 None g (fun st' => rmatch flag_m Eol st' Some) p x
  = match spaces_to_eol x with
    | Some n => Some {| pre := rev (firstn n x) ++ p; post := skipn n x; cap := g |}
    | None => None
    end.
Proof.
  induction x as [|c t IH]; intros p g.
  - reflexivity.
  - cbn [match_rep spaces_to_eol charset_mem below]. rewrite andb_true_r.
    destruct (is_space c) eqn:Hs.
    + cbn [dec]. rewrite IH. destruct (spaces_to_eol t) as [n|].
      * cbn [firstn skipn rev]. now rewrite <- app_assoc.
      * cbn. destruct (is_line_terminator c); reflexivity.
    + cbn. now rewrite (not_space_not_line_terminator _ Hs).
Qed.

Lemma lone_fence_not_bol (p q : jsstring) :
  bol p = false -> match_here re_lone_fence p q = None.
Proof.
  intros H. unfold match_here. destruct p as [|c p]; [discriminate|].
  cbn in H |- *. now rewrite H.
Qed.

Lemma lone_fence_here (p q : jsstring) :
  match_here re_lone_fence p q
  = if bol p
    then match lone_fence_len q with
         | Some n => Some (firstn n q, None)
         | None => None
         end
    else None.
Proof.
  destruct (bol p) eqn:Hb; [|now apply lone_fence_not_bol].
  unfold match_here, lone_fence_len, is_backtick.
  destruct p as [|y p]; cbn in Hb; cbn -[spaces_to_eol]; try rewrite Hb;
    (destruct q as [|c [|d [|e x]]]; cbn -[spaces_to_eol];
     repeat match goal with
       | |- context [?a =? backtick] =>
           destruct (a =? backtick) eqn:?; cbn -[spaces_to_eol]
       end; try reflexivity).
  all: change (match_rep true CSpace 0 None None ?k ?p x)
         with (match_rep true CSpace 0 None None
                 (fun st' => rmatch flag_m Eol st' Some) p x);
       rewrite spaces_then_eol; destruct (spaces_to_eol x) as [n|];
       [|reflexivity];
       f_equal; f_equal; apply consumed_prefix; cbn [post];
       symmetry; apply (firstn_skipn (3 + n) (c :: d :: e :: x)).
Qed.

Lemma lone_end (p : jsstring) : scan_replace re_lone_fence fence p 0 [] = [].
Proof.
  apply scan_replace_end. rewrite lone_fence_here. now destruct (bol p).
Qed.

Lemma lone_no_match (p : jsstring) (c : char) (t : jsstring) :
  bol p = false \/ lone_fence_len (c :: t) = None ->
  scan_replace re_lone_fence fence p 0 (c :: t)
  = c :: scan_replace re_lone_fence fence (c :: p) 0 t.
Proof.
  intros H. apply scan_replace_no_match. rewrite lone_fence_here.
  destruct H as [H|H]; rewrite H; [reflexivity|]. now destruct (bol p).
Qed.

Lemma spaces_to_eol_rest (x : jsstring) :
  forall j, spaces_to_eol x = Some j ->
  (j <= length x)%nat
  /\ (skipn j x = []
      \/ exists l x3, skipn j x = l :: x3 /\ is_line_terminator l = true
                      /\ spaces_to_eol x3 = None).
Proof.
  induction x as [|c t IH]; intros j E.
  - inversion E; subst. split; [simpl; lia|]. now left.
  - cbn [spaces_to_eol] in E. destruct (is_space c); [|discriminate].
    destruct (spaces_to_eol t) as [n|] eqn:Et.
    + inversion E; subst. destruct (IH n eq_refl) as [Hn Hr].
      split; [simpl; lia|]. exact Hr.
    + destruct (is_line_terminator c) eqn:Hl; inversion E; subst.
      split; [simpl; lia|]. right. exists c, t. now repeat split.
Qed.

Lemma lone_fence_len_shape (q : jsstring) (n : nat) :
  lone_fence_len q = Some n ->
  exists x j, q = fence ++ x /\ n = (3 + j)%nat /\ spaces_to_eol x = Some j.
Proof.
  unfold lone_fence_len. destruct q as [|c [|d [|e x]]]; try discriminate.
  destruct (is_backtick c) eqn:Hc; [|discriminate].
  destruct (is_backtick d) eqn:Hd; [|discriminate].
  destruct (is_backtick e) eqn:He; [|discriminate].
  cbn [andb]. destruct (spaces_to_eol x) as [j|] eqn:E; [|discriminate].
  intros H. inversion H; subst.
  apply is_backtick_eq in Hc, Hd, He. subst. now exists x, j.
Qed.

Lemma lone_match (p x : jsstring) (j : nat) :
  bol p = true -> spaces_to_eol x = Some j ->
  scan_replace re_lone_fence fence p 0 (fence ++ x)
  = fence
    ++ scan_replace re_lone_fence fence (rev (fence ++ firstn j x) ++ p) 0
         (skipn j x).
Proof.
  intros Hb E.
  rewrite <- (firstn_skipn j x) at 1. rewrite app_assoc.
  apply scan_replace_match with (g := None).
  - rewrite <- app_assoc, firstn_skipn, lone_fence_here, Hb.
    unfold fence. cbn [app lone_fence_len]. cbn [is_backtick backtick].
    change (is_backtick backtick) with true. cbn [andb]. rewrite E.
    reflexivity.
  - discriminate.
Qed.

Lemma lone_fence_len_head (c : char) (y : jsstring) :
  is_backtick c = false -> lone_fence_len (c :: y) = None.
Proof.
  intros H. unfold lone_fence_len. destruct y as [|d [|e x]]; try reflexivity.
  now rewrite H.
Qed.

Lemma spaces_to_eol_head (c : char) (y : jsstring) :
  is_space c = false -> spaces_to_eol (c :: y) = None.
Proof. intros H. cbn. now rewrite H. Qed.

(** Rewriting the text after a run of white space does not bring the end of
    a line into the run. *)
Lemma spaces_to_eol_normalized (x : jsstring) :
  spaces_to_eol x = None ->
  forall p, spaces_to_eol (scan_replace re_lone_fence fence p 0 x) = None.
Proof.
  induction x as [|w x IH]; intros H p.
  - discriminate.
  - destruct (is_space w) eqn:Hw.
    + rewrite lone_no_match
        by (right; apply lone_fence_len_head; now apply space_not_backtick).
      cbn [spaces_to_eol] in H |- *. rewrite Hw in H |- *.
      destruct (spaces_to_eol x); [discriminate|].
      rewrite IH by reflexivity. exact H.
    + destruct (bol p) eqn:Hb.
      * destruct (lone_fence_len (w :: x)) as [n|] eqn:E.
        -- destruct (lone_fence_len_shape _ _ E) as (y & j & Eq & _ & Ej).
           rewrite Eq, (lone_match _ _ _ Hb Ej). reflexivity.
        -- rewrite lone_no_match by (now right). now apply spaces_to_eol_head.
      * rewrite lone_no_match by (now left). now apply spaces_to_eol_head.
Qed.

(** A fence that is not alone on its line stays so when the text after it is
    rewritten. *)
Lemma lone_fence_len_normalized (c : char) (t p : jsstring) :
  lone_fence_len (c :: t) = None ->
  lone_fence_len (c :: scan_replace re_lone_fence fence (c :: p) 0 t) = None.
Proof.
  intros H.
  destruct (is_backtick c) eqn:Hc; [|now apply lone_fence_len_head].
  apply is_backtick_eq in Hc. subst c.
  destruct t as [|d t1]; [now rewrite lone_end|].
  rewrite lone_no_match by (now left).
  destruct (is_backtick d) eqn:Hd.
  2:{ unfold lone_fence_len.
      destruct (scan_replace _ _ _ _ _); [reflexivity|].
      now rewrite Hd, andb_false_r. }
  apply is_backtick_eq in Hd. subst d.
  destruct t1 as [|e t2]; [now rewrite lone_end|].
  rewrite lone_no_match by (now left).
  cbn [lone_fence_len] in H |- *.
  destruct (is_backtick backtick && is_backtick backtick && is_backtick e);
    [|reflexivity].
  destruct (spaces_to_eol t2) eqn:E3; [discriminate|].
  now rewrite spaces_to_eol_normalized.
Qed.

Lemma lone_idempotent (n : nat) :
  forall (q p p' : jsstring), (length q <= n)%nat -> bol p = bol p' ->
  scan_replace re_lone_fence fence p' 0 (scan_replace re_lone_fence fence p 0 q)
  = scan_replace re_lone_fence fence p 0 q.
Proof.
  induction n as [|n IH]; intros q p p' Hn Hb.
  - destruct q; [|simpl in Hn; lia]. now rewrite !lone_end.
  - destruct q as [|c t]; [now rewrite !lone_end|].
    destruct (bol p) eqn:Hp.
    + destruct (lone_fence_len (c :: t)) as [k|] eqn:E.
      * destruct (lone_fence_len_shape _ _ E) as (x & j & Eq & _ & Ej).
        rewrite Eq in *. rewrite (lone_match _ _ _ Hp Ej).
        destruct (spaces_to_eol_rest _ _ Ej) as [Hj [Hr|(l & x3 & Hr & Hl & Hx3)]];
          rewrite Hr.
        -- rewrite lone_end, app_nil_r.
           rewrite <- (app_nil_r fence) at 2.
           rewrite (lone_match p' [] 0) by (auto; reflexivity).
           cbn [skipn]. now rewrite lone_end.
        -- assert (Hnb : is_backtick l = false).
           { apply space_not_backtick. now apply line_terminator_is_space. }
           rewrite lone_no_match by (right; now apply lone_fence_len_head).
           set (z := scan_replace re_lone_fence fence _ 0 x3).
           assert (Hz : spaces_to_eol (l :: z) = Some 0%nat).
           { cbn [spaces_to_eol]. rewrite (line_terminator_is_space _ Hl).
             unfold z. rewrite spaces_to_eol_normalized by exact Hx3.
             now rewrite Hl. }
           rewrite (lone_match p' (l :: z) 0) by (auto; exact Hz).
           cbn [skipn firstn]. f_equal.
           rewrite lone_no_match by (right; now apply lone_fence_len_head).
           f_equal. unfold z. apply IH; [|reflexivity].
           assert (Hlen : length (skipn j x) = S (length x3)) by now rewrite Hr.
           rewrite length_skipn in Hlen. rewrite length_app in Hn.
           cbn [length fence] in Hn. lia.
      * rewrite lone_no_match by (now right).
        rewrite lone_no_match
          by (right; now apply lone_fence_len_normalized).
        f_equal. apply IH; [cbn [length] in Hn; lia|reflexivity].
    + rewrite lone_no_match by (now left).
      rewrite lone_no_match by (left; congruence).
      f_equal. apply IH; [cbn [length] in Hn; lia|reflexivity].
Qed.

(** *** The sanitizer rules applied twice *)

Lemma tag_fences_idempotent (s : jsstring) :
  tag_fences (tag_fences s) = tag_fences s.
Proof. unfold tag_fences, replace_all. now apply (tag_idempotent (length s)). Qed.

Lemma normalize_lone_fences_idempotent (s : jsstring) :
  normalize_lone_fences (normalize_lone_fences s) = normalize_lone_fences s.
Proof.
  unfold normalize_lone_fences, replace_all.
  now apply (lone_idempotent (length s)).
Qed.

Lemma remove_stray_backticks_idempotent (s : jsstring) :
  remove_stray_backticks (remove_stray_backticks s) = remove_stray_backticks s.
Proof.
  unfold remove_stray_backticks, replace_all.
  rewrite (scan_strip_stray _ s [] (Nat.le_refl _)).
  rewrite (scan_strip_stray _ (strip_stray (bol []) s) [] (Nat.le_refl _)).
  now apply (strip_stray_idempotent (length s)).
Qed.

(** C7, as stated, fails: neither cleanup is idempotent, and of the single
    rules the two asterisk rules, the header rule and the rule that puts
    fences on their own line change their own output. *)
Lemma sanitizers_not_idempotent :
  clean_followUp (clean_followUp (js "* * x")) <> clean_followUp (js "* * x")
  /\ clean_idealResponse (clean_idealResponse (js "````"))
     <> clean_idealResponse (js "````")
  /\ replace re_leading_asterisks [] (replace re_leading_asterisks [] (js "* * x"))
     <> replace re_leading_asterisks [] (js "* * x")
  /\ replace re_trailing_asterisks [] (replace re_trailing_asterisks [] (js "x * *"))
     <> replace re_trailing_asterisks [] (js "x * *")
  /\ replace re_h3 [] (replace re_h3 [] (js "### ### x"))
     <> replace re_h3 [] (js "### ### x")
  /\ fences_on_own_line (fences_on_own_line (js "````"))
     <> fences_on_own_line (js "````").
Proof. repeat split; vm_compute; discriminate. Qed.

(** C7 (amended): of the sanitizer rules, the fence language tagging, the
    lone-fence normalization and the stray-backtick removal are idempotent
    for every input string.  The two cleanups are applied once and are not
    idempotent in general; on the texts of the specification's scenarios,
    the follow-up "**What about concurrent writes?**" and the fenced block
    without a language, applying them again changes nothing. *)
Theorem fence_rules_idempotent :
  (forall s, tag_fences (tag_fences s) = tag_fences s)
  /\ (forall s, normalize_lone_fences (normalize_lone_fences s)
                = normalize_lone_fences s)
  /\ (forall s, remove_stray_backticks (remove_stray_backticks s)
                = remove_stray_backticks s)
  /\ clean_followUp (clean_followUp (js "**What about concurrent writes?**"))
     = clean_followUp (js "**What about concurrent writes?**")
  /\ clean_idealResponse (clean_idealResponse (unlines ["```"; "code"; "```"]))
     = clean_idealResponse (unlines ["```"; "code"; "```"]).
Proof.
  split; [exact tag_fences_idempotent|].
  split; [exact normalize_lone_fences_idempotent|].
  split; [exact remove_stray_backticks_idempotent|].
  split; vm_compute; reflexivity.
Qed.

(** *** What line 193 tags *)

(** C5 fails, by a defect of line 193: its pattern [```\s*\n] cannot tell a
    closing fence from an opener, so a closing fence that a line feed follows
    is tagged "python" like an opener, against the comment of lines 188-192.
    On "```\ncode\n```\nDone." both fences come out as "```python", in the
    sanitizer and in the record returned.  The scenario of the claim,
    "```\ncode\n```", keeps its closing fence only because the text ends
    there. *)
Theorem closing_fence_tagged :
  tag_fences fenced_then_text
  = unlines ["```python"; "code"; "```python"; "Done."]
  /\ idealResponse
       (parseEvaluationResponse (js "Ideal Response: " ++ fenced_then_text))
     = LF :: unlines ["```python"; "code"; "```python"; "Done."]
  /\ idealResponse
       (parseEvaluationResponse (unlines ["Ideal Response:"; "```"; "code"; "```"]))
     = LF :: unlines ["```python"; "code"; "```"].
Proof. repeat split; vm_compute; reflexivity. Qed.

(** * Further properties *)

(** ** What a successful attempt went through *)

Lemma reaches_refl (st : mstate) : reaches st st [].
Proof. split; reflexivity. Qed.

Lemma reaches_trans (a b c : mstate) (x y : jsstring) :
  reaches a b x -> reaches b c y -> reaches a c (x ++ y).
Proof.
  intros [H1 H2] [H3 H4]. split.
  - now rewrite H1, H3, app_assoc.
  - now rewrite H4, H2, rev_app_distr, app_assoc.
Qed.

Lemma match_lit_sound (fl : flags) (s : jsstring) :
  forall st k e, match_lit fl s st k = Some e ->
  exists st' x, k st' = Some e /\ reaches st st' x /\ cap st' = cap st
                /\ length x = length s.
Proof.
  induction s as [|a s IH]; intros st k e H.
  - exists st, []. repeat split; auto.
  - cbn [match_lit] in H. destruct (post st) as [|c t] eqn:Ep; [discriminate|].
    destruct (lit_eq fl a c); [|discriminate].
    destruct (IH _ _ _ H) as (st' & x & Hk & [Hp Hq] & Hc & Hl).
    exists st', (c :: x). cbn [post pre cap] in *. repeat split; auto.
    + now rewrite Ep, Hp.
    + rewrite Hq. cbn [rev]. now rewrite <- app_assoc.
    + cbn [length]. now rewrite Hl.
Qed.

Lemma match_rep_sound (greedy : bool) (cs : charset) (k : cont) (e : mstate) :
  forall q lo hi c p,
  match_rep greedy cs lo hi c k p q = Some e ->
  exists st' x, k st' = Some e
                /\ reaches {| pre := p; post := q; cap := c |} st' x
                /\ cap st' = c
                /\ forallb (charset_mem cs) x = true
                /\ (lo <= length x)%nat.
Proof.
  induction q as [|a t IH]; intros lo hi c p H.
  - destruct lo; cbn [match_rep] in H; [|discriminate].
    eexists _, []. repeat split; eauto.
  - assert (Hmore : forall lo',
              match_rep greedy cs lo' (dec hi) c k (a :: p) t = Some e ->
              charset_mem cs a = true ->
              exists st' x, k st' = Some e
                /\ reaches {| pre := p; post := a :: t; cap := c |} st' x
                /\ cap st' = c
                /\ forallb (charset_mem cs) x = true
                /\ (S lo' <= length x)%nat).
    { intros lo' Hm Ha. destruct (IH _ _ _ _ Hm) as (st' & x & Hk & [Hp Hq] & Hc & Hf & Hl).
      exists st', (a :: x). cbn [post pre] in *. repeat split; auto.
      - now rewrite Hp.
      - rewrite Hq. cbn [rev]. now rewrite <- app_assoc.
      - cbn [forallb]. now rewrite Ha, Hf.
      - cbn [length]. lia. }
    assert (Hstop : k {| pre := p; post := a :: t; cap := c |} = Some e ->
              exists st' x, k st' = Some e
                /\ reaches {| pre := p; post := a :: t; cap := c |} st' x
                /\ cap st' = c
                /\ forallb (charset_mem cs) x = true
                /\ (0 <= length x)%nat).
    { intros Hk. eexists _, []. repeat split; eauto. }
    destruct lo as [|lo']; cbn [match_rep] in H.
    + destruct (charset_mem cs a && below hi) eqn:Hb.
      * apply andb_true_iff in Hb. destruct Hb as [Ha _].
        destruct greedy.
        -- destruct (match_rep true cs 0 (dec hi) c k (a :: p) t) eqn:Hm.
           ++ inversion H; subst.
              destruct (Hmore _ Hm Ha) as (st' & x & ? & ? & ? & ? & ?).
              exists st', x. do 4 (split; [assumption|]). lia.
           ++ now apply Hstop.
        -- destruct (k {| pre := p; post := a :: t; cap := c |}) eqn:Hk.
           ++ inversion H; subst. now apply Hstop.
           ++ destruct (Hmore _ H Ha) as (st' & x & ? & ? & ? & ? & ?).
              exists st', x. do 4 (split; [assumption|]). lia.
      * now apply Hstop.
    + destruct (charset_mem cs a && below hi) eqn:Hb; [|discriminate].
      apply andb_true_iff in Hb. destruct Hb as [Ha _].
      now apply Hmore.
Qed.

(** A successful attempt ends in its continuation, at a position further in
    the same text; a pattern without a group hands the capture on. *)
Lemma rmatch_sound (fl : flags) (r : regex) :
  forall st k e, rmatch fl r st k = Some e ->
  exists st' x, k st' = Some e /\ reaches st st' x
                /\ (groupless r = true -> cap st' = cap st).
Proof.
  induction r; intros st k e H; cbn [rmatch] in H.
  - exists st, []. split; [exact H|]. split; [apply reaches_refl|reflexivity].
  - destruct (match_lit_sound _ _ _ _ _ H) as (st' & x & Hk & Hr & Hc & _).
    exists st', x. split; [exact Hk|]. split; [exact Hr|now intros _].
  - destruct (post st) as [|c t] eqn:Ep; [discriminate|].
    destruct (charset_mem cs c); [|discriminate].
    eexists _, [c]. split; [exact H|]. split; [|reflexivity].
    split; cbn [post pre]; [exact Ep|reflexivity].
  - destruct (IHr1 _ _ _ H) as (st1 & x & Hk1 & Hr1 & Hc1).
    destruct (IHr2 _ _ _ Hk1) as (st2 & y & Hk2 & Hr2 & Hc2).
    exists st2, (x ++ y). split; [exact Hk2|]. split.
    + eapply reaches_trans; eauto.
    + cbn [groupless]. intros Hg. apply andb_true_iff in Hg.
      destruct Hg as [Hg1 Hg2]. now rewrite Hc2, Hc1.
  - destruct (rmatch fl r1 st k) eqn:E1.
    + inversion H; subst. destruct (IHr1 _ _ _ E1) as (st' & x & Hk & Hr & Hc).
      exists st', x. split; [exact Hk|]. split; [exact Hr|].
      cbn [groupless]. intros Hg. apply andb_true_iff in Hg. now apply Hc.
    + destruct (IHr2 _ _ _ H) as (st' & x & Hk & Hr & Hc).
      exists st', x. split; [exact Hk|]. split; [exact Hr|].
      cbn [groupless]. intros Hg. apply andb_true_iff in Hg. now apply Hc.
  - destruct (match_rep_sound _ _ _ _ _ _ _ _ _ H) as (st' & x & Hk & Hr & Hc & _).
    exists st', x. split; [exact Hk|]. split; [|now intros _].
    destruct st; exact Hr.
  - destruct (rmatch fl r st k) eqn:E1.
    + inversion H; subst. destruct (IHr _ _ _ E1) as (st' & x & Hk & Hr & Hc).
      exists st', x. split; [exact Hk|]. split; [exact Hr|exact Hc].
    + exists st, []. split; [exact H|]. split; [apply reaches_refl|reflexivity].
  - destruct (IHr _ _ _ H) as (st' & x & Hk & Hr & _).
    eexists _, x. split; [exact Hk|]. split; [exact Hr|discriminate].
  - destruct (rmatch fl r st Some); [|discriminate].
    exists st, []. split; [exact H|]. split; [apply reaches_refl|reflexivity].
  - destruct (rmatch fl r st Some); [discriminate|].
    exists st, []. split; [exact H|]. split; [apply reaches_refl|reflexivity].
  - destruct (pre st) as [|c p]; [|destruct (charset_mem cs c); [discriminate|]];
      (exists st, []; split; [exact H|]; split; [apply reaches_refl|reflexivity]).
  - destruct (pre st) as [|c p];
      [|destruct (multiline fl && is_line_terminator c); [|discriminate]];
      (exists st, []; split; [exact H|]; split; [apply reaches_refl|reflexivity]).
  - destruct (post st) as [|c p];
      [|destruct (multiline fl && is_line_terminator c); [|discriminate]];
      (exists st, []; split; [exact H|]; split; [apply reaches_refl|reflexivity]).
Qed.

(** ** The score is a number *)

Lemma seq_sound (fl : flags) (a b : regex) (st : mstate) (k : cont) (e : mstate) :
  rmatch fl (Seq a b) st k = Some e ->
  exists st1 x, rmatch fl b st1 k = Some e /\ reaches st st1 x
                /\ (groupless a = true -> cap st1 = cap st).
Proof. cbn [rmatch]. apply rmatch_sound. Qed.

(** The group [(\d+(?:\.\d+)?)] captures a text that starts with a digit. *)
Lemma decimal_group (fl : flags) (st : mstate) (k : cont) (e : mstate) :
  rmatch fl (Grp decimal) st k = Some e ->
  exists st' d x, k st' = Some e /\ is_digit d = true /\ cap st' = Some (d :: x).
Proof.
  unfold decimal, plus. intros H.
  change (match_rep true CDigit 1 None (cap st)
            (fun st1 => rmatch fl (Opt (Seq (Lit [dot]) (Rep true 1 None CDigit))) st1
               (fun st' => k {| pre := pre st'; post := post st';
                                cap := Some (consumed st st') |}))
            (pre st) (post st) = Some e) in H.
  destruct (match_rep_sound _ _ _ _ _ _ _ _ _ H)
    as (st1 & x1 & Hk1 & [Hp1 _] & _ & Hd & Hl).
  destruct (rmatch_sound _ _ _ _ _ Hk1) as (st2 & x2 & Hk2 & [Hp2 _] & _).
  cbn [post] in Hp1.
  destruct x1 as [|d x1]; [simpl in Hl; lia|].
  cbn [forallb charset_mem] in Hd. apply andb_true_iff in Hd.
  destruct Hd as [Hd _].
  eexists _, d, (x1 ++ x2). split; [exact Hk2|]. split; [exact Hd|].
  cbn [cap]. f_equal.
  apply (consumed_prefix st st2 ((d :: x1) ++ x2)).
  now rewrite Hp1, Hp2, app_assoc.
Qed.

Lemma search_found (re : RegExp) (q : jsstring) :
  forall p f, search re p q = Some f ->
  exists p' q', match_here re p' q' = Some (f_text f, f_group f).
Proof.
  induction q as [|c t IH]; intros p f H.
  - cbn [search] in H. destruct (match_here re p []) as [[m g]|] eqn:E;
      [|discriminate]. inversion H; subst. now exists p, [].
  - rewrite search_cons in H.
    destruct (match_here re p (c :: t)) as [[m g]|] eqn:E.
    + inversion H; subst. now exists p, (c :: t).
    + now apply IH with (p := c :: p).
Qed.

Lemma score_label_group (p q m : jsstring) (g : option jsstring) :
  match_here re_score_label p q = Some (m, g) ->
  exists d x, g = Some (d :: x) /\ is_digit d = true.
Proof.
  unfold match_here.
  destruct (rmatch _ _ _ _) as [e|] eqn:H; [|discriminate].
  intros E. inversion E; subst. clear E.
  unfold re_score_label in H. cbn [pattern reflags seq] in H.
  destruct (seq_sound _ _ _ _ _ _ H) as (st1 & ? & H1 & _ & _).
  destruct (seq_sound _ _ _ _ _ _ H1) as (st2 & ? & H2 & _ & _).
  destruct (seq_sound _ _ _ _ _ _ H2) as (st3 & ? & H3 & _ & _).
  destruct (decimal_group _ _ _ _ H3) as (st' & d & y & Hk & Hd & Hc).
  inversion Hk; subst. now exists d, y.
Qed.

Lemma score_of_five_group (p q m : jsstring) (g : option jsstring) :
  match_here re_score_of_five p q = Some (m, g) ->
  exists d x, g = Some (d :: x) /\ is_digit d = true.
Proof.
  unfold match_here.
  destruct (rmatch _ _ _ _) as [e|] eqn:H; [|discriminate].
  intros E. inversion E; subst. clear E.
  unfold re_score_of_five in H. cbn [pattern reflags seq] in H.
  change (rmatch flag_i (Seq (Grp decimal) ?r) ?st Some)
    with (rmatch flag_i (Grp decimal) st (fun st' => rmatch flag_i r st' Some)) in H.
  destruct (decimal_group _ _ _ _ H) as (st' & d & y & Hk & Hd & Hc).
  destruct (rmatch_sound _ _ _ _ _ Hk) as (st2 & ? & Hk2 & _ & Hc2).
  inversion Hk2; subst. exists d, y. split; [|exact Hd].
  rewrite Hc2 by reflexivity. exact Hc.
Qed.

Lemma read_digits_count (s : jsstring) (acc : N) (d : char) :
  is_digit d = true ->
  exists v n r, read_digits acc (d :: s) = (v, S n, r).
Proof.
  intros H. cbn [read_digits]. rewrite H.
  destruct (read_digits (10 * acc + digit_value d) s) as [[v n] r]. eauto.
Qed.

Lemma parseFloat_of_decimal (d : char) (x : jsstring) :
  is_digit d = true ->
  exists q, parseFloat (d :: x) = Num q /\ (0 <= q)%Q.
Proof.
  intros H. unfold parseFloat.
  destruct (read_digits_count x 0 d H) as (v & n & r & E). rewrite E.
  assert (Hint : forall u : N, (0 <= Z.of_N u # 1)%Q).
  { intros u. unfold Qle. cbn [Qnum Qden]. lia. }
  destruct r as [|c r']; [eauto|].
  destruct (c =? dot); [|eauto].
  destruct (read_digits v r') as [[w j] r''].
  eexists. split; [reflexivity|].
  rewrite Qred_correct. unfold Qle. cbn [Qnum Qden]. lia.
Qed.

(** X1: whatever the input, the score is a number, never NaN, and it is not
    negative. *)
Theorem score_is_a_number (evaluation : jsstring) :
  exists q, score (parseEvaluationResponse evaluation) = Num q /\ (0 <= q)%Q.
Proof.
  rewrite parse_fields. cbn [score].
  destruct (scoreMatch evaluation) as [m|] eqn:E.
  - assert (Hg : exists d x, f_group m = Some (d :: x) /\ is_digit d = true).
    { unfold scoreMatch in E.
      destruct (exec re_score_label evaluation) as [m1|] eqn:E1.
      - inversion E; subst. destruct (search_found _ _ _ _ E1) as (p' & q' & H).
        exact (score_label_group _ _ _ _ H).
      - destruct (search_found _ _ _ _ E) as (p' & q' & H).
        exact (score_of_five_group _ _ _ _ H). }
    destruct Hg as (d & x & Hg & Hd). rewrite Hg.
    now apply parseFloat_of_decimal.
  - exists 0%Q. split; [reflexivity|]. unfold Qle. cbn. lia.
Qed.

(** ** Items and follow-up without white space at their ends *)

Lemma trim_start_no_lead (s : jsstring) : starts_with_space (trim_start s) = false.
Proof.
  induction s as [|c t IH]; [reflexivity|].
  cbn [trim_start]. destruct (is_space c) eqn:E; [exact IH|].
  cbn [starts_with_space]. exact E.
Qed.

Lemma trim_start_keeps_last (a : jsstring) (c : char) :
  is_space c = false -> exists b, trim_start (a ++ [c]) = b ++ [c].
Proof.
  intros H. induction a as [|x a IH].
  - exists []. cbn [app trim_start]. now rewrite H.
  - cbn [app trim_start]. destruct (is_space x); [exact IH|].
    now exists (x :: a).
Qed.

Lemma trim_no_edge_space (s : jsstring) : no_edge_space (trim s).
Proof.
  unfold trim, trim_end. split.
  - pose proof (trim_start_no_lead s) as H.
    destruct (trim_start s) as [|c y]; [reflexivity|].
    cbn [starts_with_space] in H. cbn [rev].
    destruct (trim_start_keeps_last (rev y) c H) as [b Hb].
    rewrite Hb, rev_app_distr. cbn [rev app starts_with_space]. exact H.
  - rewrite rev_involutive. apply trim_start_no_lead.
Qed.

Lemma suffix_no_edge_space (w r : jsstring) :
  no_edge_space (w ++ r) -> starts_with_space r = false -> no_edge_space r.
Proof.
  intros [_ He] Hr. split; [exact Hr|].
  destruct (rev r) as [|x y] eqn:E; [reflexivity|].
  rewrite rev_app_distr, E in He. exact He.
Qed.

(** A greedy run that nothing has to follow takes every character of its
    class. *)
Lemma greedy_run_is_maximal (cs : charset) (c : option jsstring) (q : jsstring) :
  forall p,
  exists e, match_rep true cs 0 None c Some p q = Some e
            /\ match post e with
               | a :: _ => charset_mem cs a = false
               | [] => True
               end.
Proof.
  induction q as [|a t IH]; intros p.
  - eexists. split; [reflexivity|exact I].
  - cbn [match_rep below dec]. rewrite andb_true_r.
    destruct (charset_mem cs a) eqn:Ha.
    + destruct (IH (a :: p)) as (e & He & Hp). rewrite He. now exists e.
    + eexists. split; [reflexivity|]. exact Ha.
Qed.

Lemma plus_space_ends_run (fl : flags) (st e : mstate) :
  rmatch fl (plus CSpace) st Some = Some e -> starts_with_space (post e) = false.
Proof.
  unfold plus. cbn [rmatch]. intros H.
  destruct (post st) as [|a t]; cbn [match_rep below dec] in H; [discriminate|].
  destruct (charset_mem CSpace a && true); [|discriminate].
  destruct (greedy_run_is_maximal CSpace (cap st) t (a :: pre st)) as (e' & He & Hp).
  rewrite He in H. inversion H; subst.
  destruct (post e) as [|b u]; [reflexivity|exact Hp].
Qed.

(** A pattern anchored at [^] without the [m] flag matches at the start of
    the text only; replacing its match by nothing leaves the text after the
    match. *)
Lemma anchored_not_later (re : RegExp) (r : regex) (q : jsstring) :
  pattern re = Seq Bol r -> multiline (reflags re) = false ->
  forall c p, search re (c :: p) q = None.
Proof.
  intros Hp Hm.
  assert (Hno : forall c p q', match_here re (c :: p) q' = None).
  { intros c p q'. unfold match_here. rewrite Hp. cbn [rmatch pre].
    now rewrite Hm. }
  induction q as [|x t IH]; intros c p.
  - cbn [search]. now rewrite Hno.
  - rewrite search_cons, Hno. apply IH.
Qed.

Lemma replace_anchored (re : RegExp) (r : regex) (s : jsstring) :
  pattern re = Seq Bol r -> multiline (reflags re) = false ->
  replace re [] s = s
  \/ exists e w, rmatch (reflags re) r {| pre := []; post := s; cap := None |} Some
                 = Some e
                 /\ s = w ++ post e /\ replace re [] s = post e.
Proof.
  intros Hp Hm. unfold replace, exec.
  destruct (match_here re [] s) as [[m g]|] eqn:E.
  - right. rewrite (search_found_here _ _ _ _ _ E). cbn [f_before f_after rev app].
    unfold match_here in E. rewrite Hp in E. cbn [rmatch pre] in E.
    destruct (rmatch (reflags re) r _ Some) as [e|] eqn:Er; [|discriminate].
    inversion E; subst. clear E.
    destruct (rmatch_sound _ _ _ _ _ Er) as (st' & x & Hk & [Hx _] & _).
    inversion Hk; subst. cbn [post] in Hx.
    exists e, x. split; [reflexivity|]. split; [exact Hx|].
    rewrite (consumed_prefix _ e x) by exact Hx.
    rewrite Hx at 1. now rewrite skipn_app, Nat.sub_diag, skipn_all.
  - left. destruct s as [|c t]; cbn [search]; rewrite E; [reflexivity|].
    now rewrite (anchored_not_later re r t Hp Hm).
Qed.

Lemma replace_marker_no_edge_space (re : RegExp) (r : regex) (s : jsstring) :
  pattern re = Seq Bol r -> multiline (reflags re) = false ->
  (forall st e, rmatch (reflags re) r st Some = Some e ->
                starts_with_space (post e) = false) ->
  no_edge_space s -> no_edge_space (replace re [] s).
Proof.
  intros Hp Hm Hend Hs.
  destruct (replace_anchored re r s Hp Hm) as [E|(e & w & He & Hw & E)];
    rewrite E; [exact Hs|].
  apply (suffix_no_edge_space w); [now rewrite <- Hw|].
  now apply (Hend _ _ He).
Qed.

Lemma bullet_marker_no_edge_space (s : jsstring) :
  no_edge_space s -> no_edge_space (replace re_bullet_marker [] s).
Proof.
  apply (replace_marker_no_edge_space re_bullet_marker
           (Seq (Cls bullets) (plus CSpace))); try reflexivity.
  intros st e H. destruct (seq_sound _ _ _ _ _ _ H) as (st1 & ? & H1 & _).
  exact (plus_space_ends_run _ _ _ H1).
Qed.

Lemma number_marker_no_edge_space (s : jsstring) :
  no_edge_space s -> no_edge_space (replace re_number_marker [] s).
Proof.
  apply (replace_marker_no_edge_space re_number_marker
           (Seq (plus CDigit) (Seq (Lit [dot]) (plus CSpace)))); try reflexivity.
  intros st e H. destruct (seq_sound _ _ _ _ _ _ H) as (st1 & ? & H1 & _).
  destruct (seq_sound _ _ _ _ _ _ H1) as (st2 & ? & H2 & _).
  exact (plus_space_ends_run _ _ _ H2).
Qed.

Lemma h3_no_edge_space (s : jsstring) :
  no_edge_space s -> no_edge_space (replace re_h3 [] s).
Proof.
  apply (replace_marker_no_edge_space re_h3
           (Seq (Lit (js "###")) (plus CSpace))); try reflexivity.
  intros st e H. destruct (seq_sound _ _ _ _ _ _ H) as (st1 & ? & H1 & _).
  exact (plus_space_ends_run _ _ _ H1).
Qed.

Lemma list_items_no_edge_space (content : jsstring) :
  Forall no_edge_space (list_items content).
Proof.
  rewrite list_items_cases. cbv zeta.
  assert (Hc : no_edge_space (cleanedContent content)) by apply trim_no_edge_space.
  assert (Hpts : Forall no_edge_space (split_points (cleanedContent content))).
  { unfold split_points.
    destruct (is_some (bulletMatch _) || is_some (numberedMatch _)).
    - apply Forall_forall. intros x Hx. apply in_map_iff in Hx.
      destruct Hx as (y & <- & _). apply trim_no_edge_space.
    - destruct (includes LF (cleanedContent content)).
      + apply Forall_forall. intros x Hx. apply filter_In in Hx.
        destruct Hx as [Hx _]. apply in_map_iff in Hx.
        destruct Hx as (y & <- & _). unfold clean_line.
        apply number_marker_no_edge_space, bullet_marker_no_edge_space,
          trim_no_edge_space.
      + now constructor. }
  destruct (post_filter (split_points (cleanedContent content))) as [|i l] eqn:E.
  - constructor; [|constructor]. now apply bullet_marker_no_edge_space.
  - rewrite <- E. apply Forall_forall. intros x Hx.
    unfold post_filter in Hx. apply filter_In in Hx. destruct Hx as [Hx _].
    apply filter_In in Hx. destruct Hx as [Hx _].
    now apply (proj1 (Forall_forall _ _) Hpts).
Qed.

(** X2: no item of the three lists starts or ends with white space, whatever
    the input. *)
Theorem list_items_are_trimmed (evaluation : jsstring) :
  Forall no_edge_space (strengths (parseEvaluationResponse evaluation))
  /\ Forall no_edge_space (improvements (parseEvaluationResponse evaluation))
  /\ Forall no_edge_space (missedPoints (parseEvaluationResponse evaluation)).
Proof.
  rewrite parse_fields. cbn [strengths improvements missedPoints].
  repeat split;
    match goal with
    | |- Forall _ (match ?x with _ => _ end) =>
        destruct x; [apply list_items_no_edge_space|constructor]
    end.
Qed.

(** X3: the follow-up question neither starts nor ends with white space,
    whatever the input. *)
Theorem followUp_is_trimmed (evaluation : jsstring) :
  no_edge_space (followUp (parseEvaluationResponse evaluation)).
Proof.
  rewrite parse_fields. cbn [followUp].
  destruct (section_content followUp_re evaluation); [|now split].
  unfold clean_followUp. apply h3_no_edge_space, trim_no_edge_space.
Qed.

(** ** What the fence rules leave behind *)

Lemma python_fence_suffix_clean (a l y : jsstring) :
  python_fence = a ++ l -> l <> [] -> bare_fence_len (l ++ y) = None.
Proof.
  intros H Hl. unfold python_fence, fence in H.
  cbn [app js map list_ascii_of_string] in H.
  do 10 (destruct a as [|? a];
         [cbn [app] in H; subst l; cbn [app];
          first [reflexivity | apply bare_fence_len_head; reflexivity]
         |cbn [app] in H; injection H as _ H]).
  destruct a; [|discriminate]. cbn [app] in H. now subst l.
Qed.

Lemma tag_output_clean (n : nat) :
  forall (q p a b : jsstring), (length q <= n)%nat ->
  scan_replace re_bare_fence python_fence p 0 q = a ++ b ->
  bare_fence_len b = None.
Proof.
  induction n as [|n IH]; intros q p a b Hn H.
  - destruct q; [|simpl in Hn; lia]. rewrite tag_end in H.
    symmetry in H. apply app_eq_nil in H. destruct H as [_ ->]. reflexivity.
  - destruct q as [|c t].
    { rewrite tag_end in H. symmetry in H. apply app_eq_nil in H.
      destruct H as [_ ->]. reflexivity. }
    destruct (bare_fence_len (c :: t)) as [k|] eqn:E.
    + pose proof (bare_fence_len_bounds _ _ E) as Hk.
      rewrite (tag_match _ _ _ E) in H.
      symmetry in H. apply app_eq_app in H.
      destruct H as (l & [[Ha Hy]|[Hpf Hb]]).
      * eapply (IH _ _ l); [|exact Hy].
        rewrite length_skipn. cbn [length] in *. lia.
      * destruct l as [|x l].
        -- cbn [app] in Hb. subst b.
           eapply (IH _ _ []); [|reflexivity].
           rewrite length_skipn. cbn [length] in *. lia.
        -- subst b. apply (python_fence_suffix_clean a); [exact Hpf|discriminate].
    + rewrite tag_no_match in H by exact E.
      destruct a as [|x a]; cbn [app] in H.
      * subst b. now apply bare_fence_len_tagged.
      * injection H as _ H. eapply (IH _ _ a); [|exact H].
        cbn [length] in Hn. lia.
Qed.

(** X4: after line 193 its pattern matches nowhere: no fence is left that
    only white space separates from a line feed. *)
Theorem no_bare_fence_after_tagging (s a b : jsstring) :
  tag_fences s = a ++ b -> match_here re_bare_fence (rev a) b = None.
Proof.
  intros H. rewrite bare_fence_here.
  unfold tag_fences, replace_all in H.
  now rewrite (tag_output_clean (length s) s [] a b).
Qed.

Lemma no_bare_fence_after_tagging_witness :
  match_here re_bare_fence (rev (js "```python")) (LF :: js "code") = None.
Proof.
  apply (no_bare_fence_after_tagging (unlines ["```  "; "code"])).
  vm_compute. reflexivity.
Defined.

Lemma bol_after_cons (b : bool) (c : char) (a : jsstring) :
  bol_after b (c :: a) = bol_after (is_line_terminator c) a.
Proof.
  unfold bol_after. cbn [rev]. destruct (rev a); reflexivity.
Qed.

Lemma bol_rev (a : jsstring) : bol (rev a) = bol_after true a.
Proof. reflexivity. Qed.

Lemma stray_run_head (c : char) (y : jsstring) :
  is_backtick c = false -> stray_run (c :: y) = None.
Proof. intros H. cbn [stray_run]. now rewrite H. Qed.

Lemma strip_stray_head (q : jsstring) :
  starts_with_backtick q = false ->
  starts_with_backtick (strip_stray false q) = false.
Proof.
  destruct q as [|c t]; [reflexivity|]. cbn [starts_with_backtick strip_stray andb].
  tauto.
Qed.

Lemma strip_stray_clean (n : nat) :
  forall (q : jsstring) (f : bool) (a b : jsstring), (length q <= n)%nat ->
  strip_stray f q = a ++ b -> bol_after f a = true -> stray_run b = None.
Proof.
  induction n as [|n IH]; intros q f a b Hn H Hb.
  - destruct q; [|simpl in Hn; lia]. cbn in H. symmetry in H.
    apply app_eq_nil in H. destruct H as [_ ->]. reflexivity.
  - destruct q as [|c t].
    { cbn in H. symmetry in H. apply app_eq_nil in H.
      destruct H as [_ ->]. reflexivity. }
    cbn [length] in Hn. cbn [strip_stray] in H.
    assert (Hkeep : c :: strip_stray (is_line_terminator c) t = a ++ b ->
              (a = [] -> stray_run (c :: strip_stray (is_line_terminator c) t) = None) ->
              stray_run b = None).
    { intros Hy Ha. destruct a as [|x a]; cbn [app] in Hy.
      - subst b. now apply Ha.
      - injection Hy as -> Hy. rewrite bol_after_cons in Hb.
        apply (IH t (is_line_terminator x) a b); auto. lia. }
    assert (Hdrop : forall u, (length u <= n)%nat ->
              starts_with_backtick u = false ->
              strip_stray false u = a ++ b -> stray_run b = None).
    { intros u Hu Hs Hy. destruct a as [|x a].
      - cbn [app] in Hy. subst b. apply strip_stray_head in Hs.
        destruct (strip_stray false u) as [|z w]; [reflexivity|].
        now apply stray_run_head.
      - apply (IH u false (x :: a) b); auto.
        rewrite bol_after_cons in Hb |- *. exact Hb. }
    destruct (f && is_backtick c) eqn:Hfc.
    + apply andb_true_iff in Hfc. destruct Hfc as [-> Hc].
      apply is_backtick_eq in Hc. subst c.
      destruct t as [|d t'].
      { symmetry in H. apply app_eq_nil in H. destruct H as [_ ->]. reflexivity. }
      destruct (is_backtick d) eqn:Hd.
      * apply is_backtick_eq in Hd. subst d. destruct t' as [|e t''].
        { symmetry in H. apply app_eq_nil in H. destruct H as [_ ->]. reflexivity. }
        destruct (is_backtick e) eqn:He.
        -- apply is_backtick_eq in He. subst e.
           apply Hkeep; [exact H|]. intros _. reflexivity.
        -- apply (Hdrop (e :: t'')); [cbn [length] in *; lia|exact He|exact H].
      * apply (Hdrop (d :: t')); [cbn [length] in *; lia|exact Hd|exact H].
    + apply Hkeep; [exact H|]. intros ->. cbn [bol_after rev] in Hb. subst f.
      cbn [andb] in Hfc. now apply stray_run_head.
Qed.

(** X5: after line 198 its pattern matches nowhere: no line starts with a
    run of exactly one or two backticks. *)
Theorem no_stray_backticks_left (s a b : jsstring) :
  remove_stray_backticks s = a ++ b ->
  match_here re_stray_backticks (rev a) b = None.
Proof.
  intros H. rewrite stray_here. destruct (bol (rev a)) eqn:Hb; [|reflexivity].
  unfold remove_stray_backticks, replace_all in H.
  rewrite (scan_strip_stray _ s [] (Nat.le_refl _)) in H.
  now rewrite (strip_stray_clean (length s) s (bol []) a b).
Qed.

Lemma no_stray_backticks_left_witness :
  match_here re_stray_backticks (rev (js "x" ++ [LF])) (js "y") = None.
Proof.
  apply (no_stray_backticks_left (unlines ["`x"; "``y"])).
  vm_compute. reflexivity.
Defined.

Lemma bol_app_cons (a : jsstring) (x : char) (p p' : jsstring) :
  bol (rev a ++ x :: p) = bol (rev a ++ x :: p').
Proof. destruct (rev a); reflexivity. Qed.

Lemma lone_fence_len_third (c d e : char) (y : jsstring) :
  is_backtick e = false -> lone_fence_len (c :: d :: e :: y) = None.
Proof. intros H. cbn [lone_fence_len]. now rewrite H, andb_false_r. Qed.

Lemma lone_fence_len_second (c d : char) (y : jsstring) :
  is_backtick d = false -> lone_fence_len (c :: d :: y) = None.
Proof.
  intros H. destruct y as [|e y]; [reflexivity|].
  cbn [lone_fence_len]. now rewrite H, andb_false_r.
Qed.

Lemma lone_output_clean (n : nat) :
  forall (q p a b : jsstring) (k : nat), (length q <= n)%nat ->
  scan_replace re_lone_fence fence p 0 q = a ++ b ->
  bol (rev a ++ p) = true -> lone_fence_len b = Some k -> k = 3%nat.
Proof.
  induction n as [|n IH]; intros q p a b k Hn H Hb Hk.
  - destruct q; [|simpl in Hn; lia]. rewrite lone_end in H.
    symmetry in H. apply app_eq_nil in H. destruct H as [_ ->]. discriminate.
  - destruct q as [|c t].
    { rewrite lone_end in H. symmetry in H. apply app_eq_nil in H.
      destruct H as [_ ->]. discriminate. }
    assert (Hkeep : lone_fence_len (c :: scan_replace re_lone_fence fence (c :: p) 0 t)
                    = None \/ bol p = false ->
              c :: scan_replace re_lone_fence fence (c :: p) 0 t = a ++ b ->
              k = 3%nat).
    { intros Hnone Hy. destruct a as [|x a]; cbn [app] in Hy.
      - subst b. cbn [rev app] in Hb. destruct Hnone; congruence.
      - injection Hy as -> Hy. apply (IH t (x :: p) a b); auto.
        + cbn [length] in Hn. lia.
        + cbn [rev] in Hb. now rewrite <- app_assoc in Hb. }
    destruct (bol p) eqn:Hp.
    + destruct (lone_fence_len (c :: t)) as [j'|] eqn:E.
      * destruct (lone_fence_len_shape _ _ E) as (x & j & Eq & _ & Ej).
        rewrite Eq in *. rewrite (lone_match _ _ _ Hp Ej) in H.
        destruct (spaces_to_eol_rest _ _ Ej) as [Hj [Hr|(l & x3 & Hr & Hl & Hx3)]];
          rewrite Hr in H.
        -- rewrite lone_end, app_nil_r in H.
           destruct a as [|a0 [|a1 [|a2 [|a3 a]]]]; cbn [app] in H;
             try discriminate; inversion H; subst; cbn in Hk;
             try discriminate.
           now inversion Hk.
        -- assert (Hnb : is_backtick l = false).
           { apply space_not_backtick. now apply line_terminator_is_space. }
           rewrite lone_no_match in H
             by (right; now apply lone_fence_len_head).
           set (p1 := l :: rev (fence ++ firstn j x) ++ p) in H.
           set (z := scan_replace re_lone_fence fence p1 0 x3) in H.
           assert (Hz : spaces_to_eol (l :: z) = Some 0%nat).
           { cbn [spaces_to_eol]. rewrite (line_terminator_is_space _ Hl).
             unfold z. rewrite spaces_to_eol_normalized by exact Hx3.
             now rewrite Hl. }
           unfold fence in H. cbn [app] in H.
           destruct a as [|a0 [|a1 [|a2 [|a3 a]]]]; cbn [app] in H;
             inversion H; subst; try clear H.
           ++ cbn [lone_fence_len] in Hk.
              change (is_backtick backtick) with true in Hk. cbn [andb] in Hk.
              rewrite Hz in Hk. now inversion Hk.
           ++ rewrite lone_fence_len_third in Hk by exact Hnb. discriminate.
           ++ rewrite lone_fence_len_second in Hk by exact Hnb. discriminate.
           ++ rewrite lone_fence_len_head in Hk by exact Hnb. discriminate.
           ++ match goal with Hy : z = a ++ b |- _ =>
                apply (IH x3 p1 a b k); [|exact Hy| |exact Hk] end.
              ** assert (Hlen : length (skipn j x) = S (length x3))
                   by now rewrite Hr.
                 rewrite length_skipn in Hlen. rewrite length_app in Hn.
                 cbn [length] in Hn. lia.
              ** unfold p1. cbn [rev] in Hb.
                 repeat rewrite <- app_assoc in Hb. cbn [app] in Hb.
                 rewrite <- Hb. apply bol_app_cons.
      * rewrite lone_no_match in H by (now right).
        apply Hkeep; [left; now apply lone_fence_len_normalized|exact H].
    + rewrite lone_no_match in H by (now left).
      apply Hkeep; [now right|exact H].
Qed.

(** X6: after line 197 a fence that stands alone on its line is the three
    backticks and nothing else: wherever the pattern of line 197 still
    matches in the output, it matches exactly "```". *)
Theorem lone_fences_are_bare (s a b m : jsstring) (g : option jsstring) :
  normalize_lone_fences s = a ++ b ->
  match_here re_lone_fence (rev a) b = Some (m, g) -> m = fence.
Proof.
  intros H Hm. rewrite lone_fence_here in Hm.
  destruct (bol (rev a)) eqn:Hb; [|discriminate].
  destruct (lone_fence_len b) as [k|] eqn:Hk; [|discriminate].
  inversion Hm; subst. clear Hm.
  unfold normalize_lone_fences, replace_all in H.
  assert (k = 3%nat).
  { apply (lone_output_clean (length s) s [] a b k); auto.
    now rewrite app_nil_r. }
  subst k. destruct (lone_fence_len_shape _ _ Hk) as (x & j & -> & _ & _).
  reflexivity.
Qed.

Lemma lone_fences_are_bare_witness :
  normalize_lone_fences (unlines ["```   "; "code"]) = unlines ["```"; "code"]
  /\ match_here re_lone_fence [] (unlines ["```"; "code"]) = Some (fence, None).
Proof.
  assert (H : normalize_lone_fences (unlines ["```   "; "code"])
              = [] ++ unlines ["```"; "code"]) by (vm_compute; reflexivity).
  assert (Hm : match_here re_lone_fence (rev []) (unlines ["```"; "code"])
               = Some (firstn 3 (unlines ["```"; "code"]), None))
    by (vm_compute; reflexivity).
  split; [exact H|].
  now rewrite <- (lone_fences_are_bare _ _ _ _ _ H Hm).
Defined.

(** ** Fences moved to their own line *)

Lemma own_line_here (p q : jsstring) :
  match_here re_fence_not_on_own_line p q = None
  \/ exists rest, q = fence ++ rest
                  /\ match_here re_fence_not_on_own_line p q = Some (fence, None).
Proof.
  unfold match_here.
  destruct q as [|c [|d [|e t]]];
    (destruct p as [|x p]; cbn; [|destruct (x =? LF); cbn]); auto;
    repeat match goal with
      | |- context [?a =? backtick] => destruct (N.eqb_spec a backtick); cbn
      end; auto; subst; right; exists t;
    (split; [reflexivity|]);
    rewrite (consumed_prefix _ _ fence) by reflexivity; reflexivity.
Qed.

Lemma own_line_keeps_text (n : nat) :
  forall (q p : jsstring), (length q <= n)%nat ->
  filter not_lf (scan_replace re_fence_not_on_own_line (LF :: fence) p 0 q)
  = filter not_lf q.
Proof.
  induction n as [|n IH]; intros q p Hn.
  - destruct q; [|simpl in Hn; lia].
    destruct (own_line_here p []) as [E|(rest & Hq & _)]; [|discriminate].
    now rewrite scan_replace_end.
  - destruct q as [|c t].
    { destruct (own_line_here p []) as [E|(rest & Hq & _)]; [|discriminate].
      now rewrite scan_replace_end. }
    destruct (own_line_here p (c :: t)) as [E|(rest & Hq & E)].
    + rewrite scan_replace_no_match by exact E. cbn [filter].
      rewrite IH by (cbn [length] in Hn; lia). reflexivity.
    + rewrite Hq in *. rewrite (scan_replace_match _ _ _ _ _ _ E) by discriminate.
      rewrite !filter_app. rewrite IH.
      * reflexivity.
      * rewrite length_app in Hn. cbn [length fence] in Hn. lia.
Qed.

(** X7: line 199 only inserts line feeds: apart from line feeds, its output
    has the characters of its input, in the same order. *)
Theorem fences_on_own_line_keeps_text (s : jsstring) :
  filter not_lf (fences_on_own_line s) = filter not_lf s.
Proof.
  unfold fences_on_own_line, replace_all.
  now apply (own_line_keeps_text (length s)).
Qed.

(** ** The parser selects text *)

Lemma occurs_in_refl (s : jsstring) : occurs_in s s.
Proof. exists [], []. now rewrite app_nil_r. Qed.

Lemma occurs_in_trans (a b c : jsstring) :
  occurs_in a b -> occurs_in b c -> occurs_in a c.
Proof.
  intros (p & q & ->) (p' & q' & ->). exists (p' ++ p), (q ++ q').
  now rewrite <- !app_assoc.
Qed.

Lemma occurs_in_suffix (w s : jsstring) : occurs_in s (w ++ s).
Proof. exists w, []. now rewrite app_nil_r. Qed.

Lemma occurs_in_prefix (s w : jsstring) : occurs_in s (s ++ w).
Proof. now exists [], w. Qed.

Lemma occurs_in_middle (p s q : jsstring) : occurs_in s (p ++ s ++ q).
Proof. now exists p, q. Qed.

Lemma trim_start_suffix (s : jsstring) : exists w, s = w ++ trim_start s.
Proof.
  induction s as [|c t [w IH]]; [now exists []|].
  cbn [trim_start]. destruct (is_space c).
  - exists (c :: w). cbn [app]. now rewrite <- IH.
  - now exists [].
Qed.

Lemma trim_occurs (s : jsstring) : occurs_in (trim s) s.
Proof.
  unfold trim, trim_end.
  destruct (trim_start_suffix s) as [w Hw].
  destruct (trim_start_suffix (rev (trim_start s))) as [v Hv].
  apply (f_equal (@rev _)) in Hv. rewrite rev_involutive, rev_app_distr in Hv.
  exists w, (rev v). now rewrite <- Hv.
Qed.

Lemma replace_anchored_occurs (re : RegExp) (r : regex) (s : jsstring) :
  pattern re = Seq Bol r -> multiline (reflags re) = false ->
  occurs_in (replace re [] s) s.
Proof.
  intros Hp Hm.
  destruct (replace_anchored re r s Hp Hm) as [E|(e & w & _ & Hw & E)]; rewrite E.
  - apply occurs_in_refl.
  - rewrite Hw. apply occurs_in_suffix.
Qed.

Lemma match_here_prefix (re : RegExp) (p q m : jsstring) (g : option jsstring) :
  match_here re p q = Some (m, g) -> q = m ++ skipn (length m) q.
Proof.
  unfold match_here.
  destruct (rmatch _ _ _ _) as [e|] eqn:H; [|discriminate].
  intros E. inversion E; subst.
  destruct (rmatch_sound _ _ _ _ _ H) as (st' & x & Hk & [Hx _] & _).
  inversion Hk; subst. cbn [post] in Hx.
  rewrite (consumed_prefix _ e x) by exact Hx.
  transitivity (x ++ post e); [exact Hx|]. f_equal.
  rewrite Hx. now rewrite skipn_app, Nat.sub_diag, skipn_all.
Qed.

(** Where a search finds its match. *)
Lemma search_found_at (re : RegExp) (q : jsstring) :
  forall p f, search re p q = Some f ->
  exists p' q', rev p ++ q = rev p' ++ q'
                /\ f_before f = rev p'
                /\ match_here re p' q' = Some (f_text f, f_group f)
                /\ f_after f = skipn (length (f_text f)) q'.
Proof.
  induction q as [|c t IH]; intros p f H.
  - cbn [search] in H. destruct (match_here re p []) as [[m g]|] eqn:E;
      [|discriminate]. inversion H; subst. now exists p, [].
  - rewrite search_cons in H.
    destruct (match_here re p (c :: t)) as [[m g]|] eqn:E.
    + inversion H; subst. now exists p, (c :: t).
    + destruct (IH (c :: p) f H) as (p' & q' & He & Hr).
      exists p', q'. split; [|exact Hr].
      rewrite <- He. cbn [rev]. now rewrite <- app_assoc.
Qed.

(** A capture of a successful attempt is a piece of the text it went
    through. *)
Lemma rmatch_capture (fl : flags) (r : regex) :
  forall st k e, rmatch fl r st k = Some e ->
  exists st' x, k st' = Some e /\ reaches st st' x
                /\ (cap st' = cap st
                    \/ exists g, cap st' = Some g /\ occurs_in g x).
Proof.
  induction r; intros st k e H.
  4:{ destruct (IHr1 _ _ _ H) as (st1 & x & Hk1 & Hr1 & Hc1).
      destruct (IHr2 _ _ _ Hk1) as (st2 & y & Hk2 & Hr2 & Hc2).
      exists st2, (x ++ y). split; [exact Hk2|]. split.
      - eapply reaches_trans; eauto.
      - destruct Hc2 as [Hc2|(g & Hg & Ho)].
        + rewrite Hc2. destruct Hc1 as [Hc1|(g & Hg & Ho)]; [now left|].
          right. exists g. split; [exact Hg|].
          eapply occurs_in_trans; [exact Ho|apply occurs_in_prefix].
        + right. exists g. split; [exact Hg|].
          eapply occurs_in_trans; [exact Ho|apply occurs_in_suffix]. }
  4:{ cbn [rmatch] in H. destruct (rmatch fl r1 st k) eqn:E1.
      - inversion H; subst. exact (IHr1 _ _ _ E1).
      - exact (IHr2 _ _ _ H). }
  5:{ cbn [rmatch] in H. destruct (rmatch fl r st k) eqn:E1.
      - inversion H; subst. exact (IHr _ _ _ E1).
      - exists st, []. split; [exact H|]. split; [apply reaches_refl|now left]. }
  5:{ cbn [rmatch] in H.
      destruct (rmatch_sound _ _ _ _ _ H) as (st' & x & Hk & Hr & _).
      eexists _, x. split; [exact Hk|]. split; [exact Hr|].
      right. eexists. split; [reflexivity|].
      destruct Hr as [Hx _]. rewrite (consumed_prefix _ _ x) by exact Hx.
      apply occurs_in_refl. }
  all: destruct (rmatch_sound _ _ _ _ _ H) as (st' & x & Hk & Hr & Hc);
    exists st', x; split; [exact Hk|]; split; [exact Hr|];
    left; now apply Hc.
Qed.

Lemma match_here_group_occurs (re : RegExp) (p q m g : jsstring) :
  match_here re p q = Some (m, Some g) -> occurs_in g q.
Proof.
  unfold match_here.
  destruct (rmatch _ _ _ _) as [e|] eqn:H; [|discriminate].
  intros E. inversion E as [[Hm Hg]]. clear E.
  destruct (rmatch_capture _ _ _ _ _ H) as (st' & x & Hk & [Hx _] & Hc).
  inversion Hk; subst st'. cbn [post cap] in *.
  destruct Hc as [Hc|(g' & Hg' & Ho)]; [congruence|].
  rewrite Hg in Hg'. inversion Hg'; subst g'.
  rewrite Hx. eapply occurs_in_trans; [exact Ho|apply occurs_in_prefix].
Qed.

Lemma section_content_occurs (re : RegExp) (evaluation content : jsstring) :
  section_content re evaluation = Some content -> occurs_in content evaluation.
Proof.
  unfold section_content, exec.
  destruct (search re [] evaluation) as [f|] eqn:E; [|discriminate].
  destruct (f_group f) as [g|] eqn:Eg; [|discriminate].
  destruct (nonempty g && nonempty (trim g)); [|discriminate].
  intros H. inversion H; subst.
  destruct (search_found_at _ _ _ _ E) as (p' & q' & He & _ & Hm & _).
  rewrite Eg in Hm. apply match_here_group_occurs in Hm.
  cbn [rev app] in He. rewrite He.
  eapply occurs_in_trans; [apply trim_occurs|].
  eapply occurs_in_trans; [exact Hm|apply occurs_in_suffix].
Qed.

Lemma scan_matches_occur (re : RegExp) (q : jsstring) :
  forall p k m, In m (scan_matches re p k q) -> occurs_in m q.
Proof.
  induction q as [|c t IH]; intros p k m H.
  - destruct k; cbn [scan_matches] in H; [|contradiction].
    destruct (match_here re p []) as [[m' g]|] eqn:E; [|contradiction].
    destruct H as [<-|[]]. apply match_here_prefix in E.
    eexists [], _. exact E.
  - assert (Hrest : forall p' k', In m (scan_matches re p' k' t) ->
                                  occurs_in m (c :: t)).
    { intros p' k' Hin. eapply occurs_in_trans; [exact (IH _ _ _ Hin)|].
      apply (occurs_in_suffix [c]). }
    destruct k; cbn [scan_matches] in H; [|now apply (Hrest _ _ H)].
    destruct (match_here re p (c :: t)) as [[m' g]|] eqn:E;
      [|now apply (Hrest _ _ H)].
    destruct H as [<-|H]; [|now apply (Hrest _ _ H)].
    apply match_here_prefix in E. eexists [], _. exact E.
Qed.

Lemma match_all_occur (re : RegExp) (s : jsstring) (m : jsstring) :
  In m (or_empty (match_all re s)) -> occurs_in m s.
Proof.
  unfold match_all. intros H.
  apply (scan_matches_occur re s [] 0%nat).
  destruct (scan_matches re [] 0 s); [contradiction|exact H].
Qed.

Lemma split_head_prefix (sep : char) (s l : jsstring) (ls : list jsstring) :
  split sep s = l :: ls -> exists b, s = l ++ b.
Proof.
  revert l ls. induction s as [|c t IH]; intros l ls H.
  - cbn in H. inversion H; subst. now exists [].
  - cbn [split] in H. destruct (c =? sep).
    + inversion H; subst. now exists (c :: t).
    + destruct (split sep t) as [|l' ls'] eqn:E.
      * inversion H; subst. exists t. reflexivity.
      * inversion H; subst. destruct (IH _ _ eq_refl) as [b Hb].
        exists b. cbn [app]. now rewrite <- Hb.
Qed.

Lemma split_occur (sep : char) (s piece : jsstring) :
  In piece (split sep s) -> occurs_in piece s.
Proof.
  revert piece. induction s as [|c t IH]; intros piece H.
  - cbn in H. destruct H as [<-|[]]. apply occurs_in_refl.
  - cbn [split] in H. destruct (c =? sep).
    + destruct H as [<-|H]; [now exists [], (c :: t)|].
      eapply occurs_in_trans; [exact (IH _ H)|apply (occurs_in_suffix [c])].
    + destruct (split sep t) as [|l ls] eqn:E.
      * destruct H as [<-|[]]. exists [], t. reflexivity.
      * destruct H as [<-|H].
        -- destruct (split_head_prefix _ _ _ _ E) as [b Hb].
           rewrite Hb. apply (occurs_in_prefix (c :: l)).
        -- eapply occurs_in_trans; [exact (IH _ (or_intror H))|].
           apply (occurs_in_suffix [c]).
Qed.

Lemma match_here_rest (re : RegExp) (p q m : jsstring) (g : option jsstring) :
  match_here re p q = Some (m, g) ->
  exists e, rmatch (reflags re) (pattern re) {| pre := p; post := q; cap := None |} Some
            = Some e
            /\ skipn (length m) q = post e.
Proof.
  intros H. pose proof (match_here_prefix _ _ _ _ _ H) as Hq.
  unfold match_here in H.
  destruct (rmatch _ _ _ _) as [e|] eqn:Hr; [|discriminate].
  inversion H; subst. exists e. split; [reflexivity|].
  destruct (rmatch_sound _ _ _ _ _ Hr) as (st' & x & Hk & [Hx _] & _).
  inversion Hk; subst. cbn [post] in Hx.
  rewrite (consumed_prefix _ e x) by exact Hx.
  rewrite Hx at 1. now rewrite skipn_app, Nat.sub_diag, skipn_all.
Qed.

Lemma trailing_asterisks_occurs (s : jsstring) :
  occurs_in (replace re_trailing_asterisks [] s) s.
Proof.
  unfold replace, exec.
  destruct (search re_trailing_asterisks [] s) as [f|] eqn:E;
    [|apply occurs_in_refl].
  destruct (search_found_at _ _ _ _ E) as (p' & q' & He & Hb & Hm & Ha).
  destruct (match_here_rest _ _ _ _ _ Hm) as (e & Hr & Hs).
  unfold re_trailing_asterisks in Hr. cbn [pattern reflags seq] in Hr.
  destruct (seq_sound _ _ _ _ _ _ Hr) as (st1 & ? & H1 & _).
  destruct (seq_sound _ _ _ _ _ _ H1) as (st2 & ? & H2 & _).
  destruct (seq_sound _ _ _ _ _ _ H2) as (st3 & ? & H3 & _).
  cbn [rmatch] in H3. destruct (post st3) as [|c u] eqn:Ep; [|discriminate].
  inversion H3; subst e. rewrite Ha, Hs, Ep, Hb.
  cbn [rev app] in He. rewrite He. cbn [app]. rewrite app_nil_r.
  apply occurs_in_prefix.
Qed.

Lemma clean_followUp_occurs (content : jsstring) :
  occurs_in (clean_followUp content) content.
Proof.
  unfold clean_followUp.
  eapply occurs_in_trans;
    [apply (replace_anchored_occurs re_h3 (Seq (Lit (js "###")) (plus CSpace)));
     reflexivity|].
  eapply occurs_in_trans; [apply trim_occurs|].
  eapply occurs_in_trans; [apply trailing_asterisks_occurs|].
  apply (replace_anchored_occurs re_leading_asterisks
           (Seq (star CSpace) (Seq (plus (COne asterisk)) (star CSpace))));
    reflexivity.
Qed.

Lemma bullet_marker_occurs (s : jsstring) :
  occurs_in (replace re_bullet_marker [] s) s.
Proof.
  apply (replace_anchored_occurs re_bullet_marker (Seq (Cls bullets) (plus CSpace)));
    reflexivity.
Qed.

Lemma number_marker_occurs (s : jsstring) :
  occurs_in (replace re_number_marker [] s) s.
Proof.
  apply (replace_anchored_occurs re_number_marker
           (Seq (plus CDigit) (Seq (Lit [dot]) (plus CSpace)))); reflexivity.
Qed.

Lemma clean_match_occurs (point : jsstring) : occurs_in (clean_match point) point.
Proof.
  unfold clean_match.
  eapply occurs_in_trans; [apply trim_occurs|].
  eapply occurs_in_trans;
    [apply (replace_anchored_occurs re_leading_newlines (plus (COne LF)));
     reflexivity|].
  eapply occurs_in_trans; [apply number_marker_occurs|apply bullet_marker_occurs].
Qed.

Lemma clean_line_occurs (point : jsstring) : occurs_in (clean_line point) point.
Proof.
  unfold clean_line.
  eapply occurs_in_trans; [apply number_marker_occurs|].
  eapply occurs_in_trans; [apply bullet_marker_occurs|apply trim_occurs].
Qed.

Lemma cleanedContent_occurs (content : jsstring) :
  occurs_in (cleanedContent content) content.
Proof.
  unfold cleanedContent.
  eapply occurs_in_trans; [apply trim_occurs|].
  apply (replace_anchored_occurs re_leading_artifact
           (Seq (star CSpace) (Seq (Cls bullets) (star CSpace)))); reflexivity.
Qed.

Lemma list_items_occur (content : jsstring) :
  Forall (fun item => occurs_in item content) (list_items content).
Proof.
  rewrite list_items_cases. cbv zeta.
  pose proof (cleanedContent_occurs content) as Hc.
  set (cleaned := cleanedContent content) in *.
  assert (Hpts : Forall (fun item => occurs_in item cleaned) (split_points cleaned)).
  { unfold split_points.
    destruct (is_some (bulletMatch cleaned) || is_some (numberedMatch cleaned)).
    - apply Forall_forall. intros x Hx. apply in_map_iff in Hx.
      destruct Hx as (y & <- & Hy).
      eapply occurs_in_trans; [apply clean_match_occurs|].
      apply in_app_or in Hy. destruct Hy as [Hy|Hy];
        exact (match_all_occur _ _ _ Hy).
    - destruct (includes LF cleaned).
      + apply Forall_forall. intros x Hx. apply filter_In in Hx.
        destruct Hx as [Hx _]. apply in_map_iff in Hx.
        destruct Hx as (y & <- & Hy).
        eapply occurs_in_trans; [apply clean_line_occurs|].
        exact (split_occur _ _ _ Hy).
      + constructor; [apply occurs_in_refl|constructor]. }
  destruct (post_filter (split_points cleaned)) as [|i l] eqn:E.
  - constructor; [|constructor].
    eapply occurs_in_trans; [apply bullet_marker_occurs|exact Hc].
  - rewrite <- E. apply Forall_forall. intros x Hx.
    unfold post_filter in Hx. apply filter_In in Hx. destruct Hx as [Hx _].
    apply filter_In in Hx. destruct Hx as [Hx _].
    eapply occurs_in_trans; [|exact Hc].
    now apply (proj1 (Forall_forall _ _) Hpts).
Qed.

(** X8: the parser selects text and invents none: every item of the three
    lists, and the follow-up question, is a contiguous piece of the
    evaluation text. *)
Theorem lists_and_followUp_come_from_the_text (evaluation : jsstring) :
  let r := parseEvaluationResponse evaluation in
  Forall (fun item => occurs_in item evaluation) (strengths r)
  /\ Forall (fun item => occurs_in item evaluation) (improvements r)
  /\ Forall (fun item => occurs_in item evaluation) (missedPoints r)
  /\ occurs_in (followUp r) evaluation.
Proof.
  cbv zeta. rewrite parse_fields.
  cbn [strengths improvements missedPoints followUp].
  assert (Hl : forall re,
             Forall (fun item => occurs_in item evaluation)
               match section_content re evaluation with
               | Some content => list_items content
               | None => []
               end).
  { intros re. destruct (section_content re evaluation) as [c|] eqn:E;
      [|constructor].
    eapply Forall_impl; [|apply list_items_occur].
    intros item Hi. eapply occurs_in_trans; [exact Hi|].
    exact (section_content_occurs _ _ _ E). }
  repeat split; try apply Hl.
  destruct (section_content followUp_re evaluation) as [c|] eqn:E.
  - eapply occurs_in_trans; [apply clean_followUp_occurs|].
    exact (section_content_occurs _ _ _ E).
  - now exists [], evaluation.
Qed.

(** ** The ideal-response section *)

Lemma maybe_sound (fl : flags) (c : char) (st : mstate) (k : cont) (e : mstate) :
  rmatch fl (maybe c) st k = Some e ->
  exists st' x, k st' = Some e /\ reaches st st' x /\ cap st' = cap st
                /\ (length x <= 1)%nat.
Proof.
  unfold maybe. cbn [rmatch]. destruct st as [p q cp]. cbn [pre post cap].
  assert (Hhere : k {| pre := p; post := q; cap := cp |} = Some e ->
          exists st' x, k st' = Some e
            /\ reaches {| pre := p; post := q; cap := cp |} st' x
            /\ cap st' = cp /\ (length x <= 1)%nat).
  { intros H. exists {| pre := p; post := q; cap := cp |}, [].
    split; [exact H|]. split; [apply reaches_refl|]. split; [reflexivity|].
    cbn [length]. lia. }
  destruct q as [|a t]; cbn [match_rep]; [exact Hhere|].
  destruct (charset_mem (COne c) a && below (Some 1%nat)); [|exact Hhere].
  assert (Hin : match_rep true (COne c) 0 (dec (Some 1%nat)) cp k (a :: p) t
                = k {| pre := a :: p; post := t; cap := cp |}).
  { destruct t as [|b t']; cbn [match_rep dec Nat.pred below]; [reflexivity|].
    now rewrite andb_false_r. }
  rewrite Hin.
  destruct (k {| pre := a :: p; post := t; cap := cp |}) as [r|] eqn:E;
    [|exact Hhere].
  intros H. inversion H; subst r.
  exists {| pre := a :: p; post := t; cap := cp |}, [a].
  split; [exact E|]. split; [now split|]. split; [reflexivity|].
  cbn [length]. lia.
Qed.

Lemma ideal_words_sound (fl : flags) (st : mstate) (k : cont) (e : mstate) :
  rmatch fl (words ["Ideal Response"; "Example Answer"; "Model Answer"]) st k
  = Some e ->
  exists st' x, k st' = Some e /\ reaches st st' x /\ cap st' = cap st
                /\ (length x <= 14)%nat.
Proof.
  unfold words. cbn [map alts rmatch].
  assert (Hl : forall s, (length s <= 14)%nat ->
               match_lit fl s st k = Some e ->
               exists st' x, k st' = Some e /\ reaches st st' x
                 /\ cap st' = cap st /\ (length x <= 14)%nat).
  { intros s Hs H.
    destruct (match_lit_sound _ _ _ _ _ H) as (st' & x & Hk & Hr & Hc & Hx).
    exists st', x. repeat (split; [assumption|]).
    now rewrite Hx. }
  destruct (match_lit fl (js "Ideal Response") st k) eqn:E1.
  { intros H. inversion H; subst. eapply Hl; [|exact E1]; vm_compute; lia. }
  destruct (match_lit fl (js "Example Answer") st k) eqn:E2.
  { intros H. inversion H; subst. eapply Hl; [|exact E2]; vm_compute; lia. }
  intros H. eapply Hl; [|exact H]; vm_compute; lia.
Qed.

(** The shape of a match of the ideal-response pattern: a heading of at most
    fourteen characters, at most one colon, a run of white space, and then
    the group, which is all the rest of the input. *)
Lemma ideal_match_shape (p q m : jsstring) (g : option jsstring) :
  match_here idealResponse_re p q = Some (m, g) ->
  exists h w rest, q = h ++ w ++ rest /\ g = Some rest
                   /\ (length h <= 15)%nat /\ forallb is_space w = true.
Proof.
  unfold match_here.
  destruct (rmatch _ _ _ _) as [e|] eqn:H; [|discriminate].
  intros E. inversion E; subst m g. clear E.
  unfold idealResponse_re, section_re in H.
  cbn [pattern reflags seq map app alts] in H.
  cbn [rmatch] in H.
  destruct (ideal_words_sound _ _ _ _ H) as (st1 & x1 & H1 & [R1 _] & _ & L1).
  destruct (maybe_sound _ _ _ _ _ H1) as (st2 & x2 & H2 & [R2 _] & _ & L2).
  destruct (match_rep_sound _ _ _ _ _ _ _ _ _ H2)
    as (st3 & x3 & H3 & [R3 _] & _ & W3 & _).
  destruct (match_rep_sound _ _ _ _ _ _ _ _ _ H3)
    as (st4 & x4 & H4 & [R4 _] & _ & _ & _).
  cbn [pre post cap] in *.
  destruct (post st4) as [|c u] eqn:E4; [|discriminate].
  inversion H4; subst e. cbn [cap].
  rewrite app_nil_r in R4.
  exists (x1 ++ x2), x3, (post st3). split.
  - rewrite R1, R2, R3. now rewrite <- app_assoc.
  - split.
    + f_equal. apply consumed_prefix. now rewrite E4, app_nil_r.
    + split; [rewrite length_app; lia|exact W3].
Qed.


(** ** The ideal response appended by [evaluateAnswer] *)

Lemma lit_eq_refl (fl : flags) (x : char) : lit_eq fl x x = true.
Proof. unfold lit_eq. destruct (ignoreCase fl); apply N.eqb_refl. Qed.

(** A literal matches itself. *)
Lemma match_lit_self (fl : flags) (k : cont) (t : jsstring) (c : option jsstring) :
  forall s p,
  match_lit fl s {| pre := p; post := s ++ t; cap := c |} k
  = k {| pre := rev s ++ p; post := t; cap := c |}.
Proof.
  induction s as [|x s IH]; intros p; [reflexivity|].
  cbn [match_lit app post pre cap]. rewrite lit_eq_refl, IH.
  cbn [rev]. now rewrite <- app_assoc.
Qed.

(** A greedy star cannot fail when what follows it cannot. *)
Lemma greedy_star_total (cs : charset) (k : cont) (c : option jsstring) :
  (forall st, k st <> None) ->
  forall q p, match_rep true cs 0 None c k p q <> None.
Proof.
  intros Hk. induction q as [|x t IH]; intros p; cbn [match_rep]; [apply Hk|].
  destruct (charset_mem cs x && below None); [|apply Hk].
  cbn [dec]. destruct (match_rep true cs 0 None c k (x :: p) t) eqn:E;
    [discriminate|]. now apply IH in E.
Qed.

(** A lazy [[\s\S]*?] reaches the end of the input if nothing stops it
    before. *)
Lemma lazy_any_total (k : cont) (c : option jsstring) :
  (forall p, k {| pre := p; post := []; cap := c |} <> None) ->
  forall q p, match_rep false CAny 0 None c k p q <> None.
Proof.
  intros Hk. induction q as [|x t IH]; intros p; cbn [match_rep]; [apply Hk|].
  cbn [charset_mem below andb dec].
  destruct (k {| pre := p; post := x :: t; cap := c |}); [discriminate|].
  apply IH.
Qed.

(** The ideal-response pattern matches at the heading that is appended. *)
Lemma ideal_heading_matches (p ideal : jsstring) :
  match_here idealResponse_re p (js "Ideal Response" ++ LF :: ideal) <> None.
Proof.
  unfold match_here.
  destruct (rmatch _ _ _ _) as [e|] eqn:H; [discriminate|]. exfalso.
  unfold idealResponse_re, section_re in H.
  cbn [pattern reflags seq map app alts words] in H.
  cbn [rmatch] in H.
  rewrite match_lit_self in H.
  destruct (rmatch flag_i (maybe colon) _ _) eqn:E; [discriminate|].
  clear H. unfold maybe in E. cbn [rmatch pre post cap match_rep] in E.
  change (charset_mem (COne colon) LF) with false in E. cbn [andb] in E.
  unfold star in E. cbn [rmatch pre post cap] in E.
  revert E. apply greedy_star_total. intros st.
  unfold lazy_star. cbn [rmatch]. apply lazy_any_total. intros p0.
  cbn [pre post cap]. discriminate.
Qed.

(** The leftmost match is not to the right of any position with a match. *)
Lemma search_leftmost (re : RegExp) (b : jsstring) :
  forall a p,
  match_here re (rev a ++ p) b <> None ->
  exists f a1 a2, search re p (a ++ b) = Some f
                  /\ a = a1 ++ a2
                  /\ match_here re (rev a1 ++ p) (a2 ++ b)
                     = Some (f_text f, f_group f).
Proof.
  induction a as [|c a IH]; intros p H.
  - cbn [rev app] in *.
    destruct (match_here re p b) as [[m g]|] eqn:E; [|contradiction].
    exists {| f_before := rev p; f_text := m; f_group := g;
              f_after := skipn (length m) b |}, [], [].
    split; [|split; [reflexivity|exact E]].
    destruct b; [cbn [search]|rewrite search_cons]; now rewrite E.
  - cbn [app]. rewrite search_cons.
    destruct (match_here re p (c :: a ++ b)) as [[m g]|] eqn:E.
    + eexists _, [], (c :: a). split; [reflexivity|].
      split; [reflexivity|exact E].
    + cbn [rev] in H. rewrite <- app_assoc in H. cbn [app] in H.
      destruct (IH _ H) as (f & a1 & a2 & Hs & Ha & Hm).
      exists f, (c :: a1), a2. split; [exact Hs|]. split; [now rewrite Ha|].
      cbn [rev]. rewrite <- app_assoc. exact Hm.
Qed.

Lemma trim_start_app (u v : jsstring) :
  trim_start u <> [] -> trim_start (u ++ v) = trim_start u ++ v.
Proof.
  induction u as [|c u IH]; intros H; [now contradiction H|].
  cbn [app trim_start] in *. destruct (is_space c); [now apply IH|reflexivity].
Qed.

Lemma trim_start_before (z : jsstring) (d : char) (y : jsstring) :
  is_space d = false -> exists z', trim_start (z ++ d :: y) = z' ++ d :: y.
Proof.
  intros Hd. induction z as [|c z [z' IH]].
  - exists []. cbn [app trim_start]. now rewrite Hd.
  - cbn [app trim_start]. destruct (is_space c).
    + now exists z'.
    + now exists (c :: z).
Qed.

(** Trimming a text that ends with a text that is not blank. *)
Lemma trim_ends_with (z s : jsstring) :
  trim s <> [] -> ends_with (trim s) (trim (z ++ s)).
Proof.
  intros H. unfold trim in *.
  destruct (trim_start_suffix s) as [w Hw].
  destruct (trim_start s) as [|d y] eqn:Es; [now contradiction H|].
  assert (Hd : is_space d = false).
  { pose proof (trim_start_no_lead s) as Hl. now rewrite Es in Hl. }
  rewrite Hw, app_assoc.
  destruct (trim_start_before (z ++ w) d y Hd) as [z' ->].
  exists z'. unfold trim_end in *. rewrite rev_app_distr.
  rewrite trim_start_app.
  - now rewrite rev_app_distr, rev_involutive.
  - intros E. apply H. now rewrite E.
Qed.

(** Where a run of white space may end. *)
Lemma rest_after_spaces (X h w rest ws : jsstring) (d : char) (y : jsstring) :
  X ++ ws ++ d :: y = h ++ w ++ rest ->
  (length h <= length X)%nat ->
  forallb is_space w = true -> is_space d = false ->
  exists z, rest = z ++ d :: y.
Proof.
  intros E Hlen Hw Hd.
  assert (E' : exists l, w ++ rest = l ++ d :: y).
  { apply app_eq_app in E. destruct E as [l [[E1 E2]|[E1 E2]]].
    - exists (l ++ ws). now rewrite <- app_assoc.
    - apply (f_equal (@length _)) in E1. rewrite length_app in E1.
      destruct l; [|cbn [length] in E1; lia].
      exists ws. now rewrite E2. }
  destruct E' as [l E']. apply app_eq_app in E'.
  destruct E' as [l' [[E1 E2]|[E1 E2]]].
  - destruct l' as [|x l'].
    + exists []. now rewrite E2.
    + exfalso. cbn [app] in E2. inversion E2; subst x.
      rewrite E1, forallb_app in Hw. cbn [forallb] in Hw.
      rewrite Hd, andb_false_r in Hw. discriminate.
  - now exists l'.
Qed.

(** The appended ideal response is found by the parser. *)
Lemma appended_section_found (text ideal : jsstring) :
  trim ideal <> [] ->
  exists content,
    section_content idealResponse_re (text ++ ideal_heading ++ ideal)
    = Some content
    /\ ends_with (trim ideal) content.
Proof.
  intros Hi.
  pose proof (ideal_heading_matches (rev (text ++ LF :: LF :: js "### ")) ideal)
    as Hm.
  rewrite <- (app_nil_r (rev _)) in Hm.
  destruct (search_leftmost _ _ _ _ Hm) as (f & a1 & a2 & Hs & Ha & Hf).
  destruct (ideal_match_shape _ _ _ _ Hf) as (h & w & rest & Hq & Hg & Hh & Hw).
  assert (He : text ++ ideal_heading ++ ideal
               = (text ++ LF :: LF :: js "### ")
                 ++ js "Ideal Response" ++ LF :: ideal).
  { unfold ideal_heading. rewrite <- !app_assoc. reflexivity. }
  destruct (trim_start_suffix ideal) as [ws Hws].
  assert (Hb : trim_start ideal <> []).
  { intros E. apply Hi. unfold trim. now rewrite E. }
  destruct (trim_start ideal) as [|d y] eqn:Eb; [now contradiction Hb|].
  assert (Hd : is_space d = false).
  { pose proof (trim_start_no_lead ideal) as Hl. now rewrite Eb in Hl. }
  assert (Ht : trim ideal = trim (d :: y)).
  { unfold trim. rewrite Eb. cbn [trim_start]. now rewrite Hd. }
  assert (Hrest : exists z, rest = z ++ d :: y).
  { apply (rest_after_spaces (a2 ++ js "Ideal Response" ++ [LF]) h w rest ws);
      [|rewrite !length_app; change (length (js "Ideal Response")) with 14%nat;
        cbn [length]; lia|exact Hw|exact Hd].
    rewrite <- Hq, <- Hws, <- !app_assoc. reflexivity. }
  destruct Hrest as [z Hz].
  destruct (trim_ends_with z (d :: y)) as [z' Hz']; [now rewrite <- Ht|].
  exists (trim rest). split.
  - unfold section_content, exec. rewrite He, Hs, Hg.
    replace (nonempty rest) with true by (rewrite Hz; now destruct z).
    replace (nonempty (trim rest)) with true; [reflexivity|].
    rewrite Hz, Hz', <- Ht. destruct (trim ideal); [now contradiction Hi|].
    now destruct z'.
  - exists z'. now rewrite Hz, Hz', Ht.
Qed.

(** X10: when [evaluateAnswer] asks for an ideal response and is given one
    that is not blank, the text it returns is the evaluation, the heading
    "### Ideal Response" and the ideal response, and the parser finds in it an
    ideal-response section that ends with the ideal response, trimmed. *)
Theorem evaluateAnswer_result_holds_ideal_response
  (ok : bool) (data supplement : ApiQuestionResponse) (text ideal : jsstring) :
  truthy (error data) = false ->
  response data = Some text -> text <> [] ->
  idealResponse (parseEvaluationResponse text) = [] ->
  greater_than_zero (score (parseEvaluationResponse text)) = true ->
  response supplement = Some ideal -> trim ideal <> [] ->
  exists content,
    evaluateAnswer (Answer true data) (Answer ok supplement)
    = Some (text ++ ideal_heading ++ ideal)
    /\ section_content idealResponse_re (text ++ ideal_heading ++ ideal)
       = Some content
    /\ ends_with (trim ideal) content.
Proof.
  intros Herr Hdata Htext Hno Hscore Hsup Hideal.
  destruct (appended_section_found text ideal Hideal) as (content & Hc & He).
  exists content. split; [|now split].
  unfold evaluateAnswer. cbn [negb]. rewrite Herr, Hdata.
  destruct text as [|c t]; [now contradiction Htext|].
  cbv zeta. rewrite Hno, Hscore. cbn [nonempty negb andb]. rewrite Hsup.
  destruct ideal as [|c' t']; [now contradiction Hideal|]. reflexivity.
Qed.

Lemma evaluateAnswer_result_holds_ideal_response_witness :
  exists content,
    evaluateAnswer
      (Answer true {| response := Some (js "Score: 3/5"); error := None |})
      (Answer true {| response := Some (js "Use a heap."); error := None |})
    = Some (js "Score: 3/5" ++ ideal_heading ++ js "Use a heap.")
    /\ section_content idealResponse_re
         (js "Score: 3/5" ++ ideal_heading ++ js "Use a heap.")
       = Some content
    /\ ends_with (trim (js "Use a heap.")) content.
Proof.
  apply evaluateAnswer_result_holds_ideal_response;
    try (vm_compute; reflexivity); vm_compute; discriminate.
Defined.

(** A score too small for binary64 is 0 to the code: no ideal response is
    asked for, and the evaluation is returned alone. *)
Lemma evaluateAnswer_score_rounded_to_zero :
  evaluateAnswer
    (Answer true {| response := Some (js "Score: 0." ++ repeat 48 330 ++ js "1");
                    error := None |})
    (Answer true {| response := Some (js "Use a heap."); error := None |})
  = Some (js "Score: 0." ++ repeat 48 330 ++ js "1").
Proof. vm_compute. reflexivity. Qed.

(** X11: [evaluateAnswer] returns null unless the server answered well with
    an evaluation that is not empty, and a text it returns starts with that
    evaluation: nothing of the evaluation is lost. *)
Theorem evaluateAnswer_keeps_evaluation (evaluation ideal : fetched) (r : jsstring) :
  evaluateAnswer evaluation ideal = Some r ->
  exists data text rest,
    evaluation = Answer true data
    /\ truthy (error data) = false
    /\ response data = Some text
    /\ text <> []
    /\ r = text ++ rest.
Proof.
  unfold evaluateAnswer.
  destruct evaluation as [|[] data]; cbn [negb]; try discriminate.
  destruct (truthy (error data)) eqn:Ee; [discriminate|].
  destruct (response data) as [[|c t]|] eqn:Er; try discriminate.
  cbv zeta. intros H.
  assert (Hr : exists rest, r = (c :: t) ++ rest).
  { destruct (negb _ && _).
    - destruct ideal as [|ok2 d2].
      + exists []. inversion H. now rewrite app_nil_r.
      + destruct (response d2) as [[|c' t']|]; inversion H;
          try (exists []; now rewrite app_nil_r).
        now exists (ideal_heading ++ c' :: t').
    - exists []. inversion H. now rewrite app_nil_r. }
  destruct Hr as [rest Hr].
  exists data, (c :: t), rest. repeat (split; [reflexivity || assumption|]).
  split; [discriminate|exact Hr].
Qed.

Lemma evaluateAnswer_keeps_evaluation_witness :
  exists data text rest,
    Answer true {| response := Some (js "Score: 0/5"); error := None |}
    = Answer true data
    /\ truthy (error data) = false
    /\ response data = Some text
    /\ text <> []
    /\ js "Score: 0/5" = text ++ rest.
Proof.
  apply (evaluateAnswer_keeps_evaluation _ Failed). vm_compute. reflexivity.
Defined.

(** ** Headings, the case of letters apart *)

Lemma starts_with_ci_app (s x r : jsstring) :
  map canonicalize x = map canonicalize s -> starts_with_ci s (x ++ r) = true.
Proof.
  revert x. induction s as [|a s IH]; intros x H; [reflexivity|].
  destruct x as [|c x]; [discriminate|]. cbn [map] in H. inversion H.
  cbn [app starts_with_ci]. rewrite (IH x) by assumption.
  rewrite andb_true_r. apply N.eqb_eq. assumption.
Qed.

Lemma starts_with_ci_split (s q : jsstring) :
  starts_with_ci s q = true ->
  exists x r, q = x ++ r /\ map canonicalize x = map canonicalize s.
Proof.
  revert q. induction s as [|a s IH]; intros q H; [now exists [], q|].
  destruct q as [|c q]; [discriminate|]. cbn [starts_with_ci] in H.
  apply andb_true_iff in H. destruct H as [Hc Hs]. apply N.eqb_eq in Hc.
  destruct (IH q Hs) as (x & r & -> & Hx).
  exists (c :: x), r. split; [reflexivity|]. cbn [map]. now rewrite Hc, Hx.
Qed.

Lemma mentions_at (w a q : jsstring) :
  starts_with_ci w q = true -> mentions w (a ++ q) = true.
Proof.
  intros H. induction a as [|c a IH].
  - destruct q; cbn [app mentions]; now rewrite H.
  - cbn [app mentions]. rewrite IH. apply orb_true_r.
Qed.

(** Under the [i] flag a literal matches a text that is equal to it, the
    case of letters apart, and no other. *)
Lemma match_lit_ci (fl : flags) (s : jsstring) :
  ignoreCase fl = true ->
  forall st k e, match_lit fl s st k = Some e ->
  exists st' x, k st' = Some e /\ reaches st st' x /\ cap st' = cap st
                /\ map canonicalize x = map canonicalize s.
Proof.
  intros Hi. induction s as [|a s IH]; intros st k e H.
  - exists st, []. split; [exact H|]. split; [apply reaches_refl|now split].
  - cbn [match_lit] in H. destruct (post st) as [|c t] eqn:Ep; [discriminate|].
    unfold lit_eq in H. rewrite Hi in H.
    destruct (canonicalize c =? canonicalize a) eqn:Ec; [|discriminate].
    apply N.eqb_eq in Ec.
    destruct (IH _ _ _ H) as (st' & x & Hk & [Hq Hp] & Hc & Hx).
    cbn [pre post cap] in *. exists st', (c :: x). split; [exact Hk|].
    split; [|split; [exact Hc|cbn [map]; now rewrite Ec, Hx]]. split.
    + now rewrite Ep, Hq.
    + rewrite Hp. cbn [rev]. now rewrite <- app_assoc.
Qed.

Lemma match_lit_ci_complete (fl : flags) (k : cont) (c : option jsstring)
  (s x r : jsstring) :
  ignoreCase fl = true -> map canonicalize x = map canonicalize s ->
  forall p, match_lit fl s {| pre := p; post := x ++ r; cap := c |} k
            = k {| pre := rev x ++ p; post := r; cap := c |}.
Proof.
  intros Hi. revert x. induction s as [|a s IH]; intros x H p.
  - destruct x; [reflexivity|discriminate].
  - destruct x as [|y x]; [discriminate|]. cbn [map] in H. inversion H.
    cbn [match_lit app post pre cap]. unfold lit_eq. rewrite Hi.
    replace (canonicalize y =? canonicalize a) with true
      by (symmetry; now apply N.eqb_eq).
    rewrite IH by assumption. cbn [rev]. now rewrite <- app_assoc.
Qed.

(** The alternatives of a list of words. *)
Lemma words_match (fl : flags) (k : cont) (e : mstate) (l : list string) :
  ignoreCase fl = true -> l <> [] ->
  forall st, rmatch fl (words l) st k = Some e ->
  exists w st' x, In w l /\ k st' = Some e /\ reaches st st' x
                  /\ cap st' = cap st
                  /\ map canonicalize x = map canonicalize (js w).
Proof.
  intros Hi. unfold words.
  induction l as [|w l IH]; intros Hl st H; [now contradiction Hl|].
  destruct l as [|w2 l].
  - cbn [map alts rmatch] in H.
    destruct (match_lit_ci _ _ Hi _ _ _ H) as (st' & x & Hk & Hr & Hc & Hx).
    exists w, st', x. split; [now left|].
      split; [exact Hk|]. split; [exact Hr|]. split; [exact Hc|exact Hx].
  - cbn [map alts] in H.
    change (rmatch fl (Alt (Lit (js w))
                         (alts (Lit (js w2) :: map (fun s => Lit (js s)) l)))
              st k = Some e) in H.
    cbn [rmatch] in H.
    destruct (match_lit fl (js w) st k) as [r|] eqn:E.
    + inversion H; subst r.
      destruct (match_lit_ci _ _ Hi _ _ _ E) as (st' & x & Hk & Hr & Hc & Hx).
      exists w, st', x. split; [now left|].
      split; [exact Hk|]. split; [exact Hr|]. split; [exact Hc|exact Hx].
    + assert (Hne : w2 :: l <> []) by discriminate.
      destruct (IH Hne st H) as (w' & st' & x & Hin & Hrest).
      exists w', st', x. split; [now right|exact Hrest].
Qed.

Lemma words_complete (fl : flags) (k : cont) (l : list string) (w : string) :
  ignoreCase fl = true -> (forall st, k st <> None) -> In w l ->
  forall st, starts_with_ci (js w) (post st) = true ->
  rmatch fl (words l) st k <> None.
Proof.
  intros Hi Hk. unfold words.
  assert (Hlit : forall v st, starts_with_ci (js v) (post st) = true ->
                 match_lit fl (js v) st k <> None).
  { intros v [p q c] Hs. cbn [post] in Hs.
    destruct (starts_with_ci_split _ _ Hs) as (x & r & -> & Hx).
    rewrite (match_lit_ci_complete fl k c _ x r Hi Hx). apply Hk. }
  induction l as [|v l IH]; intros Hin st Hs; [now contradiction Hin|].
  destruct l as [|v2 l].
  - destruct Hin as [->|[]]. cbn [map alts rmatch]. now apply Hlit.
  - cbn [map alts].
    change (rmatch fl (Alt (Lit (js v))
                         (alts (Lit (js v2) :: map (fun s => Lit (js s)) l)))
              st k <> None).
    cbn [rmatch].
    destruct (match_lit fl (js v) st k) as [r|] eqn:E; [discriminate|].
    destruct Hin as [->|Hin]; [now apply Hlit in Hs|]. now apply IH.
Qed.

(** A greedy star before something that cannot fail takes all it can. *)
Lemma greedy_star_maximal (cs : charset) (k : cont) (c : option jsstring)
  (e : mstate) :
  (forall st, k st <> None) ->
  forall q p, match_rep true cs 0 None c k p q = Some e ->
  exists x r, q = x ++ r /\ forallb (charset_mem cs) x = true
              /\ match r with
                 | a :: _ => charset_mem cs a = false
                 | [] => True
                 end
              /\ k {| pre := rev x ++ p; post := r; cap := c |} = Some e.
Proof.
  intros Hk. induction q as [|a t IH]; intros p H.
  - cbn [match_rep] in H. now exists [], [].
  - cbn [match_rep below dec] in H. rewrite andb_true_r in H.
    destruct (charset_mem cs a) eqn:Ha.
    + destruct (match_rep true cs 0 None c k (a :: p) t) as [r0|] eqn:E;
        [|now apply (greedy_star_total cs k c Hk) in E].
      inversion H; subst r0.
      destruct (IH _ E) as (x & r & -> & Hx & Hr & He).
      exists (a :: x), r. split; [reflexivity|].
      split; [cbn [forallb]; now rewrite Ha|]. split; [exact Hr|].
      cbn [rev]. now rewrite <- app_assoc.
    + exists [], (a :: t). split; [reflexivity|]. split; [reflexivity|].
      split; [exact Ha|exact H].
Qed.

(** An optional character before something that cannot fail is taken when
    it is there. *)
Lemma maybe_greedy (fl : flags) (c : char) (st : mstate) (k : cont) (e : mstate) :
  (forall st, k st <> None) ->
  rmatch fl (maybe c) st k = Some e ->
  exists x r, post st = x ++ r
              /\ (x = [c] \/ (x = [] /\ hd_error r <> Some c))
              /\ k {| pre := rev x ++ pre st; post := r; cap := cap st |} = Some e.
Proof.
  intros Hk. unfold maybe. cbn [rmatch]. destruct st as [p q cp].
  cbn [pre post cap]. destruct q as [|a t]; cbn [match_rep].
  - intros H. exists [], []. split; [reflexivity|]. split; [|exact H].
    right. split; [reflexivity|discriminate].
  - cbn [charset_mem below andb]. rewrite andb_true_r.
    destruct (a =? c) eqn:Ea.
    + apply N.eqb_eq in Ea. subst a.
      assert (Hin : match_rep true (COne c) 0 (dec (Some 1%nat)) cp k (c :: p) t
                    = k {| pre := c :: p; post := t; cap := cp |}).
      { destruct t as [|b t']; cbn [match_rep dec Nat.pred below];
          [reflexivity|]. now rewrite andb_false_r. }
      rewrite Hin.
      destruct (k {| pre := c :: p; post := t; cap := cp |}) as [r0|] eqn:E;
        [|now apply Hk in E].
      intros H. inversion H; subst r0.
      exists [c], t. split; [reflexivity|]. split; [now left|exact E].
    + intros H. exists [], (a :: t). split; [reflexivity|]. split; [|exact H].
      right. split; [reflexivity|]. cbn [hd_error]. intros E. inversion E.
      subst a. now rewrite N.eqb_refl in Ea.
Qed.

Lemma maybe_total (fl : flags) (c : char) (k : cont) :
  (forall st, k st <> None) -> forall st, rmatch fl (maybe c) st k <> None.
Proof.
  intros Hk st. unfold maybe. cbn [rmatch].
  destruct (post st) as [|a t]; cbn [match_rep]; [apply Hk|].
  destruct (charset_mem (COne c) a && below (Some 1%nat)); [|apply Hk].
  destruct (match_rep true (COne c) 0 (dec (Some 1%nat)) (cap st) k
              (a :: pre st) t); [discriminate|apply Hk].
Qed.

(** The end of the ideal-response pattern: white space, and the group that
    runs to the end of the text. *)
Lemma ideal_tail_total (st : mstate) :
  rmatch flag_i
    (Seq (star CSpace) (Seq (Grp (lazy_star CAny)) (Ahead Eol))) st Some
  <> None.
Proof.
  unfold star. cbn [rmatch]. apply greedy_star_total. intros st'.
  apply lazy_any_total. intros p0. cbn [pre post cap]. discriminate.
Qed.

Lemma ideal_tail (st e : mstate) :
  rmatch flag_i
    (Seq (star CSpace) (Seq (Grp (lazy_star CAny)) (Ahead Eol))) st Some
  = Some e ->
  exists gap rest, post st = gap ++ rest /\ forallb is_space gap = true
                   /\ starts_with_space rest = false /\ cap e = Some rest.
Proof.
  unfold star. cbn [rmatch]. intros H.
  apply greedy_star_maximal in H;
    [|intros st'; apply lazy_any_total; intros p0; cbn [pre post cap];
      discriminate].
  destruct H as (gap & rest & Hq & Hgap & Hrest & H).
  cbn [pre post cap] in H.
  destruct (match_rep_sound _ _ _ _ _ _ _ _ _ H)
    as (st4 & y & H4 & [R4 _] & _ & _ & _).
  cbn [pre post cap] in *.
  destruct (post st4) as [|c u] eqn:E4; [|discriminate].
  inversion H4; subst e. cbn [cap].
  exists gap, rest. split; [exact Hq|]. split; [exact Hgap|]. split.
  - destruct rest; [reflexivity|exact Hrest].
  - f_equal. apply consumed_prefix. cbn [post]. now rewrite E4, app_nil_r.
Qed.

Lemma ideal_pattern :
  pattern idealResponse_re
  = Seq (Seq (words ideal_headings) (maybe colon))
        (Seq (star CSpace) (Seq (Grp (lazy_star CAny)) (Ahead Eol))).
Proof. reflexivity. Qed.

(** The parts of a match of the ideal-response pattern. *)
Lemma ideal_match_parts (p q m : jsstring) (g : option jsstring) :
  match_here idealResponse_re p q = Some (m, g) ->
  exists w heading colon_ gap rest,
    q = heading ++ colon_ ++ gap ++ rest
    /\ In w ideal_headings
    /\ map canonicalize heading = map canonicalize (js w)
    /\ (colon_ = [colon] \/ (colon_ = [] /\ hd_error (gap ++ rest) <> Some colon))
    /\ forallb is_space gap = true
    /\ starts_with_space rest = false
    /\ g = Some rest.
Proof.
  unfold match_here. rewrite ideal_pattern.
  destruct (rmatch _ _ _ _) as [e|] eqn:H; [|discriminate].
  intros E. inversion E; subst m g. clear E.
  change (rmatch flag_i (words ideal_headings)
            {| pre := p; post := q; cap := None |}
            (fun s1 => rmatch flag_i (maybe colon) s1
               (fun s2 => rmatch flag_i
                  (Seq (star CSpace) (Seq (Grp (lazy_star CAny)) (Ahead Eol)))
                  s2 Some)) = Some e) in H.
  apply words_match in H; [|reflexivity|discriminate].
  destruct H as (w & st1 & x & Hw & H1 & [R1 P1] & _ & Hx).
  apply maybe_greedy in H1; [|intros s; apply ideal_tail_total].
  destruct H1 as (c & r & Hc & Hcolon & H2).
  destruct (ideal_tail _ _ H2) as (gap & rest & Hr & Hgap & Hrest & Hcap).
  cbn [pre post cap] in *.
  exists w, x, c, gap, rest. split; [now rewrite R1, Hc, Hr|].
  split; [exact Hw|]. split; [exact Hx|]. split; [now rewrite <- Hr|].
  now repeat split.
Qed.

(** The pattern matches wherever one of its headings starts. *)
Lemma ideal_matches_at_heading (w : string) (p q : jsstring) :
  In w ideal_headings -> starts_with_ci (js w) q = true ->
  match_here idealResponse_re p q <> None.
Proof.
  intros Hw Hs. unfold match_here. rewrite ideal_pattern.
  destruct (rmatch _ _ _ _) as [e|] eqn:H; [discriminate|]. exfalso.
  change (rmatch flag_i (words ideal_headings)
            {| pre := p; post := q; cap := None |}
            (fun s1 => rmatch flag_i (maybe colon) s1
               (fun s2 => rmatch flag_i
                  (Seq (star CSpace) (Seq (Grp (lazy_star CAny)) (Ahead Eol)))
                  s2 Some)) = None) in H.
  revert H. apply (words_complete flag_i _ ideal_headings w); try assumption;
    try reflexivity.
  intros st. apply maybe_total. intros s. apply ideal_tail_total.
Qed.

(** A search finds the first position at which the pattern matches. *)
Lemma search_first (re : RegExp) (q : jsstring) :
  forall p f, search re p q = Some f ->
  exists a q', q = a ++ q'
               /\ match_here re (rev a ++ p) q' = Some (f_text f, f_group f)
               /\ forall a1 a2, a = a1 ++ a2 -> a2 <> [] ->
                                match_here re (rev a1 ++ p) (a2 ++ q') = None.
Proof.
  induction q as [|c t IH]; intros p f H.
  - cbn [search] in H. destruct (match_here re p []) as [[m g]|] eqn:E;
      [|discriminate]. inversion H; subst. exists [], []. split; [reflexivity|].
    split; [exact E|]. intros a1 a2 Ha Hn. destruct a1; destruct a2;
      try discriminate. now contradiction Hn.
  - rewrite search_cons in H.
    destruct (match_here re p (c :: t)) as [[m g]|] eqn:E.
    + inversion H; subst. exists [], (c :: t). split; [reflexivity|].
      split; [exact E|]. intros a1 a2 Ha Hn. destruct a1; destruct a2;
        try discriminate. now contradiction Hn.
    + destruct (IH (c :: p) f H) as (a & q' & -> & Hm & Hfirst).
      exists (c :: a), q'. split; [reflexivity|]. split.
      * cbn [rev]. now rewrite <- app_assoc.
      * intros a1 a2 Ha Hn. destruct a1 as [|x a1].
        -- cbn [app] in Ha. subst a2. cbn [rev app]. exact E.
        -- cbn [app] in Ha. inversion Ha; subst x.
           cbn [rev]. rewrite <- app_assoc. cbn [app]. now apply Hfirst.
Qed.

(** X9: the ideal-response section has no closing heading.  Its content is
    found at the first place of the evaluation where one of the headings of
    line 119 stands, in any case of letters: after the heading, a colon if
    there is one and all the white space that follows, it is the whole rest
    of the evaluation, trimmed. *)
Theorem ideal_section_runs_to_the_end (evaluation content : jsstring) :
  section_content idealResponse_re evaluation = Some content ->
  exists before w heading colon_ gap rest,
    evaluation = before ++ heading ++ colon_ ++ gap ++ rest
    /\ In w ideal_headings
    /\ map canonicalize heading = map canonicalize (js w)
    /\ (colon_ = [colon] \/ (colon_ = [] /\ hd_error (gap ++ rest) <> Some colon))
    /\ forallb is_space gap = true
    /\ starts_with_space rest = false
    /\ content = trim rest
    /\ forall a b v, before = a ++ b -> b <> [] -> In v ideal_headings ->
         starts_with_ci (js v) (b ++ heading ++ colon_ ++ gap ++ rest) = false.
Proof.
  unfold section_content, exec.
  destruct (search idealResponse_re [] evaluation) as [f|] eqn:E; [|discriminate].
  destruct (search_first _ _ _ _ E) as (before & q' & He & Hm & Hfirst).
  destruct (ideal_match_parts _ _ _ _ Hm)
    as (w & heading & colon_ & gap & rest & Hq & Hw & Hh & Hc & Hgap & Hrest & Hg).
  rewrite Hg.
  destruct (nonempty rest && nonempty (trim rest)); [|discriminate].
  intros H. inversion H; subst content.
  exists before, w, heading, colon_, gap, rest.
  split; [now rewrite He, Hq|]. do 5 (split; [assumption|]).
  split; [reflexivity|].
  intros a b v Ha Hb Hv.
  destruct (starts_with_ci (js v) _) eqn:Es; [|reflexivity]. exfalso.
  rewrite <- Hq in Es.
  apply (ideal_matches_at_heading v (rev a ++ [])) in Es; [|exact Hv].
  apply Es. now apply Hfirst.
Qed.

Lemma ideal_section_runs_to_the_end_witness :
  exists before w heading colon_ gap rest,
    unlines ["Score: 4/5"; "MODEL answer:  use a heap  "]
    = before ++ heading ++ colon_ ++ gap ++ rest
    /\ In w ideal_headings
    /\ map canonicalize heading = map canonicalize (js w)
    /\ (colon_ = [colon] \/ (colon_ = [] /\ hd_error (gap ++ rest) <> Some colon))
    /\ forallb is_space gap = true
    /\ starts_with_space rest = false
    /\ js "use a heap" = trim rest
    /\ forall a b v, before = a ++ b -> b <> [] -> In v ideal_headings ->
         starts_with_ci (js v) (b ++ heading ++ colon_ ++ gap ++ rest) = false.
Proof.
  apply ideal_section_runs_to_the_end. vm_compute. reflexivity.
Defined.

(** ** No error is thrown *)

Lemma checked_extract_score (evaluation : jsstring) (r : ParsedEvaluation) :
  Checked.extract_score evaluation r = Normal (extract_score evaluation r).
Proof.
  unfold Checked.extract_score, extract_score. cbv zeta.
  destruct (scoreMatch evaluation) as [m|]; [|reflexivity].
  cbn [is_some index1 bind]. now destruct (f_group m).
Qed.

(** The guard of line 125 passes exactly when the section has a content, and
    it throws nothing; behind it, neither do the accesses of line 126. *)
Lemma checked_extract_section (evaluation : jsstring) (r : ParsedEvaluation)
  (entry : key * RegExp) :
  Checked.extract_section evaluation (Normal r) entry
  = Normal (extract_section evaluation r entry).
Proof.
  destruct entry as [k regex].
  unfold Checked.extract_section, Checked.guard, extract_section, section_content.
  cbn [bind]. cbv zeta.
  destruct (exec regex evaluation) as [m|]; [|reflexivity].
  cbn [is_some index1 bind].
  destruct (f_group m) as [[|c g]|]; cbn [truthy trim_of bind nonempty andb];
    try reflexivity.
  destruct (trim (c :: g)) as [|c' t] eqn:Et; cbn [nonempty]; reflexivity.
Qed.

Lemma checked_sections (evaluation : jsstring) (l : list (key * RegExp)) :
  forall r,
  fold_left (Checked.extract_section evaluation) l (Normal r)
  = Normal (fold_left (extract_section evaluation) l r).
Proof.
  induction l as [|entry l IH]; intros r; [reflexivity|].
  cbn [fold_left]. now rewrite checked_extract_section, IH.
Qed.

Lemma checked_parse (evaluation : jsstring) :
  Checked.parseEvaluationResponse evaluation
  = Normal (parseEvaluationResponse evaluation).
Proof.
  unfold Checked.parseEvaluationResponse, parseEvaluationResponse.
  now rewrite checked_extract_score, checked_sections.
Qed.

(** ** Sections that are not there *)

(** A match of a section pattern starts with one of its headings. *)
Lemma heading_at_match (re : RegExp) (l : list string) (rest : regex)
  (p q : jsstring) (x : jsstring * option jsstring) :
  reflags re = flag_i -> l <> [] ->
  (pattern re = Seq (words l) rest
   \/ exists m, pattern re = Seq (Seq (words l) m) rest) ->
  match_here re p q = Some x ->
  existsb (fun w => starts_with_ci (js w) q) l = true.
Proof.
  intros Hf Hl Hp. unfold match_here. rewrite Hf.
  destruct (rmatch _ _ _ _) as [e|] eqn:H; [|discriminate]. intros _.
  assert (Hw : exists k, rmatch flag_i (words l)
                           {| pre := p; post := q; cap := None |} k = Some e).
  { destruct Hp as [Hp|[m Hp]]; rewrite Hp in H; cbn [rmatch] in H;
      eexists; exact H. }
  destruct Hw as [k Hw].
  apply words_match in Hw; [|reflexivity|exact Hl].
  destruct Hw as (w & st' & y & Hin & _ & [Hq _] & _ & Hy).
  cbn [post] in Hq. apply existsb_exists. exists w. split; [exact Hin|].
  rewrite Hq. now apply starts_with_ci_app.
Qed.

(** A section that yields a content has one of its headings in the text. *)
Lemma section_mentioned (evaluation content : jsstring) (k : key) (re : RegExp) :
  In (k, re) sections -> section_content re evaluation = Some content ->
  absent k evaluation = false.
Proof.
  intros Hin. unfold section_content, exec.
  destruct (search re [] evaluation) as [f|] eqn:E; [|discriminate]. intros _.
  destruct (search_found_at _ _ _ _ E) as (p' & q' & He & _ & Hm & _).
  cbn [rev app] in He.
  assert (Hs : existsb (fun w => starts_with_ci (js w) q') (headings k) = true).
  { unfold sections in Hin. cbn [In] in Hin.
    destruct Hin as [Hk|[Hk|[Hk|[Hk|[Hk|[]]]]]]; inversion Hk; subst k re;
      eapply heading_at_match; try exact Hm; try reflexivity; try discriminate;
      first [left; reflexivity|right; eexists; reflexivity]. }
  unfold absent. apply negb_false_iff.
  apply existsb_exists in Hs. destruct Hs as (w & Hw & Hs).
  apply existsb_exists. exists w. split; [exact Hw|].
  rewrite He. now apply mentions_at.
Qed.

(** A score is only read where the text has a digit. *)
Lemma scoreMatch_digit (evaluation : jsstring) (m : found) :
  scoreMatch evaluation = Some m ->
  existsb is_digit evaluation = true.
Proof.
  intros E.
  assert (Hg : exists p' q' d x,
             evaluation = rev p' ++ q'
             /\ (match_here re_score_label p' q' = Some (f_text m, Some (d :: x))
                 \/ match_here re_score_of_five p' q'
                    = Some (f_text m, Some (d :: x)))
             /\ is_digit d = true).
  { unfold scoreMatch, exec in E.
    destruct (search re_score_label [] evaluation) as [m1|] eqn:E1.
    - inversion E; subst m1.
      destruct (search_found_at _ _ _ _ E1) as (p' & q' & He & _ & H & _).
      destruct (score_label_group _ _ _ _ H) as (d & x & Hg & Hd).
      exists p', q', d, x. rewrite Hg in H. now repeat split; [|left|].
    - destruct (search_found_at _ _ _ _ E) as (p' & q' & He & _ & H & _).
      destruct (score_of_five_group _ _ _ _ H) as (d & x & Hg & Hd).
      exists p', q', d, x. rewrite Hg in H. now repeat split; [|right|]. }
  destruct Hg as (p' & q' & d & x & He & Hm & Hd).
  assert (Ho : occurs_in (d :: x) q')
    by (destruct Hm as [Hm|Hm]; exact (match_here_group_occurs _ _ _ _ _ Hm)).
  destruct Ho as (a & b & Hq). apply existsb_exists. exists d.
  split; [|exact Hd]. rewrite He, Hq.
  apply in_or_app. right. apply in_or_app. right. now left.
Qed.

(** C9: the parser never throws.  With the accesses that can throw written
    out as steps that can fail, it completes normally on every text: the
    element 1 of a match is only read behind the test that there is a match,
    and its method [trim] only behind the test that the element is a text.
    The record it returns has the score 0 when the text holds no digit, and
    the initial value, the empty list or text, for every section none of
    whose headings occurs in the text. *)
Theorem parse_total_with_defaults (evaluation : jsstring) :
  exists r,
    Checked.parseEvaluationResponse evaluation = Normal r
    /\ r = parseEvaluationResponse evaluation
    /\ (existsb is_digit evaluation = false -> score r = Num 0)
    /\ forall k, absent k evaluation = true -> is_default k r.
Proof.
  exists (parseEvaluationResponse evaluation).
  split; [apply checked_parse|]. split; [reflexivity|]. split.
  - intros Hd. rewrite parse_fields. cbn [score].
    destruct (scoreMatch evaluation) as [m|] eqn:E; [|reflexivity].
    apply scoreMatch_digit in E. congruence.
  - intros k Hk. rewrite parse_fields.
    assert (Hno : forall re, In (k, re) sections ->
                             section_content re evaluation = None).
    { intros re Hin. destruct (section_content re evaluation) eqn:E;
        [|reflexivity].
      apply (section_mentioned _ _ _ _ Hin) in E. congruence. }
    destruct k; cbn [is_default strengths improvements missedPoints followUp
                     idealResponse];
      rewrite Hno; try reflexivity; unfold sections; cbn [In]; tauto.
Qed.

Lemma parse_total_with_defaults_witness :
  exists r,
    Checked.parseEvaluationResponse (js "Strengths: clear. Well done.")
    = Normal r
    /\ r = parseEvaluationResponse (js "Strengths: clear. Well done.")
    /\ score r = Num 0
    /\ improvements r = []
    /\ idealResponse r = [].
Proof.
  destruct (parse_total_with_defaults (js "Strengths: clear. Well done."))
    as (r & Hr & Er & Hscore & Habsent).
  exists r. split; [exact Hr|]. split; [exact Er|].
  split; [apply Hscore; vm_compute; reflexivity|]. split.
  - apply (Habsent improvements_key). vm_compute. reflexivity.
  - apply (Habsent idealResponse_key). vm_compute. reflexivity.
Defined.

(** ** The list of a section is never empty *)

Lemma bullet_not_space (b : char) :
  charset_mem bullets b = true -> is_space b = false.
Proof.
  unfold bullets, charset_mem. cbn [existsb]. rewrite orb_false_r.
  intros H. apply orb_true_iff in H. destruct H as [H|H];
    [|apply orb_true_iff in H; destruct H as [H|H]];
    apply N.eqb_eq in H; subst b; reflexivity.
Qed.

Lemma trim_start_fixed (s : jsstring) :
  starts_with_space s = false -> trim_start s = s.
Proof.
  destruct s as [|c t]; [reflexivity|]. cbn [starts_with_space trim_start].
  now intros ->.
Qed.

Lemma trim_fixed (s : jsstring) : no_edge_space s -> trim s = s.
Proof.
  intros [Hs He]. unfold trim, trim_end.
  rewrite (trim_start_fixed s Hs), (trim_start_fixed _ He).
  apply rev_involutive.
Qed.

(** Replacing by nothing the match of a pattern anchored at [^]. *)
Lemma replace_at_start (re : RegExp) (r : regex) (s : jsstring) :
  pattern re = Seq Bol r -> multiline (reflags re) = false ->
  replace re [] s
  = match rmatch (reflags re) r {| pre := []; post := s; cap := None |} Some with
    | Some e => post e
    | None => s
    end.
Proof.
  intros Hp Hm. unfold replace, exec.
  destruct (match_here re [] s) as [[m g]|] eqn:E.
  - rewrite (search_found_here _ _ _ _ _ E). cbn [f_before f_after rev app].
    unfold match_here in E. rewrite Hp in E. cbn [rmatch pre] in E.
    destruct (rmatch (reflags re) r _ Some) as [e|] eqn:Er; [|discriminate].
    inversion E; subst. clear E.
    destruct (rmatch_sound _ _ _ _ _ Er) as (st' & x & Hk & [Hx _] & _).
    inversion Hk; subst. cbn [post] in Hx.
    rewrite (consumed_prefix _ e x) by exact Hx.
    rewrite Hx at 1. now rewrite skipn_app, Nat.sub_diag, skipn_all.
  - assert (Hr : rmatch (reflags re) r {| pre := []; post := s; cap := None |} Some
                 = None).
    { unfold match_here in E. rewrite Hp in E. cbn [rmatch pre] in E.
      now destruct (rmatch (reflags re) r _ Some). }
    rewrite Hr. destruct s as [|c t]; cbn [search]; rewrite E; [reflexivity|].
    now rewrite (anchored_not_later re r t Hp Hm).
Qed.

(** A run of white space that is taken whole. *)
Lemma space_run (p q : jsstring) :
  exists x r, q = x ++ r /\ forallb is_space x = true
              /\ starts_with_space r = false
              /\ match_rep true CSpace 0 None None Some p q
                 = Some {| pre := rev x ++ p; post := r; cap := None |}.
Proof.
  destruct (match_rep true CSpace 0 None None Some p q) as [e|] eqn:E;
    [|now apply (greedy_star_total CSpace Some None) in E].
  apply greedy_star_maximal in E; [|discriminate].
  destruct E as (x & r & Hq & Hx & Hr & He). exists x, r.
  split; [exact Hq|]. split; [exact Hx|]. split.
  - destruct r; [reflexivity|exact Hr].
  - now rewrite He.
Qed.

(** Line 174: [/^[-•*]\s+/] takes away a bullet marker, a bullet
    character and the white space that follows, of one character or more. *)
Lemma bullet_marker_stripped (s : jsstring) :
  marker_stripped 1 s (replace re_bullet_marker [] s).
Proof.
  rewrite (replace_at_start re_bullet_marker (Seq (Cls bullets) (plus CSpace)))
    by reflexivity.
  cbn [reflags re_bullet_marker]. unfold plus. cbn [rmatch pre post cap].
  assert (Hno : forall r', after_marker 1 s r' ->
                exists b a t, s = b :: a :: t /\ charset_mem bullets b = true
                              /\ is_space a = true).
  { intros r' (b & sp & Hs & Hb & Hsp & Hn & _).
    destruct sp as [|a sp]; [cbn [length] in Hn; lia|].
    cbn [forallb] in Hsp. apply andb_true_iff in Hsp.
    exists b, a, (sp ++ r'). now repeat split. }
  destruct s as [|b [|a t]].
  - right. split; [reflexivity|]. intros r' H.
    destruct (Hno _ H) as (? & ? & ? & E & _). discriminate.
  - destruct (charset_mem bullets b); cbn [match_rep];
      (right; split; [reflexivity|]; intros r' H;
       destruct (Hno _ H) as (? & ? & ? & E & _); discriminate).
  - destruct (charset_mem bullets b) eqn:Hb; cycle 1.
    { right. split; [reflexivity|]. intros r' H.
      destruct (Hno _ H) as (? & ? & ? & E & Hb' & _).
      inversion E; subst. congruence. }
    cbn [match_rep charset_mem below dec]. rewrite andb_true_r.
    destruct (is_space a) eqn:Ha; cycle 1.
    { right. split; [reflexivity|]. intros r' H.
      destruct (Hno _ H) as (? & ? & ? & E & _ & Ha').
      inversion E; subst. congruence. }
    destruct (space_run [a; b] t) as (x & r & Ht & Hx & Hr & ->).
    cbn [post]. left. exists b, (a :: x). split; [now rewrite Ht|].
    split; [exact Hb|]. split; [cbn [forallb]; now rewrite Ha|].
    split; [cbn [length]; lia|exact Hr].
Qed.

(** Lines 131-134 on a text without white space at its ends:
    [/^\s*[-•*]\s*/] takes away a bullet character at the start and the
    white space that follows. *)
Lemma cleanedContent_stripped (content : jsstring) :
  no_edge_space content ->
  marker_stripped 0 content (cleanedContent content).
Proof.
  intros Hc. unfold cleanedContent.
  rewrite (replace_at_start re_leading_artifact
             (Seq (star CSpace) (Seq (Cls bullets) (star CSpace))))
    by reflexivity.
  cbn [reflags re_leading_artifact]. unfold star. cbn [rmatch pre post cap].
  destruct content as [|b t].
  - cbn [match_rep]. right. split; [reflexivity|].
    intros r' (? & ? & E & _). discriminate.
  - assert (Hb : is_space b = false) by exact (proj1 Hc).
    cbn [match_rep charset_mem]. rewrite Hb. cbn [andb pre post cap].
    destruct (charset_mem bullets b) eqn:Hbul.
    + destruct (space_run [b] t) as (x & r & Ht & Hx & Hr & ->).
      cbn [post].
      assert (Hr' : no_edge_space r).
      { apply (suffix_no_edge_space (b :: x)); [|exact Hr].
        cbn [app]. now rewrite <- Ht. }
      rewrite (trim_fixed _ Hr'). left. exists b, x.
      split; [now rewrite Ht|]. split; [exact Hbul|]. split; [exact Hx|].
      split; [lia|exact Hr].
    + rewrite (trim_fixed _ Hc). right. split; [reflexivity|].
      intros r' (b' & sp & E & Hb' & _). inversion E; subst. congruence.
Qed.

(** The two filters of lines 166-168 keep the points of more than one
    character; a lone bullet character has one. *)
Lemma post_filter_length (points : list jsstring) :
  post_filter points = filter (fun p => (1 <? length p)%nat) points.
Proof.
  unfold post_filter.
  induction points as [|a l IH]; [reflexivity|]. cbn [filter].
  destruct (1 <? length a)%nat eqn:E; [|exact IH].
  cbn [filter]. rewrite IH.
  destruct (test re_lone_bullet a) eqn:T; [|reflexivity].
  apply lone_bullet_test in T. destruct T as (c & -> & _). discriminate.
Qed.

Lemma section_content_trimmed (re : RegExp) (evaluation content : jsstring) :
  section_content re evaluation = Some content -> no_edge_space content.
Proof.
  unfold section_content. destruct (exec re evaluation) as [m|]; [|discriminate].
  destruct (f_group m) as [g|]; [|discriminate].
  destruct (nonempty g && nonempty (trim g)); [|discriminate].
  intros H. inversion H. apply trim_no_edge_space.
Qed.

(** C6: a list section whose heading matched and whose capture is not blank
    never gets an empty list.  Its cleaned block is the capture without the
    bullet character it may start with and the white space after that.  If
    any point that the segmenter makes of the cleaned block has more than
    one character, the list is those points, in order: the post-filter drops
    the points of at most one character, a lone bullet character among them.
    If none has, the list is the single item that is the cleaned block
    without the bullet marker it may start with.  Every item is a piece of
    the capture.  A section that holds only an asterisk goes through the
    fallback and gets one empty item. *)
Theorem list_section_never_empty (evaluation : jsstring) (k : key) (re : RegExp)
  (content : jsstring) :
  In (k, re) sections -> is_list_key k = true ->
  section_content re evaluation = Some content ->
  exists cleaned,
    marker_stripped 0 content cleaned
    /\ let points := split_points cleaned in
       let items := list_field k (parseEvaluationResponse evaluation) in
       items <> []
       /\ Forall (fun item => occurs_in item content) items
       /\ ((exists p, In p points /\ (1 < length p)%nat) ->
           items = filter (fun p => (1 <? length p)%nat) points)
       /\ ((forall p, In p points -> (length p <= 1)%nat) ->
           exists item, items = [item] /\ marker_stripped 1 cleaned item)
       /\ improvements (parseEvaluationResponse only_asterisk) = [[]].
Proof.
  intros Hin Hk Hc. exists (cleanedContent content).
  split; [apply cleanedContent_stripped; exact (section_content_trimmed _ _ _ Hc)|].
  cbv zeta. rewrite (list_section_field _ _ _ _ Hin Hk Hc).
  split; [apply list_items_nonempty|]. split; [apply list_items_occur|].
  rewrite list_items_cases. cbv zeta. rewrite post_filter_length.
  remember (filter (fun p => (1 <? length p)%nat)
              (split_points (cleanedContent content))) as kept eqn:E.
  split; [|split].
  - intros (p & Hp & Hl). destruct kept as [|x l]; [|reflexivity].
    exfalso.
    assert (Hf : In p (filter (fun p => (1 <? length p)%nat)
                         (split_points (cleanedContent content))))
      by (apply filter_In; split; [exact Hp|now apply Nat.ltb_lt]).
    rewrite <- E in Hf. exact Hf.
  - intros Hall. destruct kept as [|x l].
    + eexists. split; [reflexivity|]. apply bullet_marker_stripped.
    + exfalso.
      assert (Hp : In x (filter (fun p => (1 <? length p)%nat)
                           (split_points (cleanedContent content))))
        by (rewrite <- E; now left).
      apply filter_In in Hp. destruct Hp as [Hp Hl].
      apply Nat.ltb_lt in Hl. apply Hall in Hp. lia.
  - vm_compute. reflexivity.
Qed.

Lemma list_section_never_empty_witness :
  exists cleaned,
    marker_stripped 0 (js "edge cases") cleaned
    /\ let points := split_points cleaned in
       let items :=
         improvements
           (parseEvaluationResponse (js "Improvements: edge cases")) in
       items <> []
       /\ Forall (fun item => occurs_in item (js "edge cases")) items
       /\ ((exists p, In p points /\ (1 < length p)%nat) ->
           items = filter (fun p => (1 <? length p)%nat) points)
       /\ ((forall p, In p points -> (length p <= 1)%nat) ->
           exists item, items = [item] /\ marker_stripped 1 cleaned item)
       /\ improvements (parseEvaluationResponse only_asterisk) = [[]].
Proof.
  apply (list_section_never_empty (js "Improvements: edge cases")
           improvements_key improvements_re (js "edge cases")).
  - cbn [sections In]. right. left. reflexivity.
  - reflexivity.
  - vm_compute. reflexivity.
Defined.

(** ** The history of problems *)

Lemma jsstring_eqb_refl (a : jsstring) : jsstring_eqb a a = true.
Proof. unfold jsstring_eqb. now destruct (list_eq_dec N.eq_dec a a). Qed.

Lemma jsstring_eqb_eq (a b : jsstring) : jsstring_eqb a b = true -> a = b.
Proof.
  unfold jsstring_eqb. now destruct (list_eq_dec N.eq_dec a b).
Qed.

Lemma set_at_length {A : Type} (x : A) (l : list A) :
  forall i, length (set_at i x l) = length l.
Proof.
  induction l as [|a l IH]; intros [|i]; cbn [set_at length]; auto.
Qed.

Lemma set_at_twice {A : Type} (x y : A) (l : list A) :
  forall i, set_at i x (set_at i y l) = set_at i x l.
Proof.
  induction l as [|a l IH]; intros [|i]; cbn [set_at]; auto.
  now rewrite IH.
Qed.

Lemma set_at_same {A : Type} (x : A) (l : list A) :
  forall i, nth_error l i = Some x -> set_at i x l = l.
Proof.
  induction l as [|a l IH]; intros [|i] H; cbn [set_at nth_error] in *;
    try discriminate.
  - now inversion H.
  - now rewrite IH.
Qed.

Lemma nth_error_set_at {A : Type} (x : A) (l : list A) :
  forall i, (i < length l)%nat -> nth_error (set_at i x l) i = Some x.
Proof.
  induction l as [|a l IH]; intros [|i] H; cbn [set_at nth_error length] in *;
    try lia; [reflexivity|]. apply IH. lia.
Qed.

Lemma nth_error_set_at_other {A : Type} (x : A) (l : list A) :
  forall i j, i <> j -> nth_error (set_at i x l) j = nth_error l j.
Proof.
  induction l as [|a l IH]; intros [|i] [|j] H; cbn [set_at nth_error];
    try reflexivity; [contradiction|]. apply IH. lia.
Qed.

Lemma nth_error_in_range {A : Type} (l : list A) (n : nat) (x : A) :
  nth_error l n = Some x -> (n < length l)%nat.
Proof. intros H. apply nth_error_Some. now rewrite H. Qed.

Lemma has_id_entry (i : jsstring) (item : json) :
  has_id i item = true -> entry_id item = Some i.
Proof.
  destruct item; try discriminate. cbn [has_id entry_id].
  destruct (property (js "id") fields) as [[]|]; try discriminate.
  intros H. now rewrite (jsstring_eqb_eq _ _ H).
Qed.

Lemma entry_has_id (i : jsstring) (item : json) :
  entry_id item = Some i -> has_id i item = true.
Proof.
  destruct item; try discriminate. cbn [has_id entry_id].
  destruct (property (js "id") fields) as [[]|]; try discriminate.
  intros H. inversion H. apply jsstring_eqb_refl.
Qed.

Lemma historyItem_id (i date : jsstring) (state : InterviewState) :
  entry_id (historyItem i date state) = Some i.
Proof. reflexivity. Qed.

(** What [findIndex] tells when it returns an index. *)
Lemma findIndex_found (i : jsstring) (history : list json) :
  forall from j, findIndex i history from = Some (Some j) ->
  exists n item, j = (from + n)%nat
                 /\ nth_error history n = Some item
                 /\ has_id i item = true
                 /\ findIndex i (firstn n history) from = Some None.
Proof.
  induction history as [|item rest IH]; intros from j H; [discriminate|].
  cbn [findIndex] in H.
  destruct (has_id i item) eqn:E.
  - exists 0%nat, item. destruct item; try discriminate;
      inversion H; subst; repeat split; auto.
  - assert (H' : findIndex i rest (S from) = Some (Some j))
      by (destruct item; try discriminate; exact H).
    destruct (IH _ _ H') as (n & it & Hj & Hn & Hi & Hp).
    exists (S n), it. split; [lia|]. split; [exact Hn|]. split; [exact Hi|].
    cbn [firstn findIndex]. rewrite E.
    destruct item; try discriminate; exact Hp.
Qed.

(** When it returns -1 no entry has the id. *)
Lemma findIndex_absent (i : jsstring) (history : list json) :
  forall from, findIndex i history from = Some None -> ~ In i (ids history).
Proof.
  induction history as [|item rest IH]; intros from H; [now intros []|].
  cbn [findIndex] in H. cbn [ids].
  destruct (has_id i item) eqn:E; [destruct item; discriminate|].
  assert (H' : findIndex i rest (S from) = Some None)
    by (destruct item; try discriminate; exact H).
  destruct (entry_id item) as [s|] eqn:Es; [|now apply IH in H'].
  intros [->|Hin]; [|now apply IH in H'].
  apply entry_has_id in Es. congruence.
Qed.

(** The index returned is the first with the id, also after the update. *)
Lemma findIndex_after_update (i : jsstring) (item : json) (history : list json) :
  has_id i item = true ->
  forall n from, findIndex i (firstn n history) from = Some None ->
  (n < length history)%nat ->
  findIndex i (set_at n item history) from = Some (Some (from + n)%nat).
Proof.
  intros Hi. induction history as [|x rest IH]; intros n from H Hn;
    [cbn [length] in Hn; lia|].
  destruct n as [|n].
  - cbn [set_at findIndex]. rewrite Hi, Nat.add_0_r.
    now destruct item.
  - cbn [firstn findIndex set_at] in *.
    destruct (has_id i x) eqn:E; [destruct x; discriminate|].
    assert (H' : findIndex i (firstn n rest) (S from) = Some None)
      by (destruct x; try discriminate; exact H).
    cbn [length] in Hn. rewrite (IH n (S from) H') by lia.
    replace (S from + n)%nat with (from + S n)%nat by lia.
    now destruct x.
Qed.

Lemma ids_app (a b : list json) : ids (a ++ b) = ids a ++ ids b.
Proof.
  induction a as [|x a IH]; [reflexivity|]. cbn [app ids].
  destruct (entry_id x); [cbn [app]|]; now rewrite IH.
Qed.

Lemma ids_firstn_NoDup (n : nat) (history : list json) :
  NoDup (ids history) -> NoDup (ids (firstn n history)).
Proof.
  rewrite <- (firstn_skipn n history) at 1. rewrite ids_app.
  apply NoDup_app_remove_r.
Qed.

Lemma ids_set_at (item : json) (history : list json) :
  forall n x, nth_error history n = Some x -> entry_id x = entry_id item ->
  ids (set_at n item history) = ids history.
Proof.
  induction history as [|y rest IH]; intros [|n] x H E;
    cbn [nth_error set_at ids] in *; try discriminate.
  - inversion H; subst. now rewrite E.
  - now rewrite (IH n x H E).
Qed.

(** The history before it is cut to fifty entries. *)
Lemma stored_history_cases (savedHistory : saved) (i : jsstring) (item : json) :
  exists history,
    stored_history savedHistory i item
    = (if (50 <? length history)%nat then firstn 50 history else history)
    /\ (history = [item]
        \/ (exists h, savedHistory = Parsed (JArray h)
                      /\ findIndex i h 0 = Some None /\ history = item :: h)
        \/ (exists h n x, savedHistory = Parsed (JArray h)
                          /\ nth_error h n = Some x /\ has_id i x = true
                          /\ findIndex i (firstn n h) 0 = Some None
                          /\ history = set_at n item h)).
Proof.
  unfold stored_history.
  destruct savedHistory as [| |[]]; try (eexists; split; [reflexivity|now left]).
  destruct (findIndex i items 0) as [[j|]|] eqn:E.
  - destruct (findIndex_found _ _ _ _ E) as (n & x & Hj & Hn & Hx & Hp).
    cbn [Nat.add] in Hj. subst j.
    eexists. split; [reflexivity|]. right. right. now exists items, n, x.
  - eexists. split; [reflexivity|]. right. left. now exists items.
  - eexists. split; [reflexivity|]. now left.
Qed.

Lemma stored_history_bounds (savedHistory : saved) (i : jsstring) (item : json) :
  (1 <= length (stored_history savedHistory i item) <= 50)%nat.
Proof.
  destruct (stored_history_cases savedHistory i item) as (history & -> & H).
  assert (Hl : (1 <= length history)%nat).
  { destruct H as [->|[(h & _ & _ & ->)|(h & n & x & _ & Hn & _ & _ & ->)]];
      cbn [length]; try lia.
    rewrite set_at_length. apply nth_error_in_range in Hn. lia. }
  destruct (50 <? length history)%nat eqn:E.
  - apply Nat.ltb_lt in E. rewrite length_firstn. lia.
  - apply Nat.ltb_ge in E. lia.
Qed.

(** X12: the stored history is never empty and never longer than fifty
    entries, whatever was saved before. *)
Theorem stored_history_length (savedHistory : saved) (i : jsstring) (item : json) :
  (1 <= length (stored_history savedHistory i item) <= 50)%nat.
Proof. apply stored_history_bounds. Qed.

(** X13: if the saved history has at most fifty entries, as every history
    stored by this code has, the entry of the current problem is in the
    stored history. *)
Theorem stored_history_has_item (savedHistory : saved) (i : jsstring) (item : json) :
  (forall h, savedHistory = Parsed (JArray h) -> (length h <= 50)%nat) ->
  In item (stored_history savedHistory i item).
Proof.
  intros Hlen.
  destruct (stored_history_cases savedHistory i item) as (history & -> & H).
  destruct H as [->|[(h & _ & _ & ->)|(h & n & x & Hs & Hn & _ & _ & ->)]].
  - cbn. now left.
  - destruct (50 <? length (item :: h))%nat; cbn; now left.
  - rewrite set_at_length.
    pose proof (Hlen _ Hs) as Hh. apply Nat.ltb_ge in Hh. rewrite Hh.
    apply nth_error_In with n. apply nth_error_set_at.
    now apply nth_error_in_range in Hn.
Qed.

Lemma stored_history_has_item_witness :
  In (historyItem (js "p2") (js "3/11/2026")
        {| category := Some (js "os"); isActive := true; messages := [];
           currentQuestion := js "What is a semaphore?"; hints := [] |})
     (stored_history
        (Parsed (JArray [JObject [(js "id", JString (js "p1"))];
                         JObject [(js "id", JString (js "p2"))]]))
        (js "p2")
        (historyItem (js "p2") (js "3/11/2026")
           {| category := Some (js "os"); isActive := true; messages := [];
              currentQuestion := js "What is a semaphore?"; hints := [] |})).
Proof.
  apply stored_history_has_item.
  intros h H. inversion H; subst. cbn [length]. lia.
Defined.

(** X14: the ids of the stored history are pairwise different if those of
    the saved history are; the side bar uses them as keys. *)
Theorem stored_history_ids_unique
  (savedHistory : saved) (i date : jsstring) (state : InterviewState) :
  (forall h, savedHistory = Parsed (JArray h) -> NoDup (ids h)) ->
  NoDup (ids (stored_history savedHistory i (historyItem i date state))).
Proof.
  intros Hsaved.
  destruct (stored_history_cases savedHistory i (historyItem i date state))
    as (history & -> & H).
  assert (Hh : NoDup (ids history)).
  { destruct H as [->|[(h & Hs & Hf & ->)|(h & n & x & Hs & Hn & Hx & _ & ->)]].
    - cbn [ids]. rewrite historyItem_id. constructor; [intros []|constructor].
    - cbn [ids]. rewrite historyItem_id. constructor.
      + now apply findIndex_absent in Hf.
      + now apply Hsaved.
    - rewrite (ids_set_at _ _ _ _ Hn); [now apply Hsaved|].
      now rewrite (has_id_entry _ _ Hx), historyItem_id. }
  destruct (50 <? length history)%nat; [now apply ids_firstn_NoDup|exact Hh].
Qed.

Lemma stored_history_ids_unique_witness :
  NoDup (ids (stored_history
                (Parsed (JArray [JObject [(js "id", JString (js "p1"))];
                                 JObject [(js "id", JString (js "p2"))]]))
                (js "p2")
                (historyItem (js "p2") (js "3/11/2026")
                   {| category := None; isActive := true; messages := [];
                      currentQuestion := js "What is a semaphore?";
                      hints := [] |}))).
Proof.
  apply stored_history_ids_unique.
  intros h H. inversion H; subst. vm_compute.
  constructor; [intros [E|[]]; discriminate|].
  constructor; [intros []|constructor].
Defined.

(** In memory, storing the entry of a problem a second time changes nothing,
    if the saved history has at most fifty entries. *)
Lemma stored_history_again
  (savedHistory : saved) (i date : jsstring) (state : InterviewState) :
  (forall h, savedHistory = Parsed (JArray h) -> (length h <= 50)%nat) ->
  stored_history
    (Parsed (JArray (stored_history savedHistory i (historyItem i date state))))
    i (historyItem i date state)
  = stored_history savedHistory i (historyItem i date state).
Proof.
  intros Hlen. set (item := historyItem i date state).
  assert (Hitem : has_id i item = true)
    by (apply entry_has_id, historyItem_id).
  pose proof (stored_history_bounds savedHistory i item) as Hb.
  assert (Hhead : forall t, (length (item :: t) <= 50)%nat ->
            stored_history (Parsed (JArray (item :: t))) i item = item :: t).
  { intros t Ht. unfold stored_history. cbn [findIndex]. rewrite Hitem.
    replace (match item with JNull => None | _ => Some (Some 0%nat) end)
      with (Some (Some 0%nat)) by reflexivity.
    cbn [set_at]. apply Nat.ltb_ge in Ht. now rewrite Ht. }
  destruct (stored_history_cases savedHistory i item) as (history & E & H).
  rewrite E in *.
  destruct H as [->|[(h & _ & _ & ->)|(h & n & x & Hs & Hn & _ & Hp & ->)]].
  - cbn [length Nat.ltb Nat.leb]. apply Hhead. cbn [length]. lia.
  - destruct (50 <? length (item :: h))%nat eqn:El.
    + cbn [firstn]. apply Hhead. cbn [firstn] in Hb. lia.
    + apply Hhead. lia.
  - rewrite set_at_length in *. pose proof (Hlen _ Hs) as Hh.
    apply Nat.ltb_ge in Hh. rewrite Hh.
    unfold stored_history.
    rewrite (findIndex_after_update i item h Hitem n 0%nat Hp)
      by now apply nth_error_in_range in Hn.
    cbn [Nat.add]. rewrite set_at_twice, set_at_length. now rewrite Hh.
Qed.

Lemma property_written (k : jsstring) (fields : list (jsstring * json)) :
  property k (map (fun field => match field with
                                | (k', x) => (k', written x)
                                end) fields)
  = option_map written (property k fields).
Proof.
  induction fields as [|[k' x] rest IH]; [reflexivity|].
  cbn [map property]. destruct (jsstring_eqb k' k); [reflexivity|exact IH].
Qed.

(** Writing an entry and reading it back keeps its id. *)
Lemma has_id_written (i : jsstring) (item : json) :
  has_id i (written item) = has_id i item.
Proof.
  destruct item; try reflexivity. cbn [written has_id].
  rewrite property_written.
  destruct (property (js "id") fields) as [[]|]; reflexivity.
Qed.

Lemma findIndex_written (i : jsstring) (history : list json) :
  forallb (fun item => negb (is_infinity item)) history = true ->
  forall from, findIndex i (map written history) from = findIndex i history from.
Proof.
  induction history as [|item rest IH]; intros H from; [reflexivity|].
  cbn [forallb] in H. apply andb_true_iff in H. destruct H as [Hi Hr].
  cbn [map findIndex]. rewrite <- (has_id_written i item).
  destruct item; try discriminate; cbn [written];
    try (rewrite (IH Hr); reflexivity); reflexivity.
Qed.

Lemma map_set_at {A B : Type} (f : A -> B) (x : A) (l : list A) :
  forall n, map f (set_at n x l) = set_at n (f x) (map f l).
Proof.
  induction l as [|a l IH]; intros [|n]; cbn [set_at map]; auto.
  now rewrite IH.
Qed.

(** The history stored from a saved one that was written and read back. *)
Lemma stored_history_written (i : jsstring) (item : json) (history : list json) :
  forallb (fun item => negb (is_infinity item)) history = true ->
  written item = item ->
  stored_history (Parsed (JArray (map written history))) i item
  = map written (stored_history (Parsed (JArray history)) i item).
Proof.
  intros Hh Hi. unfold stored_history. rewrite (findIndex_written _ _ Hh).
  destruct (findIndex i history 0) as [[n|]|].
  - rewrite !set_at_length, length_map.
    destruct (50 <? length history)%nat;
      rewrite <- ?firstn_map, map_set_at, Hi; reflexivity.
  - cbn [length]. rewrite length_map.
    destruct (50 <? S (length history))%nat;
      rewrite <- ?firstn_map; cbn [map]; now rewrite Hi.
  - cbn. now rewrite Hi.
Qed.

Lemma forallb_set_at {A : Type} (f : A -> bool) (x : A) (l : list A) :
  f x = true -> forallb f l = true -> forall n, forallb f (set_at n x l) = true.
Proof.
  intros Hx. induction l as [|a l IH]; intros H [|n]; cbn [set_at forallb] in *;
    try reflexivity; apply andb_true_iff in H; destruct H as [Ha Hl];
    apply andb_true_iff; split; auto.
Qed.

Lemma forallb_firstn {A : Type} (f : A -> bool) (l : list A) :
  forallb f l = true -> forall n, forallb f (firstn n l) = true.
Proof.
  induction l as [|a l IH]; intros H [|n]; cbn [firstn forallb] in *;
    try reflexivity. apply andb_true_iff in H. destruct H as [Ha Hl].
  apply andb_true_iff. split; auto.
Qed.

(** X15: with at most fifty saved entries, none of them an infinity, storing
    the entry of the same problem again changes nothing: run on the history
    it stored, as that is read back from the storage, the effect stores that
    same history. *)
Theorem stored_history_idempotent
  (savedHistory : saved) (i date : jsstring) (state : InterviewState) :
  (forall h, savedHistory = Parsed (JArray h) ->
             (length h <= 50)%nat
             /\ forallb (fun item => negb (is_infinity item)) h = true) ->
  let item := historyItem i date state in
  let readBack := map written (stored_history savedHistory i item) in
  stored_history (Parsed (JArray readBack)) i item = readBack.
Proof.
  intros Hsaved item readBack. subst readBack.
  assert (Hitem : written item = item) by reflexivity.
  assert (Hfin : forallb (fun item => negb (is_infinity item))
                   (stored_history savedHistory i item) = true).
  { destruct (stored_history_cases savedHistory i item) as (history & -> & H).
    assert (Hh : forallb (fun item => negb (is_infinity item)) history = true).
    { destruct H as [->|[(h & Hs & _ & ->)|(h & n & x & Hs & _ & _ & _ & ->)]].
      - reflexivity.
      - cbn [forallb]. now rewrite (proj2 (Hsaved _ Hs)).
      - apply forallb_set_at; [reflexivity|exact (proj2 (Hsaved _ Hs))]. }
    destruct (50 <? length history)%nat; [now apply forallb_firstn|exact Hh]. }
  rewrite (stored_history_written _ _ _ Hfin Hitem). f_equal.
  apply stored_history_again. intros h Hs. exact (proj1 (Hsaved _ Hs)).
Qed.

Lemma stored_history_idempotent_witness :
  stored_history
    (Parsed (JArray (map written
                       (stored_history
                          (Parsed (JArray [JObject [(js "id", JString (js "p1"))]]))
                          (js "p2")
                          (historyItem (js "p2") (js "3/11/2026")
                             {| category := Some (js "go"); isActive := true;
                                messages := [];
                                currentQuestion := js "What is a channel?";
                                hints := [] |})))))
    (js "p2")
    (historyItem (js "p2") (js "3/11/2026")
       {| category := Some (js "go"); isActive := true; messages := [];
          currentQuestion := js "What is a channel?"; hints := [] |})
  = map written
      (stored_history
         (Parsed (JArray [JObject [(js "id", JString (js "p1"))]]))
         (js "p2")
         (historyItem (js "p2") (js "3/11/2026")
            {| category := Some (js "go"); isActive := true; messages := [];
               currentQuestion := js "What is a channel?"; hints := [] |})).
Proof.
  apply (stored_history_idempotent
           (Parsed (JArray [JObject [(js "id", JString (js "p1"))]]))).
  intros h H. inversion H; subst. split; [cbn [length]; lia|reflexivity].
Defined.

(** An infinity among the saved entries is read back as [null], on which
    the next run throws: the condition of X15 on the saved entries is
    needed. *)
Lemma stored_history_after_infinity :
  let item := historyItem (js "p2") (js "3/11/2026")
                {| category := None; isActive := true; messages := [];
                   currentQuestion := js "What is a channel?"; hints := [] |} in
  let stored :=
    stored_history
      (Parsed (JArray [JInfinity false; JObject [(js "id", JString (js "p2"))]]))
      (js "p2") item in
  stored = [JInfinity false; item]
  /\ map written stored = [JNull; item]
  /\ stored_history (Parsed (JArray (map written stored))) (js "p2") item = [item].
Proof. repeat split; vm_compute; reflexivity. Qed.

(** X16: the title of an entry has at most fifty-three characters, and it is
    the question itself unless that has more than fifty. *)
Theorem title_is_short (currentQuestion : jsstring) :
  (length (title currentQuestion) <= 53)%nat
  /\ (title currentQuestion = currentQuestion
      \/ (50 < length currentQuestion)%nat).
Proof.
  unfold title. destruct (50 <? length currentQuestion)%nat eqn:E.
  - apply Nat.ltb_lt in E. split; [|now right].
    rewrite length_app, length_firstn.
    change (length (js "...")) with 3%nat. lia.
  - apply Nat.ltb_ge in E. rewrite app_nil_r, firstn_all2 by exact E.
    split; [lia|now left].
Qed.

(** ** Hints *)

(** X17: showing or hiding a hint twice leaves the hints as they were. *)
Theorem toggleHintVisibility_twice (index : nat) (hints_ : list Hint) :
  toggleHintVisibility index (toggleHintVisibility index hints_) = hints_.
Proof.
  unfold toggleHintVisibility at 2.
  destruct (nth_error hints_ index) as [hint|] eqn:E.
  - unfold toggleHintVisibility.
    rewrite nth_error_set_at by now apply nth_error_in_range in E.
    cbn [text visible]. rewrite negb_involutive, set_at_twice.
    apply set_at_same. rewrite E. now destruct hint.
  - unfold toggleHintVisibility. now rewrite E.
Qed.

(** X18: showing or hiding a hint leaves the other hints and every text as
    they were. *)
Theorem toggleHintVisibility_touches_one_flag
  (index other : nat) (hints_ : list Hint) :
  index <> other ->
  nth_error (toggleHintVisibility index hints_) other = nth_error hints_ other
  /\ map text (toggleHintVisibility index hints_) = map text hints_.
Proof.
  intros H. unfold toggleHintVisibility.
  destruct (nth_error hints_ index) as [hint|] eqn:E; [|now split].
  split; [now apply nth_error_set_at_other|].
  clear H. revert index E.
  induction hints_ as [|a l IH]; intros [|n] E; cbn [nth_error set_at map] in *;
    try discriminate.
  - now inversion E.
  - now rewrite (IH n E).
Qed.

Lemma toggleHintVisibility_touches_one_flag_witness :
  nth_error (toggleHintVisibility 0
               [ {| text := js "Use a heap."; visible := false |};
                 {| text := js "Think of ties."; visible := true |} ]) 1
  = Some {| text := js "Think of ties."; visible := true |}
  /\ map text (toggleHintVisibility 0
                 [ {| text := js "Use a heap."; visible := false |};
                   {| text := js "Think of ties."; visible := true |} ])
     = [js "Use a heap."; js "Think of ties."].
Proof.
  apply (toggleHintVisibility_touches_one_flag 0 1). lia.
Defined.

(** ** Categories *)

(** X19: the name of a category is empty only for an id that is not in the
    table of categories. *)
Theorem getCategoryName_empty (categoryId : jsstring) :
  getCategoryName categoryId = [] <->
  ~ In categoryId (map id FLATTENED_CATEGORIES).
Proof.
  unfold getCategoryName.
  destruct (find _ FLATTENED_CATEGORIES) as [c|] eqn:E.
  - apply find_some in E. destruct E as [Hin Hid].
    apply jsstring_eqb_eq in Hid. split.
    + intros Hn. exfalso.
      assert (Hall : Forall (fun c => name c <> []) FLATTENED_CATEGORIES)
        by (repeat constructor; discriminate).
      now apply (proj1 (Forall_forall _ _) Hall c Hin).
    + intros Hn. exfalso. apply Hn. rewrite <- Hid. now apply in_map.
  - split; [|reflexivity]. intros _ Hin. apply in_map_iff in Hin.
    destruct Hin as (c & Hc & Hin).
    apply (find_none _ _ E) in Hin. rewrite Hc, jsstring_eqb_refl in Hin.
    discriminate.
Qed.

Lemma getCategoryName_empty_witness : getCategoryName (js "rust") = [].
Proof.
  apply (proj2 (getCategoryName_empty (js "rust"))). vm_compute.
  intros H. repeat (destruct H as [H|H]; [discriminate|]). exact H.
Defined.

(** ** Code in Markdown *)

(** A literal matches only itself when case counts. *)
Lemma match_lit_exact (fl : flags) (s : jsstring) :
  ignoreCase fl = false ->
  forall st k e, match_lit fl s st k = Some e ->
  exists st', k st' = Some e /\ reaches st st' s /\ cap st' = cap st.
Proof.
  intros Hi. induction s as [|x s IH]; intros st k e H.
  - exists st. split; [exact H|]. split; [apply reaches_refl|reflexivity].
  - cbn [match_lit] in H. destruct (post st) as [|c t] eqn:Ep; [discriminate|].
    unfold lit_eq in H. rewrite Hi in H.
    destruct (c =? x) eqn:Ec; [|discriminate]. apply N.eqb_eq in Ec. subst c.
    destruct (IH _ _ _ H) as (st' & Hk & [Hq Hp] & Hc).
    cbn [pre post cap] in *. exists st'. split; [exact Hk|].
    split; [|exact Hc]. split.
    + now rewrite Ep, Hq.
    + rewrite Hp. cbn [rev]. now rewrite <- app_assoc.
Qed.

(** A match of [/language-(\w+)/]. *)
Lemma language_here (p q m : jsstring) (g : option jsstring) :
  match_here re_language p q = Some (m, g) ->
  exists language rest,
    g = Some language /\ q = js "language-" ++ language ++ rest
    /\ language <> [] /\ forallb (charset_mem word) language = true.
Proof.
  unfold match_here.
  destruct (rmatch _ _ _ _) as [e|] eqn:H; [|discriminate].
  intros E. inversion E; subst m g. clear E.
  unfold re_language in H. cbn [pattern reflags rmatch] in H.
  destruct (match_lit_exact no_flags _ eq_refl _ _ _ H) as (st1 & H1 & [R1 _] & _).
  unfold plus in H1. cbn [rmatch] in H1.
  destruct (match_rep_sound _ _ _ _ _ _ _ _ _ H1)
    as (st2 & x & H2 & [R2 _] & _ & Hw & Hlen).
  cbn [pre post cap] in *. inversion H2; subst e. cbn [cap].
  exists x, (post st2). split; [|split; [|split]].
  - f_equal. now apply consumed_prefix.
  - now rewrite R1, R2.
  - intros ->. cbn [length] in Hlen. lia.
  - exact Hw.
Qed.

(** X20: a block of code is rendered with a class [language-x] on its [code]
    element, where [x] is a word of one character or more and the class is
    part of the class name given; the empty class of the source is never
    used.  The block holds the text as it was given. *)
Theorem code_block_has_language
  (className : option jsstring) (children preClass codeClass shown : jsstring) :
  code false className children = code_block preClass codeClass shown ->
  shown = children
  /\ exists language given,
       codeClass = js "language-" ++ language
       /\ language <> []
       /\ forallb (charset_mem word) language = true
       /\ className = Some given
       /\ occurs_in codeClass given.
Proof.
  unfold code. cbv zeta. cbn [orb].
  set (given := match className with Some c => c | None => [] end).
  unfold exec.
  destruct (search re_language [] given) as [f|] eqn:E; [|discriminate].
  destruct (search_found_at _ _ _ _ E) as (p' & q' & He & _ & Hm & _).
  destruct (language_here _ _ _ _ Hm) as (language & rest & Hg & Hq & Hn & Hw).
  cbn [rev app] in He.
  assert (Hc : className = Some given).
  { subst given. destruct className; [reflexivity|].
    rewrite Hq in He. destruct (rev p'); discriminate. }
  rewrite Hg. cbn [is_some negb]. intros H. inversion H.
  split; [reflexivity|]. exists language, given.
  destruct language as [|c l]; [now contradiction Hn|]. cbn [nonempty].
  split; [reflexivity|]. split; [discriminate|]. split; [exact Hw|].
  split; [exact Hc|].
  rewrite He, Hq. exists (rev p'), rest. rewrite <- ?app_assoc. reflexivity.
Qed.

Lemma code_block_has_language_witness :
  LF :: js "x = 1" ++ [LF] = LF :: js "x = 1" ++ [LF]
  /\ exists language given,
       js "language-python" = js "language-" ++ language
       /\ language <> []
       /\ forallb (charset_mem word) language = true
       /\ Some (js "hljs language-python") = Some given
       /\ occurs_in (js "language-python") given.
Proof.
  apply (code_block_has_language (Some (js "hljs language-python"))
           (LF :: js "x = 1" ++ [LF])
           (js "hljs language-python overflow-auto rounded-md p-3 bg-gray-100 dark:bg-gray-800")).
  vm_compute. reflexivity.
Defined.

(** [/\n$/] matches at a final line feed only. *)
Lemma final_newline_here (p q : jsstring) :
  match_here re_final_newline p q
  = match q with
    | [c] => if c =? LF then Some ([LF], None) else None
    | _ => None
    end.
Proof.
  unfold match_here, re_final_newline. cbn [pattern reflags rmatch match_lit post].
  destruct q as [|c t]; [reflexivity|].
  unfold lit_eq. cbn [ignoreCase no_flags].
  destruct (c =? LF) eqn:E; [|now destruct t].
  apply N.eqb_eq in E. subst c.
  cbn [rmatch post pre cap multiline no_flags andb].
  destruct t; reflexivity.
Qed.

Lemma final_newline_found (s : jsstring) :
  forall p, search re_final_newline p (s ++ [LF])
            = Some {| f_before := rev p ++ s; f_text := [LF]; f_group := None;
                      f_after := [] |}.
Proof.
  induction s as [|c t IH]; intros p.
  - cbn [app]. rewrite search_cons, final_newline_here.
    change (LF =? LF) with true. cbv iota. now rewrite app_nil_r.
  - cbn [app]. rewrite search_cons, final_newline_here.
    replace (match t ++ [LF] with [] => _ | _ :: _ => None end)
      with (@None (jsstring * option jsstring)) by now destruct t.
    rewrite IH. cbn [rev]. now rewrite <- app_assoc.
Qed.

Lemma final_newline_not_found (s : jsstring) :
  last s 0 <> LF -> forall p, search re_final_newline p s = None.
Proof.
  induction s as [|c t IH]; intros H p.
  - cbn [search]. now rewrite final_newline_here.
  - rewrite search_cons, final_newline_here.
    destruct t as [|d t].
    + cbn [last] in H. apply N.eqb_neq in H. rewrite H.
      cbn [search]. now rewrite final_newline_here.
    + apply IH. exact H.
Qed.

(** The text without its final line feed, if it ends with one. *)
Lemma final_newline_replaced (s : jsstring) :
  (exists t, s = t ++ [LF] /\ replace re_final_newline [] s = t)
  \/ (last s 0 <> LF /\ replace re_final_newline [] s = s).
Proof.
  destruct (N.eq_dec (last s 0) LF) as [E|E].
  - left. assert (Hn : s <> []) by (intros ->; discriminate E).
    pose proof (@app_removelast_last char s 0 Hn) as Hs. rewrite E in Hs.
    remember (removelast s) as t. exists t. split; [exact Hs|].
    unfold replace, exec. rewrite Hs, final_newline_found.
    cbn [f_before f_after rev app]. now rewrite app_nil_r.
  - right. split; [exact E|]. unfold replace, exec.
    now rewrite final_newline_not_found.
Qed.

(** X21: [MarkdownComponents.code] renders inline code exactly when the code
    is marked inline or its class name holds no language class, and the
    content is then the text without its final line feed, if it ends with
    one, and the text itself otherwise. *)
Theorem inline_code_drops_final_newline
  (inline : bool) (className : option jsstring) (children content : jsstring) :
  code inline className children = inline_code content
  <-> (inline = true
       \/ exec re_language (match className with Some c => c | None => [] end)
          = None)
      /\ (children = content ++ [LF]
          \/ (content = children /\ last children 0 <> LF)).
Proof.
  unfold code. cbv zeta.
  set (given := match className with Some c => c | None => [] end).
  assert (Hshape : inline || negb (is_some (exec re_language given)) = true
                   <-> (inline = true \/ exec re_language given = None)).
  { destruct inline; cbn [orb].
    - split; [now left|reflexivity].
    - destruct (exec re_language given); cbn [is_some negb]; split;
        try discriminate; try (now right); try reflexivity.
      intros [H|H]; discriminate. }
  destruct (inline || negb (is_some (exec re_language given))) eqn:Es.
  - assert (Hi : inline = true \/ exec re_language given = None)
      by now apply Hshape.
    destruct (final_newline_replaced children) as [(t & Hs & Hr)|(Hl & Hr)];
      rewrite Hr.
    + split.
      * intros H. inversion H; subst content. split; [exact Hi|now left].
      * intros [_ [Hc|[_ Hl]]].
        -- rewrite Hs in Hc. apply app_inj_tail in Hc. now destruct Hc as [-> _].
        -- exfalso. apply Hl. rewrite Hs. apply last_last.
    + split.
      * intros H. inversion H; subst content. split; [exact Hi|now right].
      * intros [_ [Hc|[Hc _]]].
        -- exfalso. apply Hl. rewrite Hc. apply last_last.
        -- now rewrite Hc.
  - split; [discriminate|]. intros [Hi _]. apply Hshape in Hi. discriminate.
Qed.

Lemma inline_code_drops_final_newline_witness :
  code false None (js "x = 1" ++ [LF]) = inline_code (js "x = 1").
Proof.
  apply (proj2 (inline_code_drops_final_newline false None
                  (js "x = 1" ++ [LF]) (js "x = 1"))).
  split; [right; vm_compute; reflexivity|left; reflexivity].
Defined.
